(** * qToggleServer front-end: the notifications API ([api/notifications.js])

    A shallow embedding of the long-polling notification subsystem: the
    registry of expected events, the event listeners, the [wait] poll loop
    and the periodic cleanup, followed by the properties of the
    specification that concern them. The function of [index.js] that
    restarts the poll loop when the application becomes visible, and the
    builder of datasets of [widgets/bar-chart.js], come after the module.

    Conventions of the embedding:
    - the module-level [let] variables of [notifications.js] are the first
      fields of [World]; the remaining fields are the JavaScript run time the
      module talks to (clock, heap of [Event] objects, promises, the queue of
      [asap] callbacks, timers) and a trace of the calls the module makes to
      the outside (expectation handlers, listeners, sync callbacks, the
      [/listen] API call);
    - a function that reads or writes module state, or may throw, is a
      computation in the monad [M]: a world goes in, a result or a thrown
      error comes out together with the world as it was left;
    - JavaScript numbers are integers ([Z]); [logger] calls do not touch the
      state of the module and are left out;
    - the callbacks registered by the application are opaque: a listener
      returns or throws, depending on the event it is given, and does not
      call back into the module while it runs. *)

From stdpp Require Import base option numbers list strings gmap sorting.

Open Scope Z_scope.

(** ** Values *)

(** The values stored in event parameters: primitives, and references to
    nested objects, which [!==] compares by identity. *)
Inductive JsVal :=
  | VUndef
  | VNull
  | VBool (b : bool)
  | VNum (n : Z)
  | VStr (s : string)
  | VObj (ref : N).

#[global] Instance JsVal_eq_dec : EqDecision JsVal.
Proof. solve_decision. Defined.

(** A parameters object: own properties by name. *)
Abbreviation Params := (gmap string JsVal).

(** [obj[key]]: a missing property reads as [undefined]. *)
Definition js_get (o : Params) (key : string) : JsVal :=
  default VUndef (o !! key).

(** [a !== b] on the values above. *)
Definition strict_neq (a b : JsVal) : bool := negb (bool_decide (a = b)).

Inductive JsError :=
  | Error (msg : string)
  | TypeError (msg : string)
  | AssertionError (msg : string).

#[global] Instance JsError_eq_dec : EqDecision JsError.
Proof. solve_decision. Defined.

(** ** Constants *)

Definition DEFAULT_EXPECT_TIMEOUT : Z := 60000.
Definition FAST_RECONNECT_LISTEN_ERRORS : Z := 2.
Definition LISTEN_KEEPALIVE : Z := 60.

(** The constants of [./constants.js] that [wait] reads. *)
Record APIConstants := {
  SERVER_RETRY_INTERVAL : Z;
  DEFAULT_SERVER_TIMEOUT : Z
}.

(** ** Data model *)

Abbreviation Ref := nat.        (* address of an Event object *)
Abbreviation PromiseId := nat.  (* address of a promise *)
Abbreviation Handle := N.

(** [class Event]. *)
Record Event := {
  ev_type : string;
  ev_params : Params;
  ev_expected : bool;
  ev_fake : bool
}.

(** Modelled from the spec: [ObjectUtils.copy] of the external [$qui]
    library, which is not part of the sources. "params: mapping from string
    to arbitrary value, copied at construction time": the copy is a new
    object with the same own properties; nested objects stay shared
    references. *)
Definition ObjectUtils_copy (params : Params) : Params := params.

(** [new Event(type, params, expected = false, fake = false)]. *)
Definition new_Event (type : string) (params : Params)
    (expected fake : bool) : Event :=
  {| ev_type := type; ev_params := ObjectUtils_copy params;
     ev_expected := expected; ev_fake := fake |}.

(** [Event.prototype.clone]. *)
Definition clone (e : Event) : Event :=
  new_Event (ev_type e) (ev_params e) (ev_expected e) (ev_fake e).

(** The argument of an expectation handler [h(event, error = null)]. *)
Inductive HandlerArg :=
  | HEvent (r : Ref)
  | HError (e : JsError).

(** An entry of [expectedEventSpecs]. The only handlers ever pushed are the
    closures of [waitExpectedEvent], one per promise; a handler is
    identified by the promise it settles. *)
Record EventSpec := {
  es_type : option string;
  es_params : option Params;
  es_added : Z;
  es_timeout : Z;
  es_handlers : list PromiseId
}.

(** A listener callback: a function identity and what a call does with the
    event it is given, return ([None]) or throw. *)
Record Callback := {
  cb_id : N;
  cb_run : Event → option JsError
}.

(** The [arguments] object of a call [addEventListener(cb, a1, a2, ...)]. *)
Record Arguments := {
  args_callback : Callback;
  args_rest : list JsVal
}.

(** An entry of [eventListeners]: [{callback, thisArg, args: arguments}]. *)
Record Listener := {
  l_callback : Callback;
  l_thisArg : JsVal;
  l_args : Arguments
}.

(** One actual argument of a listener call. *)
Inductive CallArg :=
  | AEvent (r : Ref)
  | AVal (v : JsVal)
  | AArguments (a : Arguments).

(** A record of a [/listen] response: [{type, params}], [params] possibly
    absent or null. *)
Record EventData := {
  ed_type : string;
  ed_params : option Params
}.

Inductive PromiseState :=
  | Pending
  | Fulfilled (r : Ref)
  | Rejected (e : JsError).

(** Deferred work: callbacks given to [asap], [setTimeout], [setInterval]
    and [PromiseUtils.asap().then]. *)
Inductive Task :=
  | TWait
  | TCleanup
  | TSettle (n : nat) (p : PromiseId) (a : HandlerArg)
  | TSyncOk (c : N)
  | TSyncErr (c : N) (reconnectSeconds : Z).

Record Timer := {
  t_millis : Z;
  t_repeat : bool;
  t_task : Task
}.

(** Calls that leave the module. [EHandler] carries the handle of the
    expectation the handler was attached to. *)
Inductive Effect :=
  | EHandler (h : Handle) (p : PromiseId) (a : HandlerArg)
  | EListener (cb : N) (thisArg : JsVal) (args : list CallArg)
  | ESync (c : N) (error : option JsError) (reconnectSeconds : option Z)
  | EApiCall (session_id : string) (query_timeout : Z) (timeout : Z).

Record World := {
  (* module state *)
  eventListeners : list Listener;
  expectedEventSpecs : list (Handle * EventSpec);
  expectedEventLastHandle : N;
  sessionId : option string;
  listeningTime : option Z;
  listenErrorCount : Z;
  ignoreListenErrors : bool;
  syncListenError : option JsError;
  syncListenCallbacks : list N;
  (* run time *)
  clock : Z;
  nextHash : string;
  heap : list Event;
  promises : list PromiseState;
  asapQueue : list Task;
  timers : list Timer;
  inFlight : list (option Z);
  trace : list Effect
}.

(** ** Field updates: [w.(f) := x] for each field of the world. *)

Definition set_eventListeners (x : list Listener) (w : World) : World :=
  {| eventListeners := x; expectedEventSpecs := expectedEventSpecs w;
     expectedEventLastHandle := expectedEventLastHandle w;
     sessionId := sessionId w; listeningTime := listeningTime w;
     listenErrorCount := listenErrorCount w;
     ignoreListenErrors := ignoreListenErrors w;
     syncListenError := syncListenError w;
     syncListenCallbacks := syncListenCallbacks w; clock := clock w;
     nextHash := nextHash w; heap := heap w; promises := promises w;
     asapQueue := asapQueue w; timers := timers w; inFlight := inFlight w;
     trace := trace w |}.

Definition set_expectedEventSpecs (x : list (Handle * EventSpec)) (w : World) : World :=
  {| eventListeners := eventListeners w; expectedEventSpecs := x;
     expectedEventLastHandle := expectedEventLastHandle w;
     sessionId := sessionId w; listeningTime := listeningTime w;
     listenErrorCount := listenErrorCount w;
     ignoreListenErrors := ignoreListenErrors w;
     syncListenError := syncListenError w;
     syncListenCallbacks := syncListenCallbacks w; clock := clock w;
     nextHash := nextHash w; heap := heap w; promises := promises w;
     asapQueue := asapQueue w; timers := timers w; inFlight := inFlight w;
     trace := trace w |}.

Definition set_expectedEventLastHandle (x : N) (w : World) : World :=
  {| eventListeners := eventListeners w;
     expectedEventSpecs := expectedEventSpecs w;
     expectedEventLastHandle := x; sessionId := sessionId w;
     listeningTime := listeningTime w;
     listenErrorCount := listenErrorCount w;
     ignoreListenErrors := ignoreListenErrors w;
     syncListenError := syncListenError w;
     syncListenCallbacks := syncListenCallbacks w; clock := clock w;
     nextHash := nextHash w; heap := heap w; promises := promises w;
     asapQueue := asapQueue w; timers := timers w; inFlight := inFlight w;
     trace := trace w |}.

Definition set_sessionId (x : option string) (w : World) : World :=
  {| eventListeners := eventListeners w;
     expectedEventSpecs := expectedEventSpecs w;
     expectedEventLastHandle := expectedEventLastHandle w; sessionId := x;
     listeningTime := listeningTime w;
     listenErrorCount := listenErrorCount w;
     ignoreListenErrors := ignoreListenErrors w;
     syncListenError := syncListenError w;
     syncListenCallbacks := syncListenCallbacks w; clock := clock w;
     nextHash := nextHash w; heap := heap w; promises := promises w;
     asapQueue := asapQueue w; timers := timers w; inFlight := inFlight w;
     trace := trace w |}.

Definition set_listeningTime (x : option Z) (w : World) : World :=
  {| eventListeners := eventListeners w;
     expectedEventSpecs := expectedEventSpecs w;
     expectedEventLastHandle := expectedEventLastHandle w;
     sessionId := sessionId w; listeningTime := x;
     listenErrorCount := listenErrorCount w;
     ignoreListenErrors := ignoreListenErrors w;
     syncListenError := syncListenError w;
     syncListenCallbacks := syncListenCallbacks w; clock := clock w;
     nextHash := nextHash w; heap := heap w; promises := promises w;
     asapQueue := asapQueue w; timers := timers w; inFlight := inFlight w;
     trace := trace w |}.

Definition set_listenErrorCount (x : Z) (w : World) : World :=
  {| eventListeners := eventListeners w;
     expectedEventSpecs := expectedEventSpecs w;
     expectedEventLastHandle := expectedEventLastHandle w;
     sessionId := sessionId w; listeningTime := listeningTime w;
     listenErrorCount := x; ignoreListenErrors := ignoreListenErrors w;
     syncListenError := syncListenError w;
     syncListenCallbacks := syncListenCallbacks w; clock := clock w;
     nextHash := nextHash w; heap := heap w; promises := promises w;
     asapQueue := asapQueue w; timers := timers w; inFlight := inFlight w;
     trace := trace w |}.

Definition set_ignoreListenErrors (x : bool) (w : World) : World :=
  {| eventListeners := eventListeners w;
     expectedEventSpecs := expectedEventSpecs w;
     expectedEventLastHandle := expectedEventLastHandle w;
     sessionId := sessionId w; listeningTime := listeningTime w;
     listenErrorCount := listenErrorCount w; ignoreListenErrors := x;
     syncListenError := syncListenError w;
     syncListenCallbacks := syncListenCallbacks w; clock := clock w;
     nextHash := nextHash w; heap := heap w; promises := promises w;
     asapQueue := asapQueue w; timers := timers w; inFlight := inFlight w;
     trace := trace w |}.

Definition set_syncListenError (x : option JsError) (w : World) : World :=
  {| eventListeners := eventListeners w;
     expectedEventSpecs := expectedEventSpecs w;
     expectedEventLastHandle := expectedEventLastHandle w;
     sessionId := sessionId w; listeningTime := listeningTime w;
     listenErrorCount := listenErrorCount w;
     ignoreListenErrors := ignoreListenErrors w; syncListenError := x;
     syncListenCallbacks := syncListenCallbacks w; clock := clock w;
     nextHash := nextHash w; heap := heap w; promises := promises w;
     asapQueue := asapQueue w; timers := timers w; inFlight := inFlight w;
     trace := trace w |}.

Definition set_syncListenCallbacks (x : list N) (w : World) : World :=
  {| eventListeners := eventListeners w;
     expectedEventSpecs := expectedEventSpecs w;
     expectedEventLastHandle := expectedEventLastHandle w;
     sessionId := sessionId w; listeningTime := listeningTime w;
     listenErrorCount := listenErrorCount w;
     ignoreListenErrors := ignoreListenErrors w;
     syncListenError := syncListenError w; syncListenCallbacks := x;
     clock := clock w; nextHash := nextHash w; heap := heap w;
     promises := promises w; asapQueue := asapQueue w; timers := timers w;
     inFlight := inFlight w; trace := trace w |}.

Definition set_clock (x : Z) (w : World) : World :=
  {| eventListeners := eventListeners w;
     expectedEventSpecs := expectedEventSpecs w;
     expectedEventLastHandle := expectedEventLastHandle w;
     sessionId := sessionId w; listeningTime := listeningTime w;
     listenErrorCount := listenErrorCount w;
     ignoreListenErrors := ignoreListenErrors w;
     syncListenError := syncListenError w;
     syncListenCallbacks := syncListenCallbacks w; clock := x;
     nextHash := nextHash w; heap := heap w; promises := promises w;
     asapQueue := asapQueue w; timers := timers w; inFlight := inFlight w;
     trace := trace w |}.

Definition set_heap (x : list Event) (w : World) : World :=
  {| eventListeners := eventListeners w;
     expectedEventSpecs := expectedEventSpecs w;
     expectedEventLastHandle := expectedEventLastHandle w;
     sessionId := sessionId w; listeningTime := listeningTime w;
     listenErrorCount := listenErrorCount w;
     ignoreListenErrors := ignoreListenErrors w;
     syncListenError := syncListenError w;
     syncListenCallbacks := syncListenCallbacks w; clock := clock w;
     nextHash := nextHash w; heap := x; promises := promises w;
     asapQueue := asapQueue w; timers := timers w; inFlight := inFlight w;
     trace := trace w |}.

Definition set_promises (x : list PromiseState) (w : World) : World :=
  {| eventListeners := eventListeners w;
     expectedEventSpecs := expectedEventSpecs w;
     expectedEventLastHandle := expectedEventLastHandle w;
     sessionId := sessionId w; listeningTime := listeningTime w;
     listenErrorCount := listenErrorCount w;
     ignoreListenErrors := ignoreListenErrors w;
     syncListenError := syncListenError w;
     syncListenCallbacks := syncListenCallbacks w; clock := clock w;
     nextHash := nextHash w; heap := heap w; promises := x;
     asapQueue := asapQueue w; timers := timers w; inFlight := inFlight w;
     trace := trace w |}.

Definition set_asapQueue (x : list Task) (w : World) : World :=
  {| eventListeners := eventListeners w;
     expectedEventSpecs := expectedEventSpecs w;
     expectedEventLastHandle := expectedEventLastHandle w;
     sessionId := sessionId w; listeningTime := listeningTime w;
     listenErrorCount := listenErrorCount w;
     ignoreListenErrors := ignoreListenErrors w;
     syncListenError := syncListenError w;
     syncListenCallbacks := syncListenCallbacks w; clock := clock w;
     nextHash := nextHash w; heap := heap w; promises := promises w;
     asapQueue := x; timers := timers w; inFlight := inFlight w;
     trace := trace w |}.

Definition set_timers (x : list Timer) (w : World) : World :=
  {| eventListeners := eventListeners w;
     expectedEventSpecs := expectedEventSpecs w;
     expectedEventLastHandle := expectedEventLastHandle w;
     sessionId := sessionId w; listeningTime := listeningTime w;
     listenErrorCount := listenErrorCount w;
     ignoreListenErrors := ignoreListenErrors w;
     syncListenError := syncListenError w;
     syncListenCallbacks := syncListenCallbacks w; clock := clock w;
     nextHash := nextHash w; heap := heap w; promises := promises w;
     asapQueue := asapQueue w; timers := x; inFlight := inFlight w;
     trace := trace w |}.

Definition set_inFlight (x : list (option Z)) (w : World) : World :=
  {| eventListeners := eventListeners w;
     expectedEventSpecs := expectedEventSpecs w;
     expectedEventLastHandle := expectedEventLastHandle w;
     sessionId := sessionId w; listeningTime := listeningTime w;
     listenErrorCount := listenErrorCount w;
     ignoreListenErrors := ignoreListenErrors w;
     syncListenError := syncListenError w;
     syncListenCallbacks := syncListenCallbacks w; clock := clock w;
     nextHash := nextHash w; heap := heap w; promises := promises w;
     asapQueue := asapQueue w; timers := timers w; inFlight := x;
     trace := trace w |}.

Definition set_trace (x : list Effect) (w : World) : World :=
  {| eventListeners := eventListeners w;
     expectedEventSpecs := expectedEventSpecs w;
     expectedEventLastHandle := expectedEventLastHandle w;
     sessionId := sessionId w; listeningTime := listeningTime w;
     listenErrorCount := listenErrorCount w;
     ignoreListenErrors := ignoreListenErrors w;
     syncListenError := syncListenError w;
     syncListenCallbacks := syncListenCallbacks w; clock := clock w;
     nextHash := nextHash w; heap := heap w; promises := promises w;
     asapQueue := asapQueue w; timers := timers w; inFlight := inFlight w;
     trace := x |}.

(** ** The monad of module code: state and exceptions *)

Inductive Res (A : Type) :=
  | Ok (a : A)
  | Throw (e : JsError).
Arguments Ok {A} a.
Arguments Throw {A} e.

Definition M (A : Type) : Type := World → Res A * World.

#[global] Instance M_ret : MRet M := λ A a w, (Ok a, w).

#[global] Instance M_bind : MBind M := λ A B f m w,
  match m w with
  | (Ok a, w') => f a w'
  | (Throw e, w') => (Throw e, w')
  end.

Definition gets {A} (f : World → A) : M A := λ w, (Ok (f w), w).
Definition modify (f : World → World) : M unit := λ w, (Ok tt, f w).
Definition throw {A} (e : JsError) : M A := λ w, (Throw e, w).
Definition lift {A} (r : Res A) : M A := λ w, (r, w).

(** [try { body } catch (error) { handler(error) }]. *)
Definition try_catch (body : M unit) (handler : JsError → M unit) : M unit :=
  λ w, match body w with
       | (Ok a, w') => (Ok a, w')
       | (Throw e, w') => handler e w'
       end.

(** [array.forEach(f)]: in index order, abandoned when a call throws. *)
Fixpoint forEach {A} (f : A → M unit) (l : list A) : M unit :=
  match l with
  | [] => mret tt
  | x :: l' => f x ;; forEach f l'
  end.

(** ** The run time *)

Definition emit (e : Effect) : M unit :=
  modify (λ w, set_trace (trace w ++ [e]) w).

(** Modelled from the spec: [asap] of the external [$qui] library, not part
    of the sources. It defers its callback until the code that is running
    has finished ("promise is settled after other event handling");
    deferred callbacks run in the order they were queued. *)
Definition asap (t : Task) : M unit :=
  modify (λ w, set_asapQueue (asapQueue w ++ [t]) w).

(** [PromiseUtils.asap().then(c)]: [c] runs once the [asap] promise has been
    resolved, so it is deferred the same way. *)
Definition PromiseUtils_asap_then (t : Task) : M unit := asap t.

Definition setTimeout (t : Task) (millis : Z) : M unit :=
  modify (λ w, set_timers
    (timers w ++ [{| t_millis := millis; t_repeat := false; t_task := t |}]) w).

Definition setInterval (t : Task) (millis : Z) : M unit :=
  modify (λ w, set_timers
    (timers w ++ [{| t_millis := millis; t_repeat := true; t_task := t |}]) w).

(** [new Date().getTime()]. *)
Definition getTime : M Z := gets clock.

(** Allocation of an [Event] object; the result is its address. *)
Definition alloc_event (e : Event) : M Ref :=
  λ w, (Ok (length (heap w)), set_heap (heap w ++ [e]) w).

Definition read_event (r : Ref) : M Event :=
  λ w, match heap w !! r with
       | Some e => (Ok e, w)
       | None => (Throw (TypeError "not an object"), w)
       end.

Definition update_event (r : Ref) (f : Event → Event) : M unit :=
  modify (λ w, set_heap (alter f r (heap w)) w).

Definition set_expected (b : bool) (e : Event) : Event :=
  {| ev_type := ev_type e; ev_params := ev_params e;
     ev_expected := b; ev_fake := ev_fake e |}.

Definition set_fake (b : bool) (e : Event) : Event :=
  {| ev_type := ev_type e; ev_params := ev_params e;
     ev_expected := ev_expected e; ev_fake := b |}.

(** [new Promise(...)] left pending, or [Promise.reject(e)]. *)
Definition new_promise (st : PromiseState) : M PromiseId :=
  λ w, (Ok (length (promises w)), set_promises (promises w ++ [st]) w).

(** The innermost callback of a handler:
    [if (error) reject(error) else resolve(event)]. Settling a promise that
    is already settled does nothing. *)
Definition settle (p : PromiseId) (a : HandlerArg) : M unit :=
  modify (λ w,
    match promises w !! p with
    | Some Pending =>
        set_promises (<[p := match a with
                             | HEvent r => Fulfilled r
                             | HError e => Rejected e
                             end]> (promises w)) w
    | _ => w
    end).

(** ** JavaScript objects with integer keys

    [expectedEventSpecs] is an object whose keys are the handles. Own
    properties with integer keys are enumerated in ascending numeric order;
    the association list is kept in that order. *)

Fixpoint obj_get {V} (k : Handle) (o : list (Handle * V)) : option V :=
  match o with
  | [] => None
  | (k', v) :: o' => if (k' =? k)%N then Some v else obj_get k o'
  end.

(** [o[k] = v]. *)
Fixpoint obj_set {V} (k : Handle) (v : V) (o : list (Handle * V))
    : list (Handle * V) :=
  match o with
  | [] => [(k, v)]
  | (k', v') :: o' =>
      if (k <? k')%N then (k, v) :: (k', v') :: o'
      else if (k =? k')%N then (k, v) :: o'
      else (k', v') :: obj_set k v o'
  end.

(** [delete o[k]]. *)
Fixpoint obj_delete {V} (k : Handle) (o : list (Handle * V))
    : list (Handle * V) :=
  match o with
  | [] => []
  | (k', v) :: o' =>
      if (k' =? k)%N then obj_delete k o' else (k', v) :: obj_delete k o'
  end.

(** Modelled from the spec: [ObjectUtils.findKey] of the external [$qui]
    library. "Iterate registry entries ... First matching entry in registry
    iteration order wins": the key of the first property whose value
    satisfies [func], nothing when there is none. An exception of [func]
    ends the search. *)
Fixpoint ObjectUtils_findKey {V} (func : V → Res bool)
    (o : list (Handle * V)) : Res (option Handle) :=
  match o with
  | [] => Ok None
  | (k, v) :: o' =>
      match func v with
      | Throw e => Throw e
      | Ok true => Ok (Some k)
      | Ok false => ObjectUtils_findKey func o'
      end
  end.

(** Modelled from the spec: [ObjectUtils.filter] of the external [$qui]
    library: a new object with the properties for which [func(key, value)]
    is truthy. Here on an object enumerated as a list of properties. *)
Fixpoint filter_props {K V} (func : K → V → Res bool) (o : list (K * V))
    : Res (list (K * V)) :=
  match o with
  | [] => Ok []
  | (k, v) :: o' =>
      match func k v with
      | Throw e => Throw e
      | Ok b =>
          match filter_props func o' with
          | Throw e => Throw e
          | Ok r => Ok (if b then (k, v) :: r else r)
          end
      end
  end.

Definition ObjectUtils_filter (func : string → JsVal → Res bool)
    (o : Params) : Res Params :=
  match filter_props func (map_to_list o) with
  | Ok r => Ok (list_to_map r)
  | Throw e => Throw e
  end.

(** [ObjectUtils.filter] on [expectedEventSpecs], with a predicate that does
    not throw. *)
Definition ObjectUtils_filter_specs (func : Handle → EventSpec → bool)
    (o : list (Handle * EventSpec)) : list (Handle * EventSpec) :=
  List.filter (λ kv, func kv.1 kv.2) o.

(** ** [notifications.js] *)

(** Truthiness of a value that is a string, [null] or [undefined]. *)
Definition truthy_string (s : option string) : bool :=
  match s with
  | Some s => negb (bool_decide (s = ""))
  | None => false
  end.

(** Truthiness of a value that is a number or [null]. *)
Definition truthy_number (n : option Z) : bool :=
  match n with
  | Some n => negb (bool_decide (n = 0))
  | None => false
  end.

(** [params[key]] where [params] may be [null]. *)
Definition js_index (params : option Params) (key : string) : Res JsVal :=
  match params with
  | Some p => Ok (js_get p key)
  | None => Throw (TypeError "Cannot read properties of null")
  end.

(** [expectEvent(type, params, timeout = null)]. *)
Definition expectEvent (type : option string) (params : option Params)
    (timeout : option Z) : M Handle :=
  let timeout := default DEFAULT_EXPECT_TIMEOUT timeout in
  modify (λ w, set_expectedEventLastHandle
                 (expectedEventLastHandle w + 1)%N w) ;;
  handle ← gets expectedEventLastHandle;
  added ← getTime;
  modify (λ w, set_expectedEventSpecs
    (obj_set handle
       {| es_type := type; es_params := params; es_added := added;
          es_timeout := timeout; es_handlers := [] |}
       (expectedEventSpecs w)) w) ;;
  mret handle.

(** A call [h(event, error)] of a handler attached by [waitExpectedEvent]:
    the handler only defers the settling of its promise, twice. *)
Definition call_handler (handle : Handle) (a : HandlerArg) (p : PromiseId)
    : M unit :=
  emit (EHandler handle p a) ;;
  asap (TSettle 1 p a).

Definition ERR_UNEXPECTED : JsError := Error "Event no longer expected".
Definition ERR_TIMEOUT : JsError := Error "Timeout waiting for expected event".
Definition ERR_NO_SUCH : JsError := Error "No such expected event".

(** [unexpectEvent(handle)]. *)
Definition unexpectEvent (handle : Handle) : M unit :=
  eventSpec ← gets (λ w, obj_get handle (expectedEventSpecs w));
  match eventSpec with
  | Some eventSpec =>
      forEach (call_handler handle (HError ERR_UNEXPECTED))
              (es_handlers eventSpec)
  | None => mret tt
  end ;;
  modify (λ w, set_expectedEventSpecs
                 (obj_delete handle (expectedEventSpecs w)) w).

(** The callback that [lookupExpectedEventHandle] gives to [findKey]. *)
Definition spec_matches (type : string) (params : option Params)
    (eventSpec : EventSpec) : Res bool :=
  if truthy_string (es_type eventSpec)
     && negb (bool_decide (es_type eventSpec = Some type))
  then Ok false
  else
    match es_params eventSpec with
    | Some sparams =>
        match ObjectUtils_filter
                (λ key value,
                   match js_index params key with
                   | Ok v => Ok (strict_neq v value)
                   | Throw e => Throw e
                   end) sparams with
        | Throw e => Throw e
        | Ok mismatched =>
            if negb (bool_decide (size mismatched = 0%nat))
            then Ok false else Ok true
        end
    | None => Ok true
    end.

(** [lookupExpectedEventHandle({type, params})]. *)
Definition lookupExpectedEventHandle (type : string) (params : option Params)
    : M (option Handle) :=
  specs ← gets expectedEventSpecs;
  lift (ObjectUtils_findKey (spec_matches type params) specs).

Definition add_handler (p : PromiseId) (s : EventSpec) : EventSpec :=
  {| es_type := es_type s; es_params := es_params s;
     es_added := es_added s; es_timeout := es_timeout s;
     es_handlers := es_handlers s ++ [p] |}.

(** [waitExpectedEvent(type, params = null)]; the result is the promise. *)
Definition waitExpectedEvent (type : string) (params : option Params)
    : M PromiseId :=
  handle ← lookupExpectedEventHandle type params;
  match handle with
  | None => new_promise (Rejected ERR_NO_SUCH)
  | Some handle =>
      p ← new_promise Pending;
      eventSpec ← gets (λ w, obj_get handle (expectedEventSpecs w));
      match eventSpec with
      | Some eventSpec =>
          modify (λ w, set_expectedEventSpecs
            (obj_set handle (add_handler p eventSpec)
                     (expectedEventSpecs w)) w) ;;
          mret p
      | None => throw (TypeError "Cannot read properties of undefined")
      end
  end.

(** [tryMatchExpectedEvent(event)]. *)
Definition tryMatchExpectedEvent (event : Ref) : M (option Handle) :=
  e ← read_event event;
  handle ← lookupExpectedEventHandle (ev_type e) (Some (ev_params e));
  match handle with
  | Some handle =>
      eventSpec ← gets (λ w, obj_get handle (expectedEventSpecs w));
      match eventSpec with
      | Some eventSpec =>
          forEach (call_handler handle (HEvent event))
                  (es_handlers eventSpec) ;;
          modify (λ w, set_expectedEventSpecs
                         (obj_delete handle (expectedEventSpecs w)) w) ;;
          mret (Some handle)
      | None => throw (TypeError "Cannot read properties of undefined")
      end
  | None => mret None
  end.

(** The predicate of the filter in [cleanupExpectedEvents]: keep the
    entry? *)
Definition not_expired (now : Z) (handle : Handle) (eventSpec : EventSpec)
    : bool :=
  let delta := now - es_added eventSpec in
  if bool_decide (delta > es_timeout eventSpec) then false else true.

(** [cleanupExpectedEvents()]. *)
Definition cleanupExpectedEvents : M unit :=
  now ← getTime;
  specs ← gets expectedEventSpecs;
  let expiredEventSpecs :=
    ObjectUtils_filter_specs (λ h s, negb (not_expired now h s)) specs in
  modify (set_expectedEventSpecs
            (ObjectUtils_filter_specs (not_expired now) specs)) ;;
  forEach (λ hs : Handle * EventSpec,
             forEach (call_handler hs.1 (HError ERR_TIMEOUT))
                     (es_handlers hs.2))
          expiredEventSpecs.

(** The call [listener.callback.apply(listener.thisArg,
    [event.clone()].concat(listener.args || []))]. [listener.args] is an
    [arguments] object, which [concat] appends as one element. *)
Definition call_listener (event : Ref) (listener : Listener) : M unit :=
  e ← read_event event;
  c ← alloc_event (clone e);
  emit (EListener (cb_id (l_callback listener)) (l_thisArg listener)
                  ([AEvent c] ++ [AArguments (l_args listener)])) ;;
  match cb_run (l_callback listener) (clone e) with
  | Some err => throw err
  | None => mret tt
  end.

(** [callEventListeners(event)]. *)
Definition callEventListeners (event : Ref) : M unit :=
  listeners ← gets eventListeners;
  forEach (call_listener event) listeners.

(** [handleServerEvent(eventData)]. *)
Definition handleServerEvent (eventData : EventData) : M unit :=
  event ← alloc_event
    (new_Event (ed_type eventData) (default ∅ (ed_params eventData))
               false false);
  handle ← tryMatchExpectedEvent event;
  match handle with
  | Some _ => update_event event (set_expected true)
  | None => mret tt
  end ;;
  callEventListeners event.

(** [fakeServerEvent(type, params)]. *)
Definition fakeServerEvent (type : string) (params : Params) : M unit :=
  event ← alloc_event (new_Event type params false false);
  handle ← tryMatchExpectedEvent event;
  match handle with
  | Some _ => update_event event (set_expected true)
  | None => mret tt
  end ;;
  update_event event (set_fake true) ;;
  callEventListeners event.

(** [addEventListener(eventCallback, thisArg)], called with the arguments
    [eventCallback :: rest]. *)
Definition addEventListener (eventCallback : Callback) (rest : list JsVal)
    : M unit :=
  modify (λ w, set_eventListeners
    (eventListeners w ++
       [{| l_callback := eventCallback;
           l_thisArg := default VUndef (head rest);
           l_args := {| args_callback := eventCallback;
                        args_rest := rest |} |}]) w).

(** [array.findIndex] followed by [splice(index, 1)] when found. *)
Fixpoint remove_first (cb : N) (l : list Listener) : list Listener :=
  match l with
  | [] => []
  | x :: l' =>
      if (cb_id (l_callback x) =? cb)%N then l' else x :: remove_first cb l'
  end.

(** [removeEventListener(eventCallback)]. *)
Definition removeEventListener (eventCallback : Callback) : M unit :=
  modify (λ w, set_eventListeners
    (remove_first (cb_id eventCallback) (eventListeners w)) w).

(** [stopListening()]. *)
Definition stopListening : M unit := modify (set_listeningTime None).

(** [isListening()]. *)
Definition isListening : M bool :=
  gets (λ w, truthy_number (listeningTime w)).

(** [addSyncListenCallback(listenCallback)]. *)
Definition addSyncListenCallback (listenCallback : N) : M unit :=
  modify (λ w, set_syncListenCallbacks
                 (syncListenCallbacks w ++ [listenCallback]) w).

(** [setIgnoreListenErrors(ignore)]. *)
Definition setIgnoreListenErrors (ignore : bool) : M unit :=
  modify (set_ignoreListenErrors ignore).

(** [init()]. *)
Definition init : M unit := setInterval TCleanup 1000.

(** *** The poll loop *)

(** [s.substring(n)]. *)
Fixpoint substring_from (n : nat) (s : string) : string :=
  match n, s with
  | O, _ => s
  | S n', String _ s' => substring_from n' s'
  | S _, EmptyString => EmptyString
  end.

Section PollLoop.

Variable K : APIConstants.

(** [wait(firstQuick = false)], up to the [/listen] call. [nextHash] is
    the digest [new Crypto.SHA256(toHash).toString()] of the random seed.
    The request is recorded in flight together with the
    [requestListeningTime] its two continuations have captured. *)
Definition wait (firstQuick : bool) : M unit :=
  sid ← gets sessionId;
  (if truthy_string sid then mret tt
   else
     digest ← gets nextHash;
     let hash := substring_from (40 - 8) digest in
     modify (set_sessionId (Some ("qtoggleserverui-" +:+ hash)))) ;;
  requestListeningTime ← gets listeningTime;
  syncError ← gets syncListenError;
  let timeout :=
    if bool_decide (is_Some syncError) || firstQuick
    then 1 else LISTEN_KEEPALIVE in
  sid ← gets sessionId;
  emit (EApiCall (default "" sid) timeout
                 (timeout + DEFAULT_SERVER_TIMEOUT K)) ;;
  modify (λ w, set_inFlight (inFlight w ++ [requestListeningTime]) w).

(** The continuation [.then(function (result) {...})] of the request
    issued when [listeningTime] was [requestListeningTime]. *)
Definition wait_then (requestListeningTime : option Z)
    (result : option (list EventData)) : M unit :=
  current ← gets listeningTime;
  if negb (bool_decide (current = requestListeningTime)) then mret tt
  else
    asap TWait ;;
    modify (set_syncListenError None) ;;
    modify (set_listenErrorCount 0) ;;
    try_catch
      (callbacks ← gets syncListenCallbacks;
       forEach (λ c, PromiseUtils_asap_then (TSyncOk c)) callbacks ;;
       match result with
       | Some (e :: es) => forEach handleServerEvent (e :: es)
       | _ => mret tt
       end)
      (λ error, mret tt).

(** The continuation [.catch(function (error) {...})]. *)
Definition wait_catch (requestListeningTime : option Z) (error : JsError)
    : M unit :=
  let reconnectSeconds := SERVER_RETRY_INTERVAL K in
  current ← gets listeningTime;
  if negb (bool_decide (current = requestListeningTime)) then mret tt
  else
    ignore ← gets ignoreListenErrors;
    reconnectSeconds ←
      (if (ignore : bool) then mret reconnectSeconds
       else
         modify (set_syncListenError (Some error)) ;;
         modify (λ w, set_listenErrorCount (listenErrorCount w + 1) w) ;;
         count ← gets listenErrorCount;
         let reconnectSeconds :=
           if bool_decide (count ≤ FAST_RECONNECT_LISTEN_ERRORS)
           then 1 else reconnectSeconds in
         callbacks ← gets syncListenCallbacks;
         forEach (λ c, PromiseUtils_asap_then (TSyncErr c reconnectSeconds))
                 callbacks ;;
         mret reconnectSeconds);
    setTimeout TWait (reconnectSeconds * 1000).

(** The promise chain [apiCall(...).then(...).catch(...)] when the request
    settles: a rejection, or an exception of the [then] continuation,
    reaches the [catch] continuation. *)
Definition listen_settled (requestListeningTime : option Z)
    (outcome : Res (option (list EventData))) : M unit :=
  match outcome with
  | Ok result =>
      try_catch (wait_then requestListeningTime result)
                (wait_catch requestListeningTime)
  | Throw error => wait_catch requestListeningTime error
  end.

(** [startListening()]. *)
Definition startListening : M unit :=
  current ← gets listeningTime;
  if truthy_number current
  then throw (AssertionError "Listening mechanism already active")
  else
    now ← getTime;
    modify (set_listeningTime (Some now)) ;;
    wait true.

(** A deferred callback runs. *)
Definition run_task (t : Task) : M unit :=
  match t with
  | TWait => wait false
  | TCleanup => cleanupExpectedEvents
  | TSettle (S n) p a => asap (TSettle n p a)
  | TSettle O p a => settle p a
  | TSyncOk c => emit (ESync c None None)
  | TSyncErr c reconnectSeconds =>
      error ← gets syncListenError;
      emit (ESync c error (Some reconnectSeconds))
  end.

(** The oldest [asap] callback runs, if there is one. *)
Definition run_next : M unit :=
  queue ← gets asapQueue;
  match queue with
  | [] => mret tt
  | t :: queue' => modify (set_asapQueue queue') ;; run_task t
  end.

(** [n] turns of the queue. *)
Fixpoint run_queue (n : nat) : M unit :=
  match n with
  | O => mret tt
  | S n' => run_next ;; run_queue n'
  end.

End PollLoop.

(** ** The application: [index.js] *)

Section Application.

Variable K : APIConstants.

(** The function that [main] connects to [Window.visibilityChangeSignal];
    [debug] is [Config.debug]. The call [Cache.setReloadNeeded()] concerns
    the cache module only and is left out, as the [logger] calls are. *)
Definition onVisibilityChange (debug : bool) (visible : bool) : M unit :=
  if negb visible then mret tt
  else
    listening ← isListening;
    if negb listening then mret tt
    else if debug then mret tt
    else
      stopListening ;;
      startListening K.

End Application.

(** ** The bar chart widget: [widgets/bar-chart.js] *)

(** A value given to a chart: an array, or anything else. *)
Unset Elimination Schemes.
Inductive ChartValue :=
  | CVal (v : JsVal)
  | CArr (items : list ChartValue).
Set Elimination Schemes.

(** [{x: j, y: v}]. *)
Record ChartPoint := {
  pt_x : nat;
  pt_y : ChartValue
}.

(** A dataset as [_adaptDatasets] builds it. A colour that is [undefined]
    is [None]. *)
Record ChartDataset := {
  hoverBackgroundColor : string;
  backgroundColor : option string;
  borderColor : option string;
  borderWidth : Z;
  ds_data : list ChartPoint
}.

Section BarChart.

(** [Colors.alpha(color, opacity)] of the external [$qui] library, with the
    opacity in hundredths. *)
Variable Colors_alpha : option string → Z → string.

(** [dataset.map((v, j) => ({x: j, y: v}))]; a [dataset] that is no array
    has no [map] method. *)
Definition dataset_points (dataset : ChartValue) : Res (list ChartPoint) :=
  match dataset with
  | CArr items => Ok (imap (λ j v, {| pt_x := j; pt_y := v |}) items)
  | CVal (VUndef | VNull) =>
      Throw (TypeError "Cannot read properties of null")
  | CVal _ => Throw (TypeError "dataset.map is not a function")
  end.

(** The callback of [data.map] in [_adaptDatasets], for the dataset at
    index [i]. Without colours, [i % colors.length] is [NaN] and the colour
    is [undefined]. *)
Definition adapt_dataset (colors : list string) (i : nat)
    (dataset : ChartValue) : Res ChartDataset :=
  let color := colors !! (i mod length colors)%nat in
  match dataset_points dataset with
  | Ok points =>
      Ok {| hoverBackgroundColor := Colors_alpha color 75;
            backgroundColor := color; borderColor := color;
            borderWidth := 0; ds_data := points |}
  | Throw e => Throw e
  end.

(** [data.map(callback)] from index [i] on; an exception of the callback
    ends it. *)
Fixpoint map_datasets (colors : list string) (i : nat)
    (data : list ChartValue) : Res (list ChartDataset) :=
  match data with
  | [] => Ok []
  | dataset :: data' =>
      match adapt_dataset colors i dataset with
      | Throw e => Throw e
      | Ok d =>
          match map_datasets colors (S i) data' with
          | Throw e => Throw e
          | Ok ds => Ok (d :: ds)
          end
      end
  end.

(** [_adaptDatasets(data, environment, colors)]; [environment] is not
    used. *)
Definition _adaptDatasets (data : ChartValue) (colors : list string)
    : Res (list ChartDataset) :=
  match data with
  | CVal _ => Ok []
  | CArr [] => Ok []
  | CArr (first :: rest) =>
      let data :=
        match first with
        | CArr _ => first :: rest
        | CVal _ => [CArr (first :: rest)]
        end in
      match data with
      | CArr [] :: _ => Ok []
      | _ => map_datasets colors 0 data
      end
  end.

End BarChart.

(** ** Initial state and small scenarios *)

Definition initial (now : Z) (digest : string) : World :=
  {| eventListeners := []; expectedEventSpecs := [];
     expectedEventLastHandle := 0%N; sessionId := None;
     listeningTime := None; listenErrorCount := 0;
     ignoreListenErrors := false; syncListenError := None;
     syncListenCallbacks := []; clock := now; nextHash := digest;
     heap := []; promises := []; asapQueue := []; timers := [];
     inFlight := []; trace := [] |}.

Definition w0 : World := initial 1000 "".

(** Values for the constants of [./constants.js], for the scenarios. *)
Definition K0 : APIConstants :=
  {| SERVER_RETRY_INTERVAL := 5; DEFAULT_SERVER_TIMEOUT := 15 |}.

(** The world left by a computation, and what it added to the trace. *)
Definition exec {A} (m : M A) (w : World) : World := (m w).2.
Definition result {A} (m : M A) (w : World) : Res A := (m w).1.
Definition new_effects {A} (m : M A) (w : World) : list Effect :=
  drop (length (trace w)) (trace (exec m w)).

Definition p1 : Params := {[ "id" := VStr "p1" ]}.
Definition p1v : Params := {[ "id" := VStr "p1"; "value" := VNum 42 ]}.

(** * Vocabulary of the properties

    The predicates of the specification and the explicit worlds that the
    lemmas below compare the computations with. *)

(** ** Matching and the registry *)

(** The matching rule in the words of the specification: the entry's type,
    when set, is the candidate's type, and every key of the entry's params,
    when set, has the identical value in the candidate's params. *)
Definition Matches (type : string) (params : Params) (s : EventSpec) : Prop :=
  (truthy_string (es_type s) = true → es_type s = Some type) ∧
  (∀ sparams, es_params s = Some sparams →
     ∀ key value, sparams !! key = Some value → js_get params key = value).

(** The decision of [spec_matches] on candidate params that are an
    object. *)
Definition matchesb (type : string) (params : Params) (s : EventSpec) : bool :=
  match spec_matches type (Some params) s with
  | Ok b => b
  | Throw _ => false
  end.

(** The keys of an object are distinct and enumerated in ascending order. *)
Definition obj_wf {V} (o : list (Handle * V)) : Prop :=
  StronglySorted N.lt (o.*1).

(** The entry that a look-up with candidate [(type, params)] selects: the
    first in iteration order that matches. *)
Definition first_match (type : string) (params : Params)
    (o : list (Handle * EventSpec)) (h : Handle) (s : EventSpec)
    (before after : list (Handle * EventSpec)) : Prop :=
  o = before ++ (h, s) :: after ∧
  Matches type params s ∧
  Forall (λ kv, ¬ Matches type params kv.2) before.

(** ** Resolution and dispatch *)

(** The world after the handlers [ps] of the expectation [h] have been
    called with [a]: the calls are in the trace, and each handler has
    deferred the settling of its promise. *)
Definition after_handlers (h : Handle) (a : HandlerArg) (ps : list PromiseId)
    (w : World) : World :=
  set_asapQueue (asapQueue w ++ map (λ p, TSettle 1 p a) ps)
    (set_trace (trace w ++ map (λ p, EHandler h p a) ps) w).

(** The calls of the handlers [ps] of the expectation [h]. *)
Definition handler_calls (h : Handle) (a : HandlerArg) (ps : list PromiseId)
    : list Effect :=
  map (λ p, EHandler h p a) ps.

Definition is_handler_call (x : Effect) : Prop :=
  match x with
  | EHandler _ _ _ => True
  | _ => False
  end.

(** The listeners that a dispatch of [e] reaches: those up to and including
    the first whose callback throws, together with what that one threw. *)
Fixpoint reached (e : Event) (ls : list Listener)
    : list Listener * option JsError :=
  match ls with
  | [] => ([], None)
  | l :: ls' =>
      match cb_run (l_callback l) (clone e) with
      | Some err => ([l], Some err)
      | None => (l :: (reached e ls').1, (reached e ls').2)
      end
  end.

(** The call of [l] with the clone at [c]. *)
Definition listener_call (l : Listener) (c : Ref) : Effect :=
  EListener (cb_id (l_callback l)) (l_thisArg l)
            [AEvent c; AArguments (l_args l)].

(** The calls of the listeners [ls], the [i]-th with the clone at
    [base + i]. *)
Definition listener_calls (base : nat) (ls : list Listener) : list Effect :=
  imap (λ i l, listener_call l (base + i)%nat) ls.

Definition is_listener_call (x : Effect) : Prop :=
  match x with
  | EListener _ _ _ => True
  | _ => False
  end.

(** The world after the listeners [ls] have each been called with a clone of
    [e] of their own. *)
Definition after_listeners (e : Event) (ls : list Listener) (w : World)
    : World :=
  set_trace
    (trace w ++ imap (λ i l, listener_call l (length (heap w) + i)%nat) ls)
    (set_heap (heap w ++ replicate (length ls) (clone e)) w).

Definition outcome (x : option JsError) : Res unit :=
  match x with
  | Some err => Throw err
  | None => Ok tt
  end.

(** The common shape of [handleServerEvent] and [fakeServerEvent]. *)
Definition dispatch (fake : bool) (type : string) (params : Params) : M unit :=
  event ← alloc_event (new_Event type params false false);
  handle ← tryMatchExpectedEvent event;
  match handle with
  | Some _ => update_event event (set_expected true)
  | None => mret tt
  end ;;
  (if fake then update_event event (set_fake true) else mret tt) ;;
  callEventListeners event.

(** The world after a dispatch that resolved the expectation [h] with
    handlers [ps], leaving the registry [specs]. *)
Definition after_match (fake : bool) (type : string) (params : Params)
    (h : Handle) (ps : list PromiseId) (specs : list (Handle * EventSpec))
    (w : World) : World :=
  let e := new_Event type params true fake in
  after_listeners e (reached e (eventListeners w)).1
    (set_heap (heap w ++ [e])
       (set_expectedEventSpecs specs
          (after_handlers h (HEvent (length (heap w))) ps w))).

(** The world after a dispatch that matched nothing. *)
Definition after_no_match (fake : bool) (type : string) (params : Params)
    (w : World) : World :=
  let e := new_Event type params false fake in
  after_listeners e (reached e (eventListeners w)).1
    (set_heap (heap w ++ [e]) w).

(** What it means for the dispatch [m] of a candidate [(type, params)] to
    resolve the first matching expectation of [w], once. The event object
    of the dispatch is the next one allocated. *)
Definition resolves_first_match (m : M unit) (type : string)
    (params : Params) (w : World) : Prop :=
  ∃ h s before after,
    first_match type params (expectedEventSpecs w) h s before after ∧
    let event := length (heap w) in
    (* the handlers of that entry, and no others, are called with the
       event *)
    (∃ ls, new_effects m w =
             handler_calls h (HEvent event) (es_handlers s) ++ ls ∧
           Forall is_listener_call ls) ∧
    (* the event is marked *)
    (∃ e, heap (exec m w) !! event = Some e ∧ ev_type e = type ∧
          ev_params e = params ∧ ev_expected e = true) ∧
    (* that entry, and only that entry, has left the registry *)
    expectedEventSpecs (exec m w) = before ++ after ∧
    (* the same dispatch once more calls none of its handlers *)
    (∀ p a, EHandler h p a ∉ new_effects m (exec m w)).

(** The delivery of an event to a listener: a call whose first argument is
    an event object with the given type, params and flags. *)
Definition delivery (w' : World) (type : string) (params : Params)
    (expected fake : bool) (x : Effect) : Prop :=
  ∃ cb thisArg c rest e,
    x = EListener cb thisArg (AEvent c :: rest) ∧
    heap w' !! c = Some e ∧
    ev_type e = type ∧ ev_params e = params ∧
    ev_expected e = expected ∧ ev_fake e = fake.

(** What the handling of one record adds to the trace: first the calls of
    the handlers of the first expectation that matches it, if there is one,
    then the deliveries to the listeners, marked expected exactly in that
    case. *)
Definition event_segment (w : World) (ed : EventData) (seg : list Effect)
    : Prop :=
  let type := ed_type ed in
  let params := default ∅ (ed_params ed) in
  let w' := exec (handleServerEvent ed) w in
  ∃ resolution deliveries expected,
    seg = resolution ++ deliveries ∧
    ((expected = true ∧
      ∃ h s before after,
        first_match type params (expectedEventSpecs w) h s before after ∧
        resolution =
          handler_calls h (HEvent (length (heap w))) (es_handlers s)) ∨
     (expected = false ∧
      Forall (λ kv, ¬ Matches type params kv.2) (expectedEventSpecs w) ∧
      resolution = [])) ∧
    Forall (delivery w' type params expected false) deliveries.

(** What a batch adds to the trace: the segments of its records in the
    order of the batch, up to a record during whose handling a listener
    throws. *)
Fixpoint batch_trace (w : World) (batch : list EventData)
    (tr : list Effect) : Prop :=
  match batch with
  | [] => tr = []
  | ed :: batch' =>
      ∃ seg tr', tr = seg ++ tr' ∧ event_segment w ed seg ∧
        match result (handleServerEvent ed) w with
        | Ok _ => batch_trace (exec (handleServerEvent ed) w) batch' tr'
        | Throw _ => tr' = []
        end
  end.

(** ** The sweep *)

(** The age of the entry exceeds its timeout. *)
Definition Expired (now : Z) (s : EventSpec) : Prop :=
  now - es_added s > es_timeout s.

(** The world after the handlers of the entries [xs] have been called with
    the timeout failure, entry after entry. *)
Fixpoint after_expiry (xs : list (Handle * EventSpec)) (w : World) : World :=
  match xs with
  | [] => w
  | hs :: xs' =>
      after_expiry xs'
        (after_handlers hs.1 (HError ERR_TIMEOUT) (es_handlers hs.2) w)
  end.

(** The handler calls of a sweep that expires the entries [xs]. *)
Definition expiry_calls (xs : list (Handle * EventSpec)) : list Effect :=
  concat (map (λ hs, handler_calls hs.1 (HError ERR_TIMEOUT)
                                   (es_handlers hs.2)) xs).

(** The entries a sweep at time [now] expires, and those it keeps. *)
Definition expired_specs (now : Z) (o : list (Handle * EventSpec))
    : list (Handle * EventSpec) :=
  ObjectUtils_filter_specs (λ h s, negb (not_expired now h s)) o.

Definition kept_specs (now : Z) (o : list (Handle * EventSpec))
    : list (Handle * EventSpec) :=
  ObjectUtils_filter_specs (not_expired now) o.

(** ** The poll loop *)

(** The session identifier in use once [wait] has run. *)
Definition session_of (w : World) : option string :=
  if truthy_string (sessionId w) then sessionId w
  else Some ("qtoggleserverui-" +:+ substring_from (40 - 8) (nextHash w)).

(** The long-poll budget of the request [wait] issues. *)
Definition listen_timeout (firstQuick : bool) (w : World) : Z :=
  if bool_decide (is_Some (syncListenError w)) || firstQuick
  then 1 else LISTEN_KEEPALIVE.

Section PollLoopVocabulary.

Variable K : APIConstants.

(** The world after [wait]: a request in flight, stamped with the
    current [listeningTime]. *)
Definition after_wait (firstQuick : bool) (w : World) : World :=
  set_inFlight (inFlight w ++ [listeningTime w])
    (set_trace
       (trace w ++
        [EApiCall (default "" (session_of w)) (listen_timeout firstQuick w)
           (listen_timeout firstQuick w + DEFAULT_SERVER_TIMEOUT K)])
       (set_sessionId (session_of w) w)).

(** The reconnect delay, in seconds, after the failure that brings the
    count of consecutive failures to [count]. *)
Definition reconnect_seconds (count : Z) : Z :=
  if bool_decide (count ≤ FAST_RECONNECT_LISTEN_ERRORS)
  then 1 else SERVER_RETRY_INTERVAL K.

Definition retry_timer (seconds : Z) : Timer :=
  {| t_millis := seconds * 1000; t_repeat := false; t_task := TWait |}.

(** The world after a failure that is neither stale nor suppressed. *)
Definition after_failure (error : JsError) (w : World) : World :=
  let seconds := reconnect_seconds (listenErrorCount w + 1) in
  set_timers (timers w ++ [retry_timer seconds])
    (set_asapQueue
       (asapQueue w ++
        map (λ c, TSyncErr c seconds) (syncListenCallbacks w))
       (set_listenErrorCount (listenErrorCount w + 1)
          (set_syncListenError (Some error) w))).

(** A failure of the request in flight, stamped with the listening time
    that is still current, followed by the retry that the timer starts. *)
Definition failure_cycle (error : JsError) : M unit :=
  stamp ← gets listeningTime;
  wait_catch K stamp error ;;
  wait K false.

(** The timers that a run of failures adds, the first of them bringing
    the count of consecutive failures to [count + 1]. *)
Fixpoint retry_timers (count : Z) (errors : list JsError) : list Timer :=
  match errors with
  | [] => []
  | _ :: errors' =>
      retry_timer (reconnect_seconds (count + 1))
      :: retry_timers (count + 1) errors'
  end.

End PollLoopVocabulary.

(** The body of the [try] block of the success continuation. *)
Definition process_result (result : option (list EventData)) : M unit :=
  callbacks ← gets syncListenCallbacks;
  forEach (λ c, PromiseUtils_asap_then (TSyncOk c)) callbacks ;;
  match result with
  | Some (e :: es) => forEach handleServerEvent (e :: es)
  | _ => mret tt
  end.

(** The world in which a success that is not stale starts to process its
    result: the next [wait] is queued and the failure state is reset. *)
Definition after_success_reset (w : World) : World :=
  set_listenErrorCount 0
    (set_syncListenError None
       (set_asapQueue (asapQueue w ++ [TWait]) w)).

(** The world in which a success that is not stale starts on its batch:
    the sync callbacks are queued behind the next [wait]. *)
Definition batch_start (w : World) : World :=
  set_asapQueue
    (asapQueue w ++ TWait :: map TSyncOk (syncListenCallbacks w))
    (set_listenErrorCount 0 (set_syncListenError None w)).

(** ** Relations between the world before and the world after *)

(** A computation keeps a relation between the world it finds and the world
    it leaves, whatever its result. *)
Definition preserves {A} (R : World → World → Prop) (m : M A) : Prop :=
  ∀ w, R w (m w).2.

(** The state of the poll loop and of the registrations of callbacks, which
    the handling of events does not touch. *)
Definition same_poll_state (w w' : World) : Prop :=
  listeningTime w' = listeningTime w ∧
  listenErrorCount w' = listenErrorCount w ∧
  ignoreListenErrors w' = ignoreListenErrors w ∧
  syncListenError w' = syncListenError w ∧
  syncListenCallbacks w' = syncListenCallbacks w ∧
  eventListeners w' = eventListeners w ∧
  sessionId w' = sessionId w ∧
  timers w' = timers w ∧
  inFlight w' = inFlight w ∧
  promises w' = promises w ∧
  clock w' = clock w.

Definition result_ok {A} (r : Res A) : Prop :=
  match r with
  | Ok _ => True
  | Throw _ => False
  end.

(** ** Waiters, and the module in use *)

(** The promise [p] belongs to a handler of a registered expectation. *)
Definition registered_handler (w : World) (p : PromiseId) : Prop :=
  ∃ h s, (h, s) ∈ expectedEventSpecs w ∧ p ∈ es_handlers s.

(** The waiters of the registered expectations: their promises are pending,
    nothing queued settles them, and a handler belongs to one expectation
    only. *)
Definition waiters_ok (w : World) : Prop :=
  (∀ p, registered_handler w p →
        promises w !! p = Some Pending ∧
        ∀ n a, TSettle n p a ∉ asapQueue w) ∧
  (∀ h s h' s' p, (h, s) ∈ expectedEventSpecs w →
        (h', s') ∈ expectedEventSpecs w →
        p ∈ es_handlers s → p ∈ es_handlers s' → h = h').

(** The promise [p] is on its way to be fulfilled with the event object at
    [r], whose content is [e]: it is pending or already fulfilled with [r],
    whatever is queued for it carries [r], and it is no longer attached to
    a registered expectation. *)
Definition in_delivery (p : PromiseId) (r : Ref) (e : Event) (w : World)
    : Prop :=
  (promises w !! p = Some Pending ∨ promises w !! p = Some (Fulfilled r)) ∧
  (∀ n a, TSettle n p a ∈ asapQueue w → a = HEvent r) ∧
  ¬ registered_handler w p ∧
  heap w !! r = Some e.

(** The registry as the module keeps it: the keys are distinct, ascending
    and at most the last handle given out; the waiters are in order; what
    is queued settles promises that exist. *)
Definition registry_ok (w : World) : Prop :=
  obj_wf (expectedEventSpecs w) ∧
  Forall (λ kv, (kv.1 ≤ expectedEventLastHandle w)%N)
         (expectedEventSpecs w) ∧
  waiters_ok w ∧
  (∀ n p a, TSettle n p a ∈ asapQueue w → (p < length (promises w))%nat).

(** A computation keeps the registry in order. *)
Definition keeps_registry (w w' : World) : Prop :=
  registry_ok w → registry_ok w'.

(** What can happen to the module: a call of its interface by the
    application, or an event of the run time (the [/listen] request
    stamped [stamp] settles, the queue of deferred callbacks takes a turn,
    a timer fires, time passes). *)
Inductive Action :=
  | AExpectEvent (type : option string) (params : option Params)
                 (timeout : option Z)
  | AUnexpectEvent (handle : Handle)
  | AWaitExpectedEvent (type : string) (params : option Params)
  | AFakeServerEvent (type : string) (params : Params)
  | AAddEventListener (callback : Callback) (rest : list JsVal)
  | ARemoveEventListener (callback : Callback)
  | AStartListening
  | AStopListening
  | AAddSyncListenCallback (callback : N)
  | ASetIgnoreListenErrors (ignore : bool)
  | AInit
  | AListenSettled (stamp : option Z)
                   (outcome : Res (option (list EventData)))
  | ATurn
  | ASweep
  | ARetry
  | ATick (millis : Z).

Definition act (K : APIConstants) (a : Action) : M unit :=
  match a with
  | AExpectEvent type params timeout =>
      expectEvent type params timeout ;; mret tt
  | AUnexpectEvent handle => unexpectEvent handle
  | AWaitExpectedEvent type params =>
      waitExpectedEvent type params ;; mret tt
  | AFakeServerEvent type params => fakeServerEvent type params
  | AAddEventListener callback rest => addEventListener callback rest
  | ARemoveEventListener callback => removeEventListener callback
  | AStartListening => startListening K
  | AStopListening => stopListening
  | AAddSyncListenCallback callback => addSyncListenCallback callback
  | ASetIgnoreListenErrors ignore => setIgnoreListenErrors ignore
  | AInit => init
  | AListenSettled stamp outcome => listen_settled K stamp outcome
  | ATurn => run_next K
  | ASweep => cleanupExpectedEvents
  | ARetry => wait K false
  | ATick millis => modify (λ w, set_clock (clock w + millis) w)
  end.

(** The world after a sequence of actions; an action that throws leaves the
    world as it was when the exception left the module. *)
Fixpoint run (K : APIConstants) (actions : list Action) (w : World) : World :=
  match actions with
  | [] => w
  | a :: actions' => run K actions' (exec (act K a) w)
  end.

(** ** The claims that fail, and scenarios *)

(** The claim that every registered listener is reached by a dispatch of
    the event at [r], whatever the callbacks do. *)
Definition reaches_all_listeners (w : World) (r : Ref) : Prop :=
  ∀ l, l ∈ eventListeners w →
       ∃ c, listener_call l c ∈ new_effects (callEventListeners r) w.

(** The claim that, in what a batch adds to the trace, every call of a
    handler comes before every call of a listener. *)
Definition resolution_before_fanout (tr : list Effect) : Prop :=
  ∀ i j x y, tr !! i = Some x → tr !! j = Some y →
             is_handler_call x → is_listener_call y → (i < j)%nat.

Definition throwing_callback : Callback :=
  {| cb_id := 1; cb_run := λ _, Some (Error "listener failed") |}.

Definition quiet_callback : Callback :=
  {| cb_id := 2; cb_run := λ _, None |}.

(** Two listeners, the first of which throws, and one event object. *)
Definition w_listeners : World :=
  exec (addEventListener throwing_callback [] ;;
        addEventListener quiet_callback [] ;;
        alloc_event (new_Event "x" ∅ false false)) w0.

(** One expectation, [expectEvent("x", {a: 1})]. *)
Definition w_expect_x : World :=
  exec (expectEvent (Some "x") (Some {[ "a" := VNum 1 ]}) None) w0.

(** The module listening, with one listener and a waiter for an event of
    type "b". *)
Definition w_batch : World :=
  exec (startListening K0 ;;
        addEventListener quiet_callback [] ;;
        expectEvent (Some "b") None None ;;
        waitExpectedEvent "b" (Some ∅)) w0.

Definition batch_ab : list EventData :=
  [ {| ed_type := "a"; ed_params := None |};
    {| ed_type := "b"; ed_params := None |} ].

Definition event_b : EventData := {| ed_type := "b"; ed_params := None |}.

(** The expectation of [w_batch]. *)
Definition spec_b : EventSpec :=
  {| es_type := Some "b"; es_params := None; es_added := 1000;
     es_timeout := DEFAULT_EXPECT_TIMEOUT; es_handlers := [0%nat] |}.

(** ** Invariants of the module in use *)

(** A computation keeps a property of the world. *)
Definition keeps (P : World → Prop) (w w' : World) : Prop := P w → P w'.

(** At least [n] handles have been given out. *)
Definition handle_floor (n : N) (w : World) : Prop :=
  (n ≤ expectedEventLastHandle w)%N.

(** The keys of the registry are at most the last handle given out; part
    of [registry_ok]. *)
Definition handles_bounded (w : World) : Prop :=
  Forall (λ kv, (kv.1 ≤ expectedEventLastHandle w)%N) (expectedEventSpecs w).

(** The entry that [expectEvent(type, params, timeout)] registers in [w]. *)
Definition new_spec (type : option string) (params : option Params)
    (timeout : option Z) (w : World) : EventSpec :=
  {| es_type := type; es_params := params; es_added := clock w;
     es_timeout := default DEFAULT_EXPECT_TIMEOUT timeout;
     es_handlers := [] |}.

(** The callbacks of the listeners, in registration order. *)
Definition callbacks_of (ls : list Listener) : list N :=
  map (λ l, cb_id (l_callback l)) ls.



Definition is_settle (t : Task) : Prop :=
  match t with
  | TSettle _ _ _ => True
  | _ => False
  end.

(** The queue of deferred callbacks is [q0] followed by settlings only. *)
Definition queue_extends (q0 : list Task) (w : World) : Prop :=
  ∃ l, asapQueue w = q0 ++ l ∧ Forall is_settle l.

(** The state in which a handler called with [a] leaves its promise. *)
Definition settled_as (a : HandlerArg) : PromiseState :=
  match a with
  | HEvent r => Fulfilled r
  | HError e => Rejected e
  end.

(** The promise [p] is on its way to be settled with [a]: it is pending or
    already settled that way, whatever is queued for it carries [a], and it
    is no longer attached to a registered expectation. *)
Definition in_settlement (p : PromiseId) (a : HandlerArg) (w : World)
    : Prop :=
  (promises w !! p = Some Pending ∨ promises w !! p = Some (settled_as a)) ∧
  (∀ n a', TSettle n p a' ∈ asapQueue w → a' = a) ∧
  ¬ registered_handler w p.

(** The bookkeeping of failures: the count of consecutive failures is not
    negative, and an error is recorded exactly when it is positive. *)
Definition error_state_ok (w : World) : Prop :=
  0 ≤ listenErrorCount w ∧
  (syncListenError w = None ↔ listenErrorCount w = 0).

(** The dataset that the row at index [i] of a chart is drawn as. *)
Definition row_dataset (Colors_alpha : option string → Z → string)
    (colors : list string) (i : nat) (row : list ChartValue)
    : ChartDataset :=
  let color := colors !! (i mod length colors)%nat in
  {| hoverBackgroundColor := Colors_alpha color 75;
     backgroundColor := color; borderColor := color; borderWidth := 0;
     ds_data := imap (λ j v, {| pt_x := j; pt_y := v |}) row |}.

(** Further scenarios: one expectation of an event of type "b" and no
    waiter; errors of the poll loop suppressed; the world [w_batch] a
    second after it started to listen. *)
Definition w_expect_b : World :=
  exec (expectEvent (Some "b") None None) w0.

Definition w_ignoring : World := exec (setIgnoreListenErrors true) w0.

Definition w_batch_later : World := set_clock 2000 w_batch.

(** The expectation of an update of the port "p1". *)
Definition spec_p1 : EventSpec :=
  {| es_type := Some "port-update"; es_params := Some p1; es_added := 1000;
     es_timeout := 5000; es_handlers := [] |}.

(** The listeners of the scenarios. *)
Definition quiet_listener : Listener :=
  {| l_callback := quiet_callback; l_thisArg := VUndef;
     l_args := {| args_callback := quiet_callback; args_rest := [] |} |}.

Definition throwing_listener : Listener :=
  {| l_callback := throwing_callback; l_thisArg := VUndef;
     l_args := {| args_callback := throwing_callback; args_rest := [] |} |}.

(** Three listeners, the second of which throws, and one event object. *)
Definition w_listeners_mid : World :=
  exec (addEventListener quiet_callback [] ;;
        addEventListener throwing_callback [] ;;
        addEventListener quiet_callback [] ;;
        alloc_event (new_Event "x" ∅ false false)) w0.

(** One listener and three expectations, registered one after the other,
    each of which an event of type "b" without params matches. *)
Definition spec_b1 : EventSpec :=
  {| es_type := Some "b"; es_params := None; es_added := 1000;
     es_timeout := DEFAULT_EXPECT_TIMEOUT; es_handlers := [] |}.

Definition spec_any : EventSpec :=
  {| es_type := None; es_params := None; es_added := 1000;
     es_timeout := DEFAULT_EXPECT_TIMEOUT; es_handlers := [] |}.

Definition spec_b3 : EventSpec :=
  {| es_type := Some "b"; es_params := Some ∅; es_added := 1000;
     es_timeout := DEFAULT_EXPECT_TIMEOUT; es_handlers := [] |}.

Definition w_three : World :=
  exec (addEventListener quiet_callback [] ;;
        expectEvent (Some "b") None None ;;
        expectEvent None None None ;;
        expectEvent (Some "b") (Some ∅) None) w0.

(** * Properties *)

Example scenario_port_update :
  let m : M PromiseId :=
    expectEvent (Some "port-update") (Some p1) (Some 5000) ;;
    p ← waitExpectedEvent "port-update" (Some p1);
    handleServerEvent
      {| ed_type := "port-update"; ed_params := Some p1v |} ;;
    mret p in
  result m w0 = Ok 0%nat ∧ expectedEventSpecs (exec m w0) = [] ∧
  trace (exec m w0) = [EHandler 1%N 0%nat (HEvent 0%nat)] ∧
  heap (exec m w0) !! 0%nat = Some (new_Event "port-update" p1v true false).
Proof. vm_compute. done. Qed.

(** ** Matching *)

Section Matching.

Implicit Types (params sparams : Params) (s : EventSpec).

Lemma filter_props_total {K V} (g : K → V → bool) (l : list (K * V)) :
  filter_props (λ k v, Ok (g k v)) l = Ok (List.filter (λ kv, g kv.1 kv.2) l).
Proof.
  induction l as [|[k v] l IH]; simpl; [done|].
  rewrite IH. by destruct (g k v).
Qed.

Lemma size_list_to_map_0 (r : list (string * JsVal)) :
  size (list_to_map r : Params) = 0%nat ↔ r = [].
Proof.
  rewrite map_size_empty_iff. destruct r as [|[k v] r]; simpl; [done|].
  split; [|done]. intros H. by apply insert_non_empty in H.
Qed.

Lemma filter_nil_iff {A} (g : A → bool) (l : list A) :
  List.filter g l = [] ↔ ∀ x, x ∈ l → g x = false.
Proof.
  induction l as [|a l IH]; simpl.
  - split; [|done]. intros _ x Hx. by apply elem_of_nil in Hx.
  - destruct (g a) eqn:Ha.
    + split; [done|]. intros H. specialize (H a (list_elem_of_here _ _)).
      congruence.
    + rewrite IH. split.
      * intros H x Hx. apply elem_of_cons in Hx as [->|Hx]; auto.
      * intros H x Hx. apply H. by apply list_elem_of_further.
Qed.

(** The filter of the mismatched keys, with candidate params that are an
    object: it does not throw, and its result is empty exactly when every
    key of the entry's params has the identical value in the candidate's
    params. *)
Lemma mismatched_spec params sparams :
  ∃ mismatched,
    ObjectUtils_filter
      (λ key value,
         match js_index (Some params) key with
         | Ok v => Ok (strict_neq v value)
         | Throw e => Throw e
         end) sparams = Ok mismatched ∧
    (size mismatched = 0%nat ↔
     ∀ key value, sparams !! key = Some value → js_get params key = value).
Proof.
  unfold ObjectUtils_filter. simpl.
  rewrite (filter_props_total (λ k v, strict_neq (js_get params k) v)).
  eexists. split; [reflexivity|].
  rewrite size_list_to_map_0, filter_nil_iff. split.
  - intros H key value Hkv. specialize (H (key, value)). simpl in H.
    rewrite elem_of_map_to_list in H. specialize (H Hkv).
    unfold strict_neq in H.
    by apply negb_false_iff, bool_decide_eq_true in H.
  - intros H [key value] Hin. simpl. apply elem_of_map_to_list in Hin.
    unfold strict_neq. apply negb_false_iff, bool_decide_eq_true. eauto.
Qed.

(** With candidate params that are an object the callback never throws,
    and it answers [true] exactly for the entries that match. *)
Lemma spec_matches_object type params s :
  ∃ b, spec_matches type (Some params) s = Ok b ∧
       (b = true ↔ Matches type params s).
Proof.
  unfold spec_matches, Matches.
  destruct (truthy_string (es_type s)
            && negb (bool_decide (es_type s = Some type))) eqn:Hty.
  - exists false. split; [done|]. split; [done|]. intros [Ht _].
    apply andb_true_iff in Hty as [Hset Hne].
    apply negb_true_iff, bool_decide_eq_false in Hne. auto.
  - assert (Ht : truthy_string (es_type s) = true → es_type s = Some type).
    { intros Hset. rewrite Hset in Hty. simpl in Hty.
      by apply negb_false_iff, bool_decide_eq_true in Hty. }
    destruct (es_params s) as [sparams|].
    + destruct (mismatched_spec params sparams) as (m & -> & Hm).
      destruct (decide (size m = 0%nat)) as [Hsz|Hsz];
        [rewrite (bool_decide_eq_true_2 _ Hsz)
        |rewrite (bool_decide_eq_false_2 _ Hsz)]; simpl.
      * exists true. split; [done|]. split; [|done]. intros _.
        split; [done|]. intros ? [= <-]. by apply Hm.
      * exists false. split; [done|]. split; [done|]. intros [_ H].
        exfalso. apply Hsz, Hm. by apply H.
    + exists true. split; [done|]. split; [|done]. intros _.
      split; [done|]. intros ? [=].
Qed.

End Matching.

(** ** Objects with integer keys *)

Section Objects.

Context {V : Type}.

Implicit Types (o before after : list (Handle * V)) (k : Handle) (v : V).

Lemma obj_wf_nil : obj_wf (@nil (Handle * V)).
Proof. constructor. Qed.

Lemma obj_wf_cons_inv k v o :
  obj_wf ((k, v) :: o) → obj_wf o ∧ Forall (λ kv, (k < kv.1)%N) o.
Proof.
  unfold obj_wf. simpl. intros H. apply StronglySorted_inv in H as [H1 H2].
  split; [done|]. by rewrite Forall_fmap in H2.
Qed.

Lemma obj_wf_cons k v o :
  obj_wf o → Forall (λ kv, (k < kv.1)%N) o → obj_wf ((k, v) :: o).
Proof.
  unfold obj_wf. simpl. intros H1 H2. constructor; [done|].
  by rewrite Forall_fmap.
Qed.

Lemma obj_wf_middle before k v after :
  obj_wf (before ++ (k, v) :: after) →
  Forall (λ kv, (kv.1 < k)%N) before ∧ Forall (λ kv, (k < kv.1)%N) after.
Proof.
  induction before as [|[k' v'] before IH]; simpl; intros H.
  - apply obj_wf_cons_inv in H as [_ H]. by split.
  - apply obj_wf_cons_inv in H as [H1 H2]. apply IH in H1 as [H1 H3].
    split; [|done]. constructor; [|done]. simpl.
    apply Forall_app in H2 as [_ H2]. apply Forall_cons in H2 as [H2 _].
    done.
Qed.

Lemma obj_get_elem_of k v o : obj_get k o = Some v → (k, v) ∈ o.
Proof.
  induction o as [|[k' v'] o IH]; simpl; [done|].
  destruct (N.eqb_spec k' k) as [->|Hne].
  - intros [= ->]. apply list_elem_of_here.
  - intros H. apply list_elem_of_further. auto.
Qed.

Lemma obj_get_None k o : obj_get k o = None ↔ k ∉ o.*1.
Proof.
  induction o as [|[k' v'] o IH]; simpl.
  - split; [|done]. intros _ H. by apply elem_of_nil in H.
  - destruct (N.eqb_spec k' k) as [->|Hne].
    + split; [done|]. intros H. exfalso. apply H, list_elem_of_here.
    + rewrite IH, not_elem_of_cons.
      split; [intros ?; split; [congruence|done] | intros [_ ?]; done].
Qed.

Lemma obj_get_middle before k v after :
  obj_wf (before ++ (k, v) :: after) →
  obj_get k (before ++ (k, v) :: after) = Some v.
Proof.
  intros H. apply obj_wf_middle in H as [H _].
  induction before as [|[k' v'] before IH]; simpl.
  - by rewrite N.eqb_refl.
  - apply Forall_cons in H as [Hk H]. simpl in Hk.
    destruct (N.eqb_spec k' k) as [->|Hne]; [lia|]. auto.
Qed.

Lemma obj_delete_fresh k o : Forall (λ kv, kv.1 ≠ k) o → obj_delete k o = o.
Proof.
  induction 1 as [|[k' v'] o Hk _ IH]; simpl; [done|]. simpl in Hk.
  destruct (N.eqb_spec k' k) as [->|Hne]; [done|]. by rewrite IH.
Qed.

Lemma obj_delete_middle before k v after :
  obj_wf (before ++ (k, v) :: after) →
  obj_delete k (before ++ (k, v) :: after) = before ++ after.
Proof.
  intros H. apply obj_wf_middle in H as [H1 H2].
  induction before as [|[k' v'] before IH]; simpl.
  - rewrite N.eqb_refl. apply obj_delete_fresh.
    eapply Forall_impl; [exact H2|]. simpl. intros; lia.
  - apply Forall_cons in H1 as [Hk H1]. simpl in Hk.
    destruct (N.eqb_spec k' k) as [->|Hne]; [lia|]. by rewrite IH.
Qed.

Lemma obj_delete_not_elem k o : k ∉ (obj_delete k o).*1.
Proof.
  induction o as [|[k' v'] o IH]; simpl.
  - intros H. by apply elem_of_nil in H.
  - destruct (N.eqb_spec k' k) as [->|Hne]; [done|]. simpl.
    rewrite not_elem_of_cons. split; [congruence|done].
Qed.

Lemma obj_delete_wf k o : obj_wf o → obj_wf (obj_delete k o).
Proof.
  induction o as [|[k' v'] o IH]; simpl; [done|]. intros H.
  apply obj_wf_cons_inv in H as [H1 H2].
  destruct (N.eqb_spec k' k) as [->|Hne]; [auto|].
  apply obj_wf_cons; [auto|]. clear -H2.
  induction o as [|[k2 v2] o IH]; simpl; [constructor|].
  apply Forall_cons in H2 as [Hk H2]. simpl in Hk.
  destruct (k2 =? k)%N; [auto|]. constructor; auto.
Qed.

(** Storing under a key above all the others appends the property. *)
Lemma obj_set_above k v o :
  Forall (λ kv, (kv.1 < k)%N) o → obj_set k v o = o ++ [(k, v)].
Proof.
  induction 1 as [|[k' v'] o Hk _ IH]; simpl; [done|]. simpl in Hk.
  destruct (N.ltb_spec k k') as [Hlt|_]; [lia|].
  destruct (N.eqb_spec k k') as [->|_]; [lia|]. by rewrite IH.
Qed.

(** Storing under a key the object has replaces the value in place. *)
Lemma obj_set_middle before k v v' after :
  obj_wf (before ++ (k, v) :: after) →
  obj_set k v' (before ++ (k, v) :: after) = before ++ (k, v') :: after.
Proof.
  intros H. apply obj_wf_middle in H as [H _].
  induction before as [|[k2 v2] before IH]; simpl.
  - destruct (N.ltb_spec k k) as [Hlt|_]; [lia|]. by rewrite N.eqb_refl.
  - apply Forall_cons in H as [Hk H]. simpl in Hk.
    destruct (N.ltb_spec k k2) as [Hlt|_]; [lia|].
    destruct (N.eqb_spec k k2) as [->|_]; [lia|]. by rewrite IH.
Qed.

Lemma obj_wf_middle_fresh before k v after :
  obj_wf (before ++ (k, v) :: after) → k ∉ (before ++ after).*1.
Proof.
  intros Hwf Hin. apply obj_wf_middle in Hwf as [H1 H2].
  rewrite fmap_app in Hin. apply elem_of_app in Hin as [Hin|Hin];
    apply list_elem_of_fmap in Hin as ([k' v'] & -> & Hin); simpl in *.
  - rewrite Forall_forall in H1. apply H1 in Hin. simpl in Hin. lia.
  - rewrite Forall_forall in H2. apply H2 in Hin. simpl in Hin. lia.
Qed.

Lemma findKey_total (g : V → bool) o :
  ∃ r, ObjectUtils_findKey (λ v, Ok (g v)) o = Ok r.
Proof.
  induction o as [|[k v] o [r IH]]; simpl; [eauto|].
  destruct (g v); eauto.
Qed.

(** The key found is that of the first property that satisfies the
    predicate. *)
Lemma findKey_Some (g : V → bool) o k :
  ObjectUtils_findKey (λ v, Ok (g v)) o = Ok (Some k) →
  ∃ before v after, o = before ++ (k, v) :: after ∧ g v = true ∧
    Forall (λ kv, g kv.2 = false) before.
Proof.
  induction o as [|[k' v'] o IH]; simpl; [done|].
  destruct (g v') eqn:Hg.
  - intros [= <-]. exists [], v', o. by repeat split.
  - intros H. apply IH in H as (before & v & after & -> & Hv & Hb).
    exists ((k', v') :: before), v, after. repeat split; [done|].
    by constructor.
Qed.

Lemma findKey_None (g : V → bool) o :
  ObjectUtils_findKey (λ v, Ok (g v)) o = Ok None →
  Forall (λ kv, g kv.2 = false) o.
Proof.
  induction o as [|[k' v'] o IH]; simpl; [constructor|].
  destruct (g v') eqn:Hg; [done|]. intros H. constructor; auto.
Qed.

End Objects.

(** ** Resolution of an expectation *)

Arguments lookupExpectedEventHandle : simpl never.
Arguments tryMatchExpectedEvent : simpl never.
Arguments call_handler : simpl never.
Arguments call_listener : simpl never.
Arguments callEventListeners : simpl never.
Arguments handleServerEvent : simpl never.
Arguments fakeServerEvent : simpl never.
Arguments cleanupExpectedEvents : simpl never.
Arguments unexpectEvent : simpl never.
Arguments waitExpectedEvent : simpl never.
Arguments expectEvent : simpl never.
Arguments spec_matches : simpl never.

Ltac munfold :=
  unfold mbind, M_bind, mret, M_ret, gets, modify, throw, lift, emit, asap,
    getTime, try_catch; cbv beta iota.

Lemma world_eta (w : World) :
  {| eventListeners := eventListeners w;
     expectedEventSpecs := expectedEventSpecs w;
     expectedEventLastHandle := expectedEventLastHandle w;
     sessionId := sessionId w; listeningTime := listeningTime w;
     listenErrorCount := listenErrorCount w;
     ignoreListenErrors := ignoreListenErrors w;
     syncListenError := syncListenError w;
     syncListenCallbacks := syncListenCallbacks w; clock := clock w;
     nextHash := nextHash w; heap := heap w; promises := promises w;
     asapQueue := asapQueue w; timers := timers w; inFlight := inFlight w;
     trace := trace w |} = w.
Proof. by destruct w. Qed.

Lemma bind_eq {A B} (m : M A) (f : A → M B) (w : World) :
  (m ≫= f) w = match m w with
               | (Ok a, w') => f a w'
               | (Throw e, w') => (Throw e, w')
               end.
Proof. done. Qed.

(** One step of evaluation of a computation applied to a world. *)
Ltac mred :=
  repeat first
    [ rewrite bind_eq
    | progress unfold gets, modify, getTime, throw, lift, mret, M_ret
    | progress cbv beta iota ].

Lemma call_handler_eq h a p w :
  call_handler h a p w = (Ok tt, after_handlers h a [p] w).
Proof. done. Qed.

Lemma after_handlers_nil h a w : after_handlers h a [] w = w.
Proof.
  unfold after_handlers, set_asapQueue, set_trace. simpl.
  rewrite !app_nil_r. apply world_eta.
Qed.

Lemma after_handlers_cons h a p ps w :
  after_handlers h a (p :: ps) w =
  after_handlers h a ps (after_handlers h a [p] w).
Proof.
  unfold after_handlers, set_asapQueue, set_trace. simpl.
  by rewrite <- !app_assoc.
Qed.

Lemma forEach_call_handler h a ps w :
  forEach (call_handler h a) ps w = (Ok tt, after_handlers h a ps w).
Proof.
  revert w. induction ps as [|p ps IH]; intros w; cbn [forEach].
  - by rewrite after_handlers_nil.
  - rewrite bind_eq, call_handler_eq. cbv beta iota.
    by rewrite IH, (after_handlers_cons h a p ps w).
Qed.

Lemma spec_matches_matchesb type params s :
  spec_matches type (Some params) s = Ok (matchesb type params s).
Proof.
  unfold matchesb.
  destruct (spec_matches_object type params s) as (b & -> & _). done.
Qed.

Lemma matchesb_Matches type params s :
  matchesb type params s = true ↔ Matches type params s.
Proof.
  unfold matchesb.
  destruct (spec_matches_object type params s) as (b & -> & H). done.
Qed.

Lemma matchesb_not_Matches type params s :
  matchesb type params s = false ↔ ¬ Matches type params s.
Proof.
  rewrite <- matchesb_Matches. by destruct (matchesb type params s).
Qed.

Lemma findKey_ext {V} (f g : V → Res bool) (o : list (Handle * V)) :
  (∀ v, f v = g v) → ObjectUtils_findKey f o = ObjectUtils_findKey g o.
Proof.
  intros H. induction o as [|[k v] o IH]; simpl; [done|].
  by rewrite H, IH.
Qed.

Lemma lookup_object type params w :
  (∃ h s before after,
     lookupExpectedEventHandle type (Some params) w = (Ok (Some h), w) ∧
     first_match type params (expectedEventSpecs w) h s before after) ∨
  (lookupExpectedEventHandle type (Some params) w = (Ok None, w) ∧
   Forall (λ kv, ¬ Matches type params kv.2) (expectedEventSpecs w)).
Proof.
  unfold lookupExpectedEventHandle. munfold.
  rewrite (findKey_ext _ (λ v, Ok (matchesb type params v)))
    by apply spec_matches_matchesb.
  destruct (findKey_total (matchesb type params) (expectedEventSpecs w))
    as [[h|] Hr]; rewrite Hr.
  - left. apply findKey_Some in Hr as (before & s & after & Ho & Hs & Hb).
    exists h, s, before, after. split; [done|]. split; [done|].
    split; [by apply matchesb_Matches|].
    eapply Forall_impl; [exact Hb|]. intros kv. apply matchesb_not_Matches.
  - right. split; [done|]. apply findKey_None in Hr.
    eapply Forall_impl; [exact Hr|]. intros kv. apply matchesb_not_Matches.
Qed.

(** The first matching entry is unique. *)
Lemma first_match_unique type params (o : list (Handle * EventSpec))
    h s before after h' s' before' after' :
  obj_wf o →
  first_match type params o h s before after →
  first_match type params o h' s' before' after' →
  h = h' ∧ s = s'.
Proof.
  intros Hwf (Ho & Hm & Hb) (Ho' & Hm' & Hb').
  assert (Hin : (h', s') ∈ before ++ (h, s) :: after)
    by (rewrite <- Ho, Ho'; apply elem_of_app; right;
        apply list_elem_of_here).
  assert (Hin' : (h, s) ∈ before' ++ (h', s') :: after')
    by (rewrite <- Ho', Ho; apply elem_of_app; right;
        apply list_elem_of_here).
  pose proof Hwf as Hwf'. rewrite Ho in Hwf. rewrite Ho' in Hwf'.
  apply obj_wf_middle in Hwf as [_ H2].
  apply obj_wf_middle in Hwf' as [_ H2'].
  rewrite Forall_forall in H2, H2', Hb, Hb'.
  apply elem_of_app in Hin as [Hin|Hin]; [by apply Hb in Hin|].
  apply elem_of_cons in Hin as [[= ? ?]|Hin]; [done|].
  apply elem_of_app in Hin' as [Hin'|Hin']; [by apply Hb' in Hin'|].
  apply elem_of_cons in Hin' as [[= ? ?]|Hin']; [done|].
  apply H2 in Hin. apply H2' in Hin'. simpl in *. lia.
Qed.

(** Some entry matches exactly when there is a first one that does. *)
Lemma first_match_exists type params (o : list (Handle * EventSpec)) :
  (∃ kv, kv ∈ o ∧ Matches type params kv.2) →
  ¬ Forall (λ kv, ¬ Matches type params kv.2) o.
Proof.
  intros (kv & Hin & Hm) H. rewrite Forall_forall in H. by apply (H kv).
Qed.

(** [tryMatchExpectedEvent] on the event object at [r]. *)
Lemma tryMatch_spec r e w :
  heap w !! r = Some e → obj_wf (expectedEventSpecs w) →
  (∃ h s before after,
     first_match (ev_type e) (ev_params e) (expectedEventSpecs w)
                 h s before after ∧
     tryMatchExpectedEvent r w =
       (Ok (Some h),
        set_expectedEventSpecs (before ++ after)
          (after_handlers h (HEvent r) (es_handlers s) w))) ∨
  (Forall (λ kv, ¬ Matches (ev_type e) (ev_params e) kv.2)
          (expectedEventSpecs w) ∧
   tryMatchExpectedEvent r w = (Ok None, w)).
Proof.
  intros Hr Hwf. unfold tryMatchExpectedEvent, read_event. munfold.
  rewrite Hr.
  destruct (lookup_object (ev_type e) (ev_params e) w)
    as [(h & s & before & after & -> & Hfm)|[-> Hnone]].
  - left. exists h, s, before, after. split; [done|].
    destruct Hfm as (Ho & _). rewrite Ho in Hwf |- *.
    rewrite obj_get_middle by done.
    rewrite forEach_call_handler. simpl.
    rewrite Ho, obj_delete_middle by done. done.
  - right. done.
Qed.

(** ** Dispatch to the listeners *)

Lemma after_listeners_nil e w : after_listeners e [] w = w.
Proof.
  unfold after_listeners, set_heap, set_trace. simpl.
  rewrite !app_nil_r. apply world_eta.
Qed.

Lemma after_listeners_cons e l ls w :
  after_listeners e (l :: ls) w =
  after_listeners e ls (after_listeners e [l] w).
Proof.
  unfold after_listeners, set_heap, set_trace. simpl.
  rewrite <- !app_assoc. simpl. f_equal. f_equal. f_equal.
  apply imap_ext. intros i x _. simpl. f_equal.
  rewrite length_app. simpl. lia.
Qed.

Lemma call_listener_eq r e l w :
  heap w !! r = Some e →
  call_listener r l w =
    (outcome (cb_run (l_callback l) (clone e)), after_listeners e [l] w).
Proof.
  intros Hr. unfold call_listener, read_event. rewrite bind_eq, Hr.
  unfold after_listeners, listener_call. simpl.
  rewrite Nat.add_0_r.
  by destruct (cb_run (l_callback l) (clone e)).
Qed.

Lemma after_listeners_heap_lookup e ls r w x :
  heap w !! r = Some x → heap (after_listeners e ls w) !! r = Some x.
Proof. intros H. simpl. by apply lookup_app_l_Some. Qed.

Lemma forEach_call_listener r e ls w :
  heap w !! r = Some e →
  forEach (call_listener r) ls w =
    (outcome (reached e ls).2, after_listeners e (reached e ls).1 w).
Proof.
  revert w. induction ls as [|l ls IH]; intros w Hr; cbn [forEach reached].
  - simpl. by rewrite after_listeners_nil.
  - rewrite bind_eq, (call_listener_eq r e) by done.
    destruct (cb_run (l_callback l) (clone e)) as [err|];
      cbn [outcome fst snd]; [done|].
    rewrite IH by by apply after_listeners_heap_lookup.
    by rewrite (after_listeners_cons e l (reached e ls).1 w).
Qed.

Lemma callEventListeners_eq r e w :
  heap w !! r = Some e →
  callEventListeners r w =
    (outcome (reached e (eventListeners w)).2,
     after_listeners e (reached e (eventListeners w)).1 w).
Proof.
  intros Hr. unfold callEventListeners. rewrite bind_eq. simpl.
  by apply forEach_call_listener.
Qed.

(** The listeners reached are a prefix of the registered ones, the whole
    list when no callback throws. *)
Lemma reached_prefix e ls : (reached e ls).1 `prefix_of` ls.
Proof.
  induction ls as [|l ls IH]; simpl; [done|].
  destruct (cb_run (l_callback l) (clone e)); simpl.
  - apply prefix_cons, prefix_nil.
  - by apply prefix_cons.
Qed.

Lemma reached_all e ls :
  Forall (λ l, cb_run (l_callback l) (clone e) = None) ls →
  reached e ls = (ls, None).
Proof.
  induction 1 as [|l ls Hl _ IH]; simpl; [done|]. by rewrite Hl, IH.
Qed.

(** When a callback throws, it is the last one reached and the exception is
    the result. *)
Lemma reached_throw e ls err :
  (reached e ls).2 = Some err →
  ∃ l rest, (reached e ls).1 ++ rest = ls ∧
    last (reached e ls).1 = Some l ∧
    cb_run (l_callback l) (clone e) = Some err.
Proof.
  induction ls as [|l ls IH]; simpl; [done|].
  destruct (cb_run (l_callback l) (clone e)) as [err'|] eqn:Hl; simpl.
  - intros [= ->]. by exists l, ls.
  - intros H. apply IH in H as (l' & rest & Hp & Hlast & Hrun).
    exists l', rest. split; [by rewrite Hp|]. split; [|done].
    destruct (reached e ls).1; [done|]. done.
Qed.


(** The first listener that throws is the last one reached, and what it
    throws is the outcome. *)
Lemma reached_first_throw e before l after err :
  Forall (λ l', cb_run (l_callback l') (clone e) = None) before →
  cb_run (l_callback l) (clone e) = Some err →
  reached e (before ++ l :: after) = (before ++ [l], Some err).
Proof.
  intros Hnone Hl. induction before as [|x before IH]; simpl.
  - by rewrite Hl.
  - apply Forall_cons in Hnone as [Hx Hnone]. rewrite Hx.
    by rewrite (IH Hnone).
Qed.

(** The outcome is normal exactly when no listener throws. *)
Lemma reached_ok e ls :
  (reached e ls).2 = None →
  Forall (λ l, cb_run (l_callback l) (clone e) = None) ls.
Proof.
  induction ls as [|l ls IH]; simpl; [constructor|].
  destruct (cb_run (l_callback l) (clone e)) eqn:Hl; simpl; [done|].
  intros H. constructor; [done|by apply IH].
Qed.

(** ** One dispatch, real or fake *)

Lemma handleServerEvent_dispatch ed w :
  handleServerEvent ed w =
  dispatch false (ed_type ed) (default ∅ (ed_params ed)) w.
Proof. done. Qed.


Lemma alter_last {A} (f : A → A) (l : list A) (x : A) :
  alter f (length l) (l ++ [x]) = l ++ [f x].
Proof. induction l as [|y l IH]; simpl; [done|]. f_equal. exact IH. Qed.

Lemma dispatch_spec fake type params w :
  obj_wf (expectedEventSpecs w) →
  (∃ h s before after,
     first_match type params (expectedEventSpecs w) h s before after ∧
     dispatch fake type params w =
       (outcome (reached (new_Event type params true fake)
                         (eventListeners w)).2,
        after_match fake type params h (es_handlers s) (before ++ after) w))
  ∨
  (Forall (λ kv, ¬ Matches type params kv.2) (expectedEventSpecs w) ∧
   dispatch fake type params w =
     (outcome (reached (new_Event type params false fake)
                       (eventListeners w)).2,
      after_no_match fake type params w)).
Proof.
  intros Hwf.
  pose (e0 := new_Event type params false false).
  pose (r := length (heap w)).
  pose (w1 := set_heap (heap w ++ [e0]) w).
  assert (Hr : heap w1 !! r = Some e0).
  { subst w1 r. simpl. by rewrite lookup_app_r, Nat.sub_diag. }
  assert (Hstart : ∀ k : Ref → M unit,
    (alloc_event e0 ≫= k) w = k r w1) by done.
  unfold dispatch. fold e0. rewrite !Hstart.
  destruct (tryMatch_spec r e0 w1 Hr Hwf)
    as [(h & s & before & after & Hfm & Heq)|[Hnone Heq]].
  - left. exists h, s, before, after. split; [done|].
    rewrite bind_eq, Heq. cbv beta iota.
    rewrite bind_eq. unfold update_event at 1, modify at 1. cbv beta iota.
    rewrite bind_eq.
    assert (Hfake : ∀ w', heap w' = heap w ++ [set_expected true e0] →
      ∃ w'', (if fake then update_event r (set_fake true) else mret ()) w'
             = (Ok tt, w'') ∧
        w'' = set_heap (heap w ++ [new_Event type params true fake]) w').
    { intros w' Hw'. destruct fake.
      - eexists. split; [done|]. unfold modify. rewrite Hw'.
        subst r. by rewrite alter_last.
      - eexists. split; [done|].
        transitivity (set_heap (heap w') w');
          [unfold set_heap; by rewrite world_eta|]. by rewrite Hw'. }
    match goal with
    | |- context [(if fake then _ else _) ?w'] =>
        destruct (Hfake w') as (w'' & -> & ->)
    end.
    { simpl. subst r. by rewrite alter_last. }
    cbv beta iota.
    rewrite (callEventListeners_eq r (new_Event type params true fake)).
    + done.
    + simpl. subst r. by rewrite lookup_app_r, Nat.sub_diag.
  - right. split; [done|].
    rewrite bind_eq, Heq. cbv beta iota.
    rewrite bind_eq. unfold mret at 1, M_ret at 1. cbv beta iota.
    rewrite bind_eq.
    assert (Hfake : ∃ w'',
      (if fake then update_event r (set_fake true) else mret ()) w1
        = (Ok tt, w'') ∧
      w'' = set_heap (heap w ++ [new_Event type params false fake]) w).
    { destruct fake.
      - eexists. split; [done|]. unfold modify. subst w1 r. simpl.
        by rewrite alter_last.
      - eexists. split; [done|]. done. }
    destruct Hfake as (w'' & -> & ->). cbv beta iota.
    rewrite (callEventListeners_eq r (new_Event type params false fake)).
    + done.
    + simpl. subst r. by rewrite lookup_app_r, Nat.sub_diag.
Qed.

(** ** What a dispatch adds to the trace *)

Lemma new_effects_eq {A} (m : M A) (w : World) (l : list Effect) :
  trace (exec m w) = trace w ++ l → new_effects m w = l.
Proof. unfold new_effects. intros ->. by rewrite drop_app_length. Qed.

Lemma listener_calls_are_listener_calls base ls :
  Forall is_listener_call (listener_calls base ls).
Proof.
  unfold listener_calls. revert base.
  induction ls as [|l ls IH]; intros base; simpl; constructor; [done|].
  rewrite Forall_forall. intros x Hx.
  apply list_elem_of_lookup in Hx as [i Hx].
  rewrite list_lookup_imap in Hx.
  destruct (ls !! i); simpl in Hx; [|done]. by injection Hx as <-.
Qed.

Lemma handler_not_listener_call base ls h p a :
  EHandler h p a ∉ listener_calls base ls.
Proof.
  intros Hin. pose proof (listener_calls_are_listener_calls base ls) as Hl.
  rewrite Forall_forall in Hl. by apply Hl in Hin.
Qed.

Lemma trace_after_match fake type params h ps specs w :
  trace (after_match fake type params h ps specs w) =
    trace w ++ handler_calls h (HEvent (length (heap w))) ps ++
    listener_calls (S (length (heap w)))
      (reached (new_Event type params true fake) (eventListeners w)).1.
Proof.
  unfold after_match, after_listeners, listener_calls, handler_calls. simpl.
  rewrite <- app_assoc. do 2 f_equal.
  apply imap_ext. intros i x _. simpl. f_equal.
  rewrite length_app. simpl. lia.
Qed.

Lemma trace_after_no_match fake type params w :
  trace (after_no_match fake type params w) =
    trace w ++
    listener_calls (S (length (heap w)))
      (reached (new_Event type params false fake) (eventListeners w)).1.
Proof.
  unfold after_no_match, after_listeners, listener_calls. simpl.
  f_equal. apply imap_ext. intros i x _. simpl. f_equal.
  rewrite length_app. simpl. lia.
Qed.

Lemma heap_after_match fake type params h ps specs w :
  heap (after_match fake type params h ps specs w) =
    heap w ++ new_Event type params true fake ::
    replicate
      (length (reached (new_Event type params true fake)
                       (eventListeners w)).1)
      (clone (new_Event type params true fake)).
Proof. unfold after_match. simpl. by rewrite <- app_assoc. Qed.

Lemma heap_after_no_match fake type params w :
  heap (after_no_match fake type params w) =
    heap w ++ new_Event type params false fake ::
    replicate
      (length (reached (new_Event type params false fake)
                       (eventListeners w)).1)
      (clone (new_Event type params false fake)).
Proof. unfold after_no_match. simpl. by rewrite <- app_assoc. Qed.

(** A dispatch only calls handlers of an expectation that is registered. *)
Lemma dispatch_handlers_registered fake type params w h p a :
  obj_wf (expectedEventSpecs w) →
  EHandler h p a ∈ new_effects (dispatch fake type params) w →
  h ∈ (expectedEventSpecs w).*1.
Proof.
  intros Hwf Hin.
  destruct (dispatch_spec fake type params w Hwf)
    as [(h' & s & before & after & (Ho & _) & Heq)|[_ Heq]].
  - rewrite (new_effects_eq _ _ _ ltac:(unfold exec; rewrite Heq;
      apply trace_after_match)) in Hin.
    apply elem_of_app in Hin as [Hin|Hin].
    + unfold handler_calls in Hin. apply list_elem_of_fmap in Hin
        as (p' & [= -> -> ->] & _).
      rewrite Ho, fmap_app. apply elem_of_app. right. simpl.
      apply list_elem_of_here.
    + by apply handler_not_listener_call in Hin.
  - rewrite (new_effects_eq _ _ _ ltac:(unfold exec; rewrite Heq;
      apply trace_after_no_match)) in Hin.
    by apply handler_not_listener_call in Hin.
Qed.

Lemma dispatch_resolves_first_match fake type params w :
  obj_wf (expectedEventSpecs w) →
  (∃ kv, kv ∈ expectedEventSpecs w ∧ Matches type params kv.2) →
  resolves_first_match (dispatch fake type params) type params w.
Proof.
  intros Hwf Hex.
  destruct (dispatch_spec fake type params w Hwf)
    as [(h & s & before & after & Hfm & Heq)|[Hnone _]];
    [|by apply first_match_exists in Hex].
  exists h, s, before, after. split; [done|].
  assert (Hexec : exec (dispatch fake type params) w =
    after_match fake type params h (es_handlers s) (before ++ after) w)
    by (unfold exec; by rewrite Heq).
  destruct Hfm as (Ho & Hm & Hb).
  cbv zeta. rewrite Hexec. split; [|split; [|split]].
  - eexists. split.
    + apply new_effects_eq. rewrite Hexec. apply trace_after_match.
    + apply listener_calls_are_listener_calls.
  - exists (new_Event type params true fake). split; [|done].
    rewrite heap_after_match. by rewrite lookup_app_r, Nat.sub_diag.
  - done.
  - intros p a Hin.
    apply dispatch_handlers_registered in Hin.
    + change (expectedEventSpecs (after_match fake type params h
        (es_handlers s) (before ++ after) w)) with (before ++ after) in Hin.
      rewrite Ho in Hwf. by apply obj_wf_middle_fresh in Hwf.
    + change (expectedEventSpecs (after_match fake type params h
        (es_handlers s) (before ++ after) w)) with (before ++ after).
      rewrite <- (obj_delete_middle before h s after) by by rewrite <- Ho.
      apply obj_delete_wf. by rewrite <- Ho.
Qed.

(** C1. Every dispatched event, received from the server or synthesized
    locally, that at least one registered expectation matches (the entry's
    type, when set, is the event's type and every key of the entry's params,
    when set, has the identical value in the event's params) resolves
    exactly one expectation, the first matching entry in registry iteration
    order: all of its handlers are called with the event, the event is
    marked expected, that entry and only that entry leaves the registry, and
    a second identical dispatch does not resolve it again. *)
Theorem C1_dispatch_resolves_first_match (w : World) (ed : EventData) :
  obj_wf (expectedEventSpecs w) →
  (∃ kv, kv ∈ expectedEventSpecs w ∧
         Matches (ed_type ed) (default ∅ (ed_params ed)) kv.2) →
  resolves_first_match (handleServerEvent ed)
    (ed_type ed) (default ∅ (ed_params ed)) w ∧
  resolves_first_match
    (fakeServerEvent (ed_type ed) (default ∅ (ed_params ed)))
    (ed_type ed) (default ∅ (ed_params ed)) w.
Proof.
  intros Hwf Hex. split.
  - by apply (dispatch_resolves_first_match false).
  - by apply (dispatch_resolves_first_match true).
Qed.

(** ** The periodic sweep *)

Lemma not_expired_false now h s : not_expired now h s = false ↔ Expired now s.
Proof. unfold not_expired, Expired. by case_bool_decide. Qed.

Lemma not_expired_true now h s : not_expired now h s = true ↔ ¬ Expired now s.
Proof. unfold not_expired, Expired. by case_bool_decide. Qed.

Lemma forEach_expired xs w :
  forEach (λ hs : Handle * EventSpec,
             forEach (call_handler hs.1 (HError ERR_TIMEOUT))
                     (es_handlers hs.2)) xs w
  = (Ok tt, after_expiry xs w).
Proof.
  revert w. induction xs as [|hs xs IH]; intros w; cbn [forEach]; [done|].
  rewrite bind_eq, forEach_call_handler. cbv beta iota. apply IH.
Qed.

Lemma trace_after_expiry xs w :
  trace (after_expiry xs w) = trace w ++ expiry_calls xs.
Proof.
  revert w. induction xs as [|hs xs IH]; intros w; simpl.
  - by rewrite app_nil_r.
  - rewrite IH. unfold expiry_calls. simpl. by rewrite <- app_assoc.
Qed.

Lemma specs_after_expiry xs w :
  expectedEventSpecs (after_expiry xs w) = expectedEventSpecs w.
Proof. revert w. induction xs as [|hs xs IH]; intros w; simpl; [done|]. by rewrite IH. Qed.

Lemma cleanupExpectedEvents_eq w :
  cleanupExpectedEvents w =
    (Ok tt,
     after_expiry (expired_specs (clock w) (expectedEventSpecs w))
       (set_expectedEventSpecs (kept_specs (clock w) (expectedEventSpecs w))
                               w)).
Proof.
  unfold cleanupExpectedEvents. mred. apply forEach_expired.
Qed.

Lemma elem_of_filter_specs f (o : list (Handle * EventSpec)) h s :
  (h, s) ∈ ObjectUtils_filter_specs f o ↔ (h, s) ∈ o ∧ f h s = true.
Proof.
  unfold ObjectUtils_filter_specs.
  rewrite !list_elem_of_In, filter_In. done.
Qed.

Lemma elem_of_expired_specs now o h s :
  (h, s) ∈ expired_specs now o ↔ (h, s) ∈ o ∧ Expired now s.
Proof.
  unfold expired_specs. rewrite elem_of_filter_specs.
  by rewrite negb_true_iff, not_expired_false.
Qed.

Lemma elem_of_kept_specs now o h s :
  (h, s) ∈ kept_specs now o ↔ (h, s) ∈ o ∧ ¬ Expired now s.
Proof.
  unfold kept_specs. rewrite elem_of_filter_specs.
  by rewrite not_expired_true.
Qed.

Lemma elem_of_expiry_calls xs h p a :
  EHandler h p a ∈ expiry_calls xs ↔
  a = HError ERR_TIMEOUT ∧ ∃ s, (h, s) ∈ xs ∧ p ∈ es_handlers s.
Proof.
  unfold expiry_calls, handler_calls. rewrite list_elem_of_In, in_concat.
  split.
  - intros (l & Hl & Hin). apply list_elem_of_In in Hl, Hin.
    apply list_elem_of_fmap in Hl as ([h' s] & -> & Hs).
    apply list_elem_of_fmap in Hin as (p' & [= -> -> ->] & Hp). eauto.
  - intros (-> & s & Hs & Hp). eexists. rewrite <- !list_elem_of_In. split.
    + apply list_elem_of_fmap. by exists (h, s).
    + apply list_elem_of_fmap. exists p. split; [reflexivity|done].
Qed.

(** In an object the value under a key is unique. *)
Lemma obj_wf_unique {V} (o : list (Handle * V)) h v1 v2 :
  obj_wf o → (h, v1) ∈ o → (h, v2) ∈ o → v1 = v2.
Proof.
  induction o as [|[k v] o IH]; intros Hwf H1 H2.
  - by apply elem_of_nil in H1.
  - apply obj_wf_cons_inv in Hwf as [Hwf Hk]. rewrite Forall_forall in Hk.
    apply elem_of_cons in H1 as [E1|H1]; apply elem_of_cons in H2 as [E2|H2].
    + congruence.
    + injection E1 as -> ->. apply Hk in H2. simpl in H2. lia.
    + injection E2 as -> ->. apply Hk in H1. simpl in H1. lia.
    + by apply IH.
Qed.

Lemma elem_of_keys {V} (o : list (Handle * V)) h :
  h ∈ o.*1 ↔ ∃ v, (h, v) ∈ o.
Proof.
  rewrite list_elem_of_fmap. split.
  - intros ([k v] & -> & H). eauto.
  - intros (v & H). by exists (h, v).
Qed.

(** ** Cancellation *)

Lemma obj_get_Some_middle {V} (o : list (Handle * V)) h v :
  obj_get h o = Some v → ∃ before after, o = before ++ (h, v) :: after.
Proof.
  intros H. apply obj_get_elem_of in H.
  apply list_elem_of_split in H as (before & after & ->). eauto.
Qed.

Lemma elem_of_obj_delete {V} (o : list (Handle * V)) h k v :
  (k, v) ∈ obj_delete h o ↔ (k, v) ∈ o ∧ k ≠ h.
Proof.
  induction o as [|[k' v'] o IH]; simpl.
  - split; [intros H; by apply elem_of_nil in H|].
    intros [H _]. by apply elem_of_nil in H.
  - destruct (N.eqb_spec k' h) as [->|Hne].
    + rewrite IH, elem_of_cons. split; [tauto|].
      intros [[[= -> ->]|H] Hk]; [done|tauto].
    + rewrite !elem_of_cons, IH. split.
      * intros [[= -> ->]|[H Hk]]; [split; [by left|done]|tauto].
      * intros [[E|H] Hk]; [by left|tauto].
  Qed.

Lemma unexpectEvent_pending h s w :
  obj_get h (expectedEventSpecs w) = Some s →
  unexpectEvent h w =
    (Ok tt,
     set_expectedEventSpecs (obj_delete h (expectedEventSpecs w))
       (after_handlers h (HError ERR_UNEXPECTED) (es_handlers s) w)).
Proof.
  intros Hg. unfold unexpectEvent. mred. rewrite Hg.
  rewrite forEach_call_handler. by mred.
Qed.

Lemma unexpectEvent_absent h w :
  obj_get h (expectedEventSpecs w) = None → unexpectEvent h w = (Ok tt, w).
Proof.
  intros Hg. unfold unexpectEvent. mred. rewrite Hg. mred.
  rewrite obj_delete_fresh.
  - unfold set_expectedEventSpecs. by rewrite world_eta.
  - apply obj_get_None in Hg. rewrite Forall_forall. intros [k v] Hin Hk.
    simpl in Hk. subst k. apply Hg. apply elem_of_keys. eauto.
Qed.

Lemma unexpectEvent_removes h w :
  obj_get h (expectedEventSpecs (exec (unexpectEvent h) w)) = None.
Proof.
  apply obj_get_None. unfold exec.
  destruct (obj_get h (expectedEventSpecs w)) as [s|] eqn:Hg.
  - rewrite (unexpectEvent_pending h s) by done. simpl.
    apply obj_delete_not_elem.
  - rewrite unexpectEvent_absent by done. simpl. by apply obj_get_None.
Qed.

(** C8. [unexpectEvent(handle)] on a pending handle calls each handler of
    that expectation once, with the cancellation failure (which is not the
    timeout failure), and removes the entry and no other; on a handle that
    is unknown or already resolved it leaves the world as it is; a second
    call with the same handle changes nothing more. *)
Theorem C8_unexpectEvent (w : World) (handle : Handle) :
  match obj_get handle (expectedEventSpecs w) with
  | Some s =>
      result (unexpectEvent handle) w = Ok tt ∧
      new_effects (unexpectEvent handle) w =
        handler_calls handle (HError ERR_UNEXPECTED) (es_handlers s) ∧
      (∀ k v, (k, v) ∈ expectedEventSpecs (exec (unexpectEvent handle) w) ↔
              (k, v) ∈ expectedEventSpecs w ∧ k ≠ handle)
  | None => unexpectEvent handle w = (Ok tt, w)
  end ∧
  ERR_UNEXPECTED ≠ ERR_TIMEOUT ∧
  unexpectEvent handle (exec (unexpectEvent handle) w) =
    (Ok tt, exec (unexpectEvent handle) w).
Proof.
  split; [|split].
  - destruct (obj_get handle (expectedEventSpecs w)) as [s|] eqn:Hg.
    + pose proof (unexpectEvent_pending handle s w Hg) as Heq.
      split; [unfold result; by rewrite Heq|]. split.
      * apply new_effects_eq. unfold exec. by rewrite Heq.
      * intros k v. unfold exec. rewrite Heq. apply elem_of_obj_delete.
    + by apply unexpectEvent_absent.
  - done.
  - apply unexpectEvent_absent, unexpectEvent_removes.
Qed.

(** ** The sweep, continued *)

(** A sweep only calls handlers of registered entries that have expired,
    and only with the timeout failure. *)
Lemma cleanup_calls w h p a :
  EHandler h p a ∈ new_effects cleanupExpectedEvents w ↔
  a = HError ERR_TIMEOUT ∧
  ∃ s, (h, s) ∈ expectedEventSpecs w ∧ Expired (clock w) s ∧
       p ∈ es_handlers s.
Proof.
  rewrite (new_effects_eq _ _
    (expiry_calls (expired_specs (clock w) (expectedEventSpecs w)))).
  - rewrite elem_of_expiry_calls.
    split; intros (-> & s & Hs); (split; [done|]); exists s.
    + destruct Hs as [Hs Hp]. apply elem_of_expired_specs in Hs. tauto.
    + rewrite elem_of_expired_specs. tauto.
  - unfold exec. rewrite cleanupExpectedEvents_eq. simpl.
    by rewrite trace_after_expiry.
Qed.

Lemma cleanup_unregistered w h p a :
  h ∉ (expectedEventSpecs w).*1 →
  EHandler h p a ∉ new_effects cleanupExpectedEvents w.
Proof.
  intros Hh Hin. apply cleanup_calls in Hin as (_ & s & Hs & _).
  apply Hh, elem_of_keys. eauto.
Qed.

Lemma specs_after_cleanup w :
  expectedEventSpecs (exec cleanupExpectedEvents w) =
  kept_specs (clock w) (expectedEventSpecs w).
Proof.
  unfold exec. rewrite cleanupExpectedEvents_eq. simpl.
  by rewrite specs_after_expiry.
Qed.

(** C2. The sweep, registered by [init] to run every 1000 ms, resolves the
    registered expectations whose age exceeds their timeout: the handlers of
    each are called once with the timeout failure, which is not the
    cancellation failure, and the entry leaves the registry; an entry whose
    age does not exceed its timeout stays as it is; an entry already
    resolved by a live match or by [unexpectEvent], or by an earlier sweep,
    is not expired by the sweep. *)
Theorem C2_sweep_expires (K : APIConstants) (w : World) (ed : EventData) :
  obj_wf (expectedEventSpecs w) →
  let specs := expectedEventSpecs w in
  let w' := exec cleanupExpectedEvents w in
  (* the sweep is what the interval timer of [init] runs *)
  (timers (exec init w) =
     timers w ++ [{| t_millis := 1000; t_repeat := true; t_task := TCleanup |}]
   ∧ run_task K TCleanup = cleanupExpectedEvents) ∧
  result cleanupExpectedEvents w = Ok tt ∧
  (* the calls made: the handlers of the expired entries, entry after
     entry, each handler once *)
  new_effects cleanupExpectedEvents w =
    expiry_calls (expired_specs (clock w) specs) ∧
  (∀ h s, (h, s) ∈ expired_specs (clock w) specs ↔
          (h, s) ∈ specs ∧ Expired (clock w) s) ∧
  ERR_TIMEOUT ≠ ERR_UNEXPECTED ∧
  (* the registry afterwards *)
  (∀ h s, (h, s) ∈ expectedEventSpecs w' ↔
          (h, s) ∈ specs ∧ ¬ Expired (clock w) s) ∧
  (∀ h s, (h, s) ∈ specs → Expired (clock w) s →
          h ∉ (expectedEventSpecs w').*1) ∧
  (* never twice: a later sweep does not call them again *)
  (∀ h s p a now, (h, s) ∈ specs → Expired (clock w) s →
     EHandler h p a ∉ new_effects cleanupExpectedEvents (set_clock now w')) ∧
  (* never after [unexpectEvent] or a live match *)
  (∀ h p a,
     EHandler h p a ∉
       new_effects cleanupExpectedEvents (exec (unexpectEvent h) w)) ∧
  (∀ h s before after p a,
     first_match (ed_type ed) (default ∅ (ed_params ed)) specs
                 h s before after →
     EHandler h p a ∉
       new_effects cleanupExpectedEvents (exec (handleServerEvent ed) w)).
Proof.
  intros Hwf specs w'. subst specs.
  assert (Hgone : ∀ h s, (h, s) ∈ expectedEventSpecs w → Expired (clock w) s →
                         h ∉ (expectedEventSpecs w').*1).
  { intros h s Hs Hx Hin. apply elem_of_keys in Hin as [s' Hs'].
    subst w'. rewrite specs_after_cleanup in Hs'.
    apply elem_of_kept_specs in Hs' as [Hs' Hnx].
    by rewrite (obj_wf_unique _ _ _ _ Hwf Hs' Hs) in Hnx. }
  split_and!.
  - done.
  - done.
  - unfold result. by rewrite cleanupExpectedEvents_eq.
  - apply new_effects_eq. unfold exec. rewrite cleanupExpectedEvents_eq.
    simpl. by rewrite trace_after_expiry.
  - intros h s. apply elem_of_expired_specs.
  - done.
  - intros h s. subst w'. rewrite specs_after_cleanup.
    apply elem_of_kept_specs.
  - exact Hgone.
  - intros h s p a now Hs Hx. apply cleanup_unregistered. simpl.
    by apply (Hgone h s).
  - intros h p a. apply cleanup_unregistered.
    apply obj_get_None, unexpectEvent_removes.
  - intros h s before after p a Hfm. apply cleanup_unregistered.
    destruct (dispatch_spec false (ed_type ed) (default ∅ (ed_params ed))
                            w Hwf)
      as [(h' & s' & before' & after' & Hfm' & Heq)|[Hnone _]].
    + unfold exec. rewrite handleServerEvent_dispatch, Heq.
      change (expectedEventSpecs (after_match false (ed_type ed)
        (default ∅ (ed_params ed)) h' (es_handlers s') (before' ++ after') w))
        with (before' ++ after').
      destruct (first_match_unique _ _ _ _ _ _ _ _ _ _ _ Hwf Hfm Hfm')
        as [<- _].
      destruct Hfm' as (Ho' & _).
      rewrite Ho' in Hwf.
      by apply obj_wf_middle_fresh in Hwf.
    + destruct Hfm as (Ho & Hm & _). exfalso.
      rewrite Ho in Hnone.
      apply Forall_app in Hnone as [_ Hnone].
      apply Forall_cons in Hnone as [Hnone _]. done.
Qed.

(** ** The poll loop *)

Arguments wait : simpl never.
Arguments wait_then : simpl never.
Arguments wait_catch : simpl never.

Lemma forEach_asap {A} (f : A → Task) (l : list A) (w : World) :
  forEach (λ x, PromiseUtils_asap_then (f x)) l w =
    (Ok tt, set_asapQueue (asapQueue w ++ map f l) w).
Proof.
  revert w. induction l as [|x l IH]; intros w; cbn [forEach].
  - mred. simpl. rewrite app_nil_r. unfold set_asapQueue.
    by rewrite world_eta.
  - rewrite bind_eq. unfold PromiseUtils_asap_then at 1, asap at 1. mred.
    rewrite IH. unfold set_asapQueue. simpl. by rewrite <- app_assoc.
Qed.

Section PollLoopFacts.

Variable K : APIConstants.

Lemma wait_eq firstQuick w :
  wait K firstQuick w = (Ok tt, after_wait K firstQuick w).
Proof.
  unfold wait, after_wait, session_of, listen_timeout.
  rewrite bind_eq. unfold gets at 1. cbv beta iota. rewrite bind_eq.
  destruct (truthy_string (sessionId w)) eqn:Hs.
  - mred. simpl. unfold emit. mred. simpl.
    unfold set_inFlight, set_trace, set_sessionId. simpl. done.
  - mred. simpl. unfold emit. mred. simpl. done.
Qed.

Lemma wait_catch_stale rlt error w :
  listeningTime w ≠ rlt → wait_catch K rlt error w = (Ok tt, w).
Proof.
  intros Hne. unfold wait_catch. mred.
  by rewrite bool_decide_eq_false_2.
Qed.

Lemma wait_catch_failure error w :
  ignoreListenErrors w = false →
  wait_catch K (listeningTime w) error w = (Ok tt, after_failure K error w).
Proof.
  intros Hign. unfold wait_catch. mred.
  rewrite bool_decide_eq_true_2 by done. simpl. mred. rewrite Hign. mred.
  simpl. rewrite forEach_asap. mred. unfold setTimeout. mred. done.
Qed.

Lemma wait_catch_suppressed error w :
  ignoreListenErrors w = true →
  wait_catch K (listeningTime w) error w =
    (Ok tt,
     set_timers (timers w ++ [retry_timer (SERVER_RETRY_INTERVAL K)]) w).
Proof.
  intros Hign. unfold wait_catch. mred.
  rewrite bool_decide_eq_true_2 by done. simpl. mred. rewrite Hign. mred.
  done.
Qed.

Lemma wait_then_stale rlt result w :
  listeningTime w ≠ rlt → wait_then rlt result w = (Ok tt, w).
Proof.
  intros Hne. unfold wait_then. mred.
  by rewrite bool_decide_eq_false_2.
Qed.

End PollLoopFacts.

(** C3. A poll response, success or failure, whose request was stamped with
    a [listeningTime] that is no longer the current one is discarded
    entirely: the continuation returns and the world is the one it found,
    so no registry entry, handler, listener, sync callback, error counter,
    recorded error or scheduled poll has changed. This is the case of any
    response to a request of a listening generation after [stopListening],
    and after [stopListening] and [startListening] at a later time. *)
Theorem C3_stale_response_discarded (K : APIConstants) (w : World)
    (requestListeningTime : option Z) :
  listeningTime w ≠ requestListeningTime →
  (∀ result, wait_then requestListeningTime result w = (Ok tt, w)) ∧
  (∀ error, wait_catch K requestListeningTime error w = (Ok tt, w)) ∧
  (∀ outcome,
     listen_settled K requestListeningTime outcome w = (Ok tt, w)) ∧
  (∀ t outcome,
     listen_settled K (Some t) outcome (exec stopListening w) =
       (Ok tt, exec stopListening w)) ∧
  (∀ t outcome, t ≠ clock w →
     let w' := exec (stopListening ;; startListening K) w in
     listen_settled K (Some t) outcome w' = (Ok tt, w')).
Proof.
  intros Hne.
  assert (Hall : ∀ w' rlt outcome, listeningTime w' ≠ rlt →
            listen_settled K rlt outcome w' = (Ok tt, w')).
  { intros w' rlt [result|error] H'; simpl.
    - unfold try_catch. by rewrite wait_then_stale.
    - by apply wait_catch_stale. }
  split_and!.
  - intros result. by apply wait_then_stale.
  - intros error. by apply wait_catch_stale.
  - intros outcome. by apply Hall.
  - intros t outcome. by apply Hall.
  - intros t outcome Ht w'. apply Hall. subst w'. unfold exec.
    rewrite bind_eq. unfold stopListening, modify. cbv beta iota.
    unfold startListening. mred. simpl. mred. rewrite wait_eq. simpl.
    congruence.
Qed.

(** ** What event handling leaves alone *)

Section Preserves.

Variable R : World → World → Prop.

Hypothesis R_refl : ∀ w, R w w.

Hypothesis R_trans : ∀ w1 w2 w3, R w1 w2 → R w2 w3 → R w1 w3.

Lemma preserves_ret {A} (a : A) : preserves R (mret a).
Proof. intros w. apply R_refl. Qed.

Lemma preserves_gets {A} (f : World → A) : preserves R (gets f).
Proof. intros w. apply R_refl. Qed.

Lemma preserves_throw {A} (e : JsError) : preserves R (throw e : M A).
Proof. intros w. apply R_refl. Qed.

Lemma preserves_lift {A} (r : Res A) : preserves R (lift r).
Proof. intros w. apply R_refl. Qed.

Lemma preserves_modify (f : World → World) :
  (∀ w, R w (f w)) → preserves R (modify f).
Proof. intros H w. apply H. Qed.

Lemma preserves_bind {A B} (m : M A) (f : A → M B) :
  preserves R m → (∀ a, preserves R (f a)) → preserves R (m ≫= f).
Proof.
  intros Hm Hf w. rewrite bind_eq. specialize (Hm w).
  destruct (m w) as [[a|e] w1]; simpl in *; [|done].
  eapply R_trans; [exact Hm|apply Hf].
Qed.

Lemma preserves_forEach {A} (f : A → M unit) (l : list A) :
  (∀ x, preserves R (f x)) → preserves R (forEach f l).
Proof.
  intros Hf. induction l as [|x l IH]; cbn [forEach].
  - apply preserves_ret.
  - apply preserves_bind; [apply Hf|done].
Qed.

Lemma preserves_try_catch (body : M unit) (handler : JsError → M unit) :
  preserves R body → (∀ e, preserves R (handler e)) →
  preserves R (try_catch body handler).
Proof.
  intros Hb Hh w. unfold try_catch. specialize (Hb w).
  destruct (body w) as [[a|e] w1]; simpl in *; [done|].
  eapply R_trans; [exact Hb|apply Hh].
Qed.

End Preserves.

Lemma same_poll_state_refl w : same_poll_state w w.
Proof. by repeat split. Qed.

Lemma same_poll_state_trans w1 w2 w3 :
  same_poll_state w1 w2 → same_poll_state w2 w3 → same_poll_state w1 w3.
Proof. unfold same_poll_state. intros H1 H2. intuition congruence. Qed.

Lemma read_event_poll_state r : preserves same_poll_state (read_event r).
Proof.
  intros w. unfold read_event.
  destruct (heap w !! r); apply same_poll_state_refl.
Qed.

Lemma alloc_event_poll_state e : preserves same_poll_state (alloc_event e).
Proof. intros w. by repeat split. Qed.

Ltac preserves_step :=
  first
    [ apply (preserves_bind _ same_poll_state_trans); [|intros ?]
    | apply (preserves_forEach _ same_poll_state_refl same_poll_state_trans);
      intros ?
    | apply (preserves_ret _ same_poll_state_refl)
    | apply (preserves_gets _ same_poll_state_refl)
    | apply (preserves_throw _ same_poll_state_refl)
    | apply (preserves_lift _ same_poll_state_refl)
    | apply read_event_poll_state
    | apply alloc_event_poll_state
    | apply preserves_modify; intros ?; by repeat split
    | match goal with
      | |- preserves _ (match ?x with _ => _ end) => destruct x
      end ].

(** ** Failures and reconnection *)

Section Reconnect.

Variable K : APIConstants.

Lemma failure_cycle_eq error w :
  ignoreListenErrors w = false →
  failure_cycle K error w =
    (Ok tt, after_wait K false (after_failure K error w)).
Proof.
  intros Hign. unfold failure_cycle. mred.
  rewrite wait_catch_failure by done. mred. apply wait_eq.
Qed.

Lemma failure_run errors w :
  ignoreListenErrors w = false →
  timers (exec (forEach (failure_cycle K) errors) w) =
    timers w ++ retry_timers K (listenErrorCount w) errors.
Proof.
  revert w. induction errors as [|e errors IH]; intros w Hign; simpl.
  - by rewrite app_nil_r.
  - unfold exec. rewrite bind_eq, failure_cycle_eq by done.
    cbv beta iota. fold (exec (forEach (failure_cycle K) errors)
                              (after_wait K false (after_failure K e w))).
    rewrite IH by done. simpl. by rewrite <- app_assoc.
Qed.

Lemma retry_timers_lookup count errors i t :
  retry_timers K count errors !! i = Some t →
  t = retry_timer (reconnect_seconds K (count + Z.of_nat i + 1)).
Proof.
  revert count i. induction errors as [|e errors IH]; intros count i;
    simpl; [done|].
  destruct i as [|i]; simpl.
  - intros [= <-]. do 2 f_equal. lia.
  - intros H. apply IH in H as ->. do 2 f_equal. lia.
Qed.

Lemma length_retry_timers count errors :
  length (retry_timers K count errors) = length errors.
Proof.
  revert count. induction errors as [|e errors IH]; intros count; simpl;
    [done|]. by rewrite IH.
Qed.

Lemma try_catch_swallow (body : M unit) (w : World) :
  (try_catch body (λ _, mret tt) w).1 = Ok tt.
Proof. unfold try_catch. by destruct (body w) as [[[]|e] w']. Qed.

Lemma wait_then_current_eq result w :
  wait_then (listeningTime w) result w =
    try_catch (process_result result) (λ _, mret tt)
              (after_success_reset w).
Proof.
  unfold wait_then. rewrite bind_eq. unfold gets at 1. cbv beta iota.
  by rewrite bool_decide_eq_true_2.
Qed.

Lemma process_result_poll_state result :
  preserves same_poll_state (process_result result).
Proof. unfold process_result. repeat preserves_step. Qed.

(** A success that is not stale. *)
Lemma wait_then_current result w :
  let w' := exec (wait_then (listeningTime w) result) w in
  result_ok (wait_then (listeningTime w) result w).1 ∧
  listenErrorCount w' = 0 ∧ syncListenError w' = None ∧
  listeningTime w' = listeningTime w ∧
  ignoreListenErrors w' = ignoreListenErrors w ∧
  timers w' = timers w.
Proof.
  unfold exec. rewrite wait_then_current_eq.
  pose proof (try_catch_swallow (process_result result)
                                (after_success_reset w)) as Hok.
  assert (Hp : preserves same_poll_state
                 (try_catch (process_result result) (λ _, mret tt))).
  { apply (preserves_try_catch _ same_poll_state_trans);
      [apply process_result_poll_state|].
    intros ?. apply (preserves_ret _ same_poll_state_refl). }
  specialize (Hp (after_success_reset w)).
  destruct Hp as (H1 & H2 & H3 & H4 & _ & _ & _ & H8 & _).
  rewrite H1, H2, H3, H4, H8. split; [by rewrite Hok|]. done.
Qed.

End Reconnect.

(** C9. With error suppression off, a failure that is not stale schedules
    the next [wait] after [reconnectSeconds] seconds, the value that the
    sync callbacks are given together with the error: 1 when the count of
    consecutive failures, this one included, is at most 2, and the retry
    interval otherwise. A success resets the count, so that in a run of
    failures after a success the first two retry after 1 second and every
    later one after the retry interval. *)
Theorem C9_reconnect_delay (K : APIConstants) (w : World)
    (result : option (list EventData)) (error : JsError)
    (errors : list JsError) :
  ignoreListenErrors w = false →
  (let w' := exec (wait_catch K (listeningTime w) error) w in
   let count := listenErrorCount w + 1 in
   let reconnectSeconds :=
     if bool_decide (count ≤ 2) then 1 else SERVER_RETRY_INTERVAL K in
   listenErrorCount w' = count ∧
   syncListenError w' = Some error ∧
   timers w' =
     timers w ++ [{| t_millis := reconnectSeconds * 1000; t_repeat := false;
                     t_task := TWait |}] ∧
   asapQueue w' =
     asapQueue w ++
     map (λ c, TSyncErr c reconnectSeconds) (syncListenCallbacks w) ∧
   ∀ c, new_effects (run_task K (TSyncErr c reconnectSeconds)) w' =
          [ESync c (Some error) (Some reconnectSeconds)]) ∧
  (let ws := exec (wait_then (listeningTime w) result) w in
   listenErrorCount ws = 0 ∧
   ∃ new,
     timers (exec (forEach (failure_cycle K) errors) ws) = timers ws ++ new ∧
     length new = length errors ∧
     ∀ i t, new !! i = Some t →
       t_task t = TWait ∧ t_repeat t = false ∧
       ((i < 2)%nat → t_millis t = 1 * 1000) ∧
       ((2 ≤ i)%nat → t_millis t = SERVER_RETRY_INTERVAL K * 1000)).
Proof.
  intros Hign. split.
  - cbv zeta. unfold exec. rewrite wait_catch_failure by done.
    split_and!; try done.
    intros c. apply new_effects_eq. done.
  - cbv zeta.
    destruct (wait_then_current result w) as (_ & Hc & _ & _ & Hi & _).
    split; [done|].
    exists (retry_timers K 0 errors). split_and!.
    + rewrite failure_run by congruence. by rewrite Hc.
    + apply length_retry_timers.
    + intros i t Ht. apply retry_timers_lookup in Ht as ->.
      unfold retry_timer, reconnect_seconds, FAST_RECONNECT_LISTEN_ERRORS.
      simpl. split_and!; try done.
      * intros Hlt. rewrite bool_decide_eq_true_2 by lia. done.
      * intros Hge. rewrite bool_decide_eq_false_2 by lia. done.
Qed.

(** ** Listeners *)

(** C5, as stated, fails: with two listeners of which the first throws, the
    second is not called. *)
Lemma C5_counterexample : ¬ reaches_all_listeners w_listeners 0%nat.
Proof.
  intros H.
  destruct (H {| l_callback := quiet_callback; l_thisArg := VUndef;
                 l_args := {| args_callback := quiet_callback;
                              args_rest := [] |} |}) as [c Hc].
  - vm_compute. apply list_elem_of_further, list_elem_of_here.
  - vm_compute in Hc. apply elem_of_cons in Hc as [Hc|Hc]; [done|].
    by apply elem_of_nil in Hc.
Qed.

(** C5, amended. With listeners that do not call back into the module
    while they run, a dispatch calls the registered listeners in
    registration order, each with a clone of the event of its own as first
    argument, up to and including the first listener that throws: that
    exception ends the dispatch and is its result, and the listeners
    registered after it are not called. When no listener throws, all of
    them are called and the dispatch returns normally; it returns normally
    in that case only. *)
Theorem C5_dispatch_until_first_throw (w : World) (r : Ref) (e : Event) :
  heap w !! r = Some e →
  let called := (reached e (eventListeners w)).1 in
  let w' := exec (callEventListeners r) w in
  (* who is called, in which order, with what *)
  called `prefix_of` eventListeners w ∧
  new_effects (callEventListeners r) w =
    imap (λ i l, EListener (cb_id (l_callback l)) (l_thisArg l)
                   [AEvent (length (heap w) + i)%nat; AArguments (l_args l)])
         called ∧
  (* the clones are new objects, one for each call *)
  heap w' = heap w ++ replicate (length called) (clone e) ∧
  (* no listener throws: all are called *)
  (Forall (λ l, cb_run (l_callback l) (clone e) = None) (eventListeners w) →
   called = eventListeners w ∧ result (callEventListeners r) w = Ok tt) ∧
  (* a listener throws: it is the last one called *)
  (∀ err, result (callEventListeners r) w = Throw err →
     ∃ l rest, eventListeners w = called ++ rest ∧ last called = Some l ∧
               cb_run (l_callback l) (clone e) = Some err) ∧
  (* the first listener that throws: it and those before it are called,
     none after it, and the dispatch throws what it threw *)
  (∀ before l after err,
     eventListeners w = before ++ l :: after →
     Forall (λ l', cb_run (l_callback l') (clone e) = None) before →
     cb_run (l_callback l) (clone e) = Some err →
     called = before ++ [l] ∧
     result (callEventListeners r) w = Throw err ∧
     new_effects (callEventListeners r) w =
       imap (λ i l, EListener (cb_id (l_callback l)) (l_thisArg l)
                      [AEvent (length (heap w) + i)%nat;
                       AArguments (l_args l)])
            (before ++ [l])) ∧
  (* the dispatch returns normally only when no listener throws *)
  (result (callEventListeners r) w = Ok tt →
   Forall (λ l, cb_run (l_callback l) (clone e) = None) (eventListeners w)).
Proof.
  intros Hr called w'. subst called w'.
  pose proof (callEventListeners_eq r e w Hr) as Heq.
  assert (Htr : new_effects (callEventListeners r) w =
            imap (λ i l, listener_call l (length (heap w) + i)%nat)
                 (reached e (eventListeners w)).1).
  { apply new_effects_eq. unfold exec. by rewrite Heq. }
  unfold exec, result. rewrite Heq. cbn [fst snd]. split_and!.
  - apply reached_prefix.
  - exact Htr.
  - done.
  - intros Hall. by rewrite (reached_all e _ Hall).
  - intros err Herr.
    destruct (reached e (eventListeners w)).2 as [err'|] eqn:Hx;
      simpl in Herr; [|done].
    injection Herr as ->.
    apply reached_throw in Hx as (l & rest & Hp & Hl & Hrun). eauto.
  - intros before l after err Hls Hnone Hl.
    rewrite Htr, Hls, (reached_first_throw e before l after err Hnone Hl).
    done.
  - intros Hok. apply reached_ok.
    by destruct (reached e (eventListeners w)).2.
Qed.

(** ** Event records without params *)

(** C10. For a record of a poll response without params (absent or null),
    [handleServerEvent] builds the event with an empty params object; the
    look-up of the expectation is given that object and does not throw,
    so that the call fails only when a listener does; an expectation
    registered with null or empty params (and no other type) matches the
    event, and the event is then marked expected. *)
Theorem C10_missing_params_are_empty (w : World) (type : string) :
  obj_wf (expectedEventSpecs w) →
  let ed := {| ed_type := type; ed_params := None |} in
  let w' := exec (handleServerEvent ed) w in
  (* the event object, and what the look-up is given *)
  (∃ e, heap w' !! length (heap w) = Some e ∧ ev_type e = type ∧
        ev_params e = ∅) ∧
  (∃ found, lookupExpectedEventHandle type (Some ∅) w = (Ok found, w)) ∧
  (* the call throws only what a listener threw *)
  (∀ err, result (handleServerEvent ed) w = Throw err →
     ∃ l e, l ∈ eventListeners w ∧ cb_run (l_callback l) e = Some err) ∧
  (* entries without params, or with empty params, match *)
  (∀ s, es_params s = None ∨ es_params s = Some ∅ →
        (truthy_string (es_type s) = true → es_type s = Some type) →
        spec_matches type (Some ∅) s = Ok true) ∧
  (∀ h s, (h, s) ∈ expectedEventSpecs w →
        es_params s = None ∨ es_params s = Some ∅ →
        (truthy_string (es_type s) = true → es_type s = Some type) →
        ∃ e, heap w' !! length (heap w) = Some e ∧ ev_expected e = true).
Proof.
  intros Hwf ed w'.
  assert (Hmatch : ∀ s, es_params s = None ∨ es_params s = Some ∅ →
            (truthy_string (es_type s) = true → es_type s = Some type) →
            Matches type ∅ s).
  { intros s Hp Ht. split; [done|]. intros sp Hsp key value Hkv.
    destruct Hp as [Hp|Hp]; rewrite Hp in Hsp; [done|].
    injection Hsp as <-. by rewrite lookup_empty in Hkv. }
  pose proof (dispatch_spec false type ∅ w Hwf) as Hd.
  assert (Hexec : ∃ b, heap w' !! length (heap w)
                       = Some (new_Event type ∅ b false) ∧
            (b = false →
             Forall (λ kv, ¬ Matches type ∅ kv.2) (expectedEventSpecs w)) ∧
            result (handleServerEvent ed) w =
              outcome (reached (new_Event type ∅ b false)
                               (eventListeners w)).2).
  { assert (Hh : handleServerEvent ed w = dispatch false type ∅ w) by done.
    subst w'. unfold exec, result. rewrite Hh.
    destruct Hd as [(h & s & before & after & Hfm & ->)|[Hnone ->]].
    - exists true. cbn [fst snd]. rewrite heap_after_match.
      by rewrite lookup_app_r, Nat.sub_diag.
    - exists false. cbn [fst snd]. rewrite heap_after_no_match.
      by rewrite lookup_app_r, Nat.sub_diag. }
  destruct Hexec as (b & Hheap & Hnone & Hres).
  split_and!.
  - eexists. split; [exact Hheap|]. done.
  - destruct (lookup_object type ∅ w)
      as [(h & s & before & after & -> & _)|[-> _]]; eauto.
  - intros err Herr. rewrite Hres in Herr.
    destruct (reached (new_Event type ∅ b false) (eventListeners w)).2
      as [err'|] eqn:Hx; simpl in Herr; [|done].
    injection Herr as ->.
    apply reached_throw in Hx as (l & rest & Hp & Hl & Hrun).
    exists l. eexists. split; [|exact Hrun].
    rewrite <- Hp. apply elem_of_app. left.
    apply last_Some in Hl as [l' ->]. apply elem_of_app. right.
    apply list_elem_of_here.
  - intros s Hp Ht. rewrite spec_matches_matchesb. f_equal.
    apply matchesb_Matches. by apply Hmatch.
  - intros h s Hin Hp Ht. destruct b.
    + eexists. split; [exact Hheap|done].
    + exfalso. specialize (Hnone eq_refl). rewrite Forall_forall in Hnone.
      apply (Hnone (h, s) Hin). by apply Hmatch.
Qed.

(** ** Waiting for an expected event *)

Arguments new_promise : simpl never.

Lemma waitExpectedEvent_no_match type params w :
  Forall (λ kv, ¬ Matches type params kv.2) (expectedEventSpecs w) →
  waitExpectedEvent type (Some params) w =
    (Ok (length (promises w)),
     set_promises (promises w ++ [Rejected ERR_NO_SUCH]) w).
Proof.
  intros Hnone. unfold waitExpectedEvent. rewrite bind_eq.
  destruct (lookup_object type params w)
    as [(h & s & before & after & _ & Ho & Hm & _)|[-> _]]; [|done].
  exfalso. rewrite Ho in Hnone. apply Forall_app in Hnone as [_ Hnone].
  by apply Forall_cons in Hnone as [Hnone _].
Qed.

Lemma waitExpectedEvent_match type params w h s before after :
  obj_wf (expectedEventSpecs w) →
  first_match type params (expectedEventSpecs w) h s before after →
  waitExpectedEvent type (Some params) w =
    (Ok (length (promises w)),
     set_expectedEventSpecs
       (before ++ (h, add_handler (length (promises w)) s) :: after)
       (set_promises (promises w ++ [Pending]) w)).
Proof.
  intros Hwf Hfm. unfold waitExpectedEvent. rewrite bind_eq.
  destruct (lookup_object type params w)
    as [(h' & s' & before' & after' & -> & Hfm')|[_ Hnone]].
  - destruct (first_match_unique _ _ _ _ _ _ _ _ _ _ _ Hwf Hfm Hfm')
      as [<- <-].
    destruct Hfm as (Ho & _). cbv beta iota. rewrite bind_eq.
    unfold new_promise at 1. cbv beta iota. mred.
    cbn [expectedEventSpecs set_promises]. rewrite Ho in Hwf |- *.
    rewrite obj_get_middle by done. mred.
    cbn [expectedEventSpecs set_promises]. rewrite Ho.
    by rewrite obj_set_middle.
  - exfalso. destruct Hfm as (Ho & Hm & _). rewrite Ho in Hnone.
    apply Forall_app in Hnone as [_ Hnone].
    by apply Forall_cons in Hnone as [Hnone _].
Qed.

(** With no candidate params, the callback of the look-up throws on an
    entry of a compatible type whose params have a key. *)
Lemma spec_matches_null type s sparams :
  (truthy_string (es_type s) = true → es_type s = Some type) →
  es_params s = Some sparams → sparams ≠ ∅ →
  spec_matches type None s =
    Throw (TypeError "Cannot read properties of null").
Proof.
  intros Ht Hp Hne. unfold spec_matches.
  destruct (truthy_string (es_type s)) eqn:Htr; simpl.
  - rewrite bool_decide_eq_true_2 by auto. simpl. rewrite Hp.
    unfold ObjectUtils_filter.
    destruct (map_to_list sparams) as [|[k v] l] eqn:Hl.
    + by apply map_to_list_empty_iff in Hl.
    + done.
  - rewrite Hp. unfold ObjectUtils_filter.
    destruct (map_to_list sparams) as [|[k v] l] eqn:Hl.
    + by apply map_to_list_empty_iff in Hl.
    + done.
Qed.

Lemma waitExpectedEvent_null_throws type w h s sparams rest :
  expectedEventSpecs w = (h, s) :: rest →
  (truthy_string (es_type s) = true → es_type s = Some type) →
  es_params s = Some sparams → sparams ≠ ∅ →
  waitExpectedEvent type None w =
    (Throw (TypeError "Cannot read properties of null"), w).
Proof.
  intros Ho Ht Hp Hne. unfold waitExpectedEvent, lookupExpectedEventHandle.
  mred. rewrite Ho. simpl.
  by rewrite (spec_matches_null type s sparams).
Qed.

(** C7, the failing input: with the expectation [{type: "x", params:
    {a: 1}}] registered, [waitExpectedEvent("x")], params omitted, throws a
    [TypeError] where the same call with the params returns a promise, and
    where a call for another type returns a rejected promise. *)
Theorem C7_waitExpectedEvent_without_params_throws :
  waitExpectedEvent "x" None w_expect_x =
    (Throw (TypeError "Cannot read properties of null"), w_expect_x) ∧
  (∃ w', waitExpectedEvent "x" (Some {[ "a" := VNum 1 ]}) w_expect_x
         = (Ok 0%nat, w') ∧ promises w' = [Pending]) ∧
  (∃ w', waitExpectedEvent "y" None w_expect_x = (Ok 0%nat, w') ∧
         promises w' = [Rejected ERR_NO_SUCH] ∧
         expectedEventSpecs w' = expectedEventSpecs w_expect_x).
Proof.
  split_and!.
  - apply (waitExpectedEvent_null_throws "x" w_expect_x 1%N
             {| es_type := Some "x"; es_params := Some {[ "a" := VNum 1 ]};
                es_added := 1000; es_timeout := DEFAULT_EXPECT_TIMEOUT;
                es_handlers := [] |}
             {[ "a" := VNum 1 ]} []).
    + reflexivity.
    + done.
    + reflexivity.
    + apply insert_non_empty.
  - eexists. split; [vm_compute; reflexivity|done].
  - eexists. split; [vm_compute; reflexivity|done].
Qed.

(** ** A batch of events *)

(** C4, as stated, fails: in the batch [a; b] the listener is called with
    [a] before the handler of the expectation that [b] matches is called. *)
Lemma C4_counterexample :
  ¬ resolution_before_fanout
      (new_effects (wait_then (listeningTime w_batch) (Some batch_ab))
                   w_batch).
Proof.
  intros H.
  specialize (H 1%nat 0%nat (EHandler 1 0%nat (HEvent 2%nat))
    (EListener 2 VUndef
       [AEvent 1%nat;
        AArguments {| args_callback := quiet_callback; args_rest := [] |}])).
  assert (1 < 0)%nat; [|lia].
  apply H; [vm_compute; reflexivity|vm_compute; reflexivity|done|done].
Qed.

Lemma delivery_listener_calls w' type params expected fake base ls :
  (∀ i, (i < length ls)%nat →
        heap w' !! (base + i)%nat
          = Some (clone (new_Event type params expected fake))) →
  Forall (delivery w' type params expected fake) (listener_calls base ls).
Proof.
  intros Hheap. rewrite Forall_forall. intros x Hx.
  apply elem_of_lookup_imap in Hx as (i & l & -> & Hl).
  unfold delivery, listener_call. do 4 eexists.
  exists (clone (new_Event type params expected fake)).
  split; [reflexivity|]. split; [|done].
  apply Hheap. by eapply lookup_lt_Some.
Qed.

Lemma handleServerEvent_segment w ed :
  obj_wf (expectedEventSpecs w) →
  ∃ seg, trace (exec (handleServerEvent ed) w) = trace w ++ seg ∧
         event_segment w ed seg ∧
         obj_wf (expectedEventSpecs (exec (handleServerEvent ed) w)).
Proof.
  intros Hwf. unfold event_segment. cbv zeta.
  set (type := ed_type ed). set (params := default ∅ (ed_params ed)).
  assert (Hh : handleServerEvent ed w = dispatch false type params w) by done.
  unfold exec. rewrite Hh.
  destruct (dispatch_spec false type params w Hwf)
    as [(h & s & before & after & Hfm & ->)|[Hnone ->]]; cbn [fst snd].
  - eexists. split; [apply trace_after_match|]. split.
    + do 2 eexists. exists true. split; [reflexivity|]. split.
      * left. split; [done|]. by exists h, s, before, after.
      * apply delivery_listener_calls. intros i Hi.
        rewrite heap_after_match.
        rewrite lookup_app_r by lia.
        replace (S (length (heap w)) + i - length (heap w))%nat
          with (S i) by lia.
        simpl. by apply lookup_replicate_2.
    + change (obj_wf (before ++ after)). destruct Hfm as (Ho & _).
      rewrite <- (obj_delete_middle before h s after) by by rewrite <- Ho.
      apply obj_delete_wf. by rewrite <- Ho.
  - eexists. split; [apply trace_after_no_match|]. split.
    + exists []. eexists. exists false. split; [reflexivity|]. split.
      * right. by split.
      * apply delivery_listener_calls. intros i Hi.
        rewrite heap_after_no_match.
        rewrite lookup_app_r by lia.
        replace (S (length (heap w)) + i - length (heap w))%nat
          with (S i) by lia.
        simpl. by apply lookup_replicate_2.
    + done.
Qed.

Lemma batch_trace_forEach batch w :
  obj_wf (expectedEventSpecs w) →
  ∃ tr, trace (exec (forEach handleServerEvent batch) w) = trace w ++ tr ∧
        batch_trace w batch tr.
Proof.
  revert w. induction batch as [|ed batch IH]; intros w Hwf.
  - exists []. split; [by rewrite app_nil_r|done].
  - destruct (handleServerEvent_segment w ed Hwf) as (seg & Htr & Hseg & Hwf').
    cbn [forEach batch_trace]. unfold exec, result in *. rewrite bind_eq.
    destruct (handleServerEvent ed w) as [[[]|err] w1] eqn:Hh;
      cbn [fst snd] in *.
    + destruct (IH w1 Hwf') as (tr' & Htr' & Hb).
      exists (seg ++ tr'). split.
      * by rewrite Htr', Htr, app_assoc.
      * by exists seg, tr'.
    + exists seg. split; [done|]. exists seg, []. by rewrite app_nil_r.
Qed.

Lemma try_catch_swallow_world (body : M unit) (w : World) :
  (try_catch body (λ _, mret tt) w).2 = (body w).2.
Proof. unfold try_catch. by destruct (body w) as [[[]|e] w']. Qed.

Lemma wait_then_batch batch w :
  wait_then (listeningTime w) (Some batch) w =
    try_catch (forEach handleServerEvent batch) (λ _, mret tt)
              (batch_start w).
Proof.
  rewrite wait_then_current_eq. unfold try_catch, process_result.
  rewrite bind_eq. unfold gets at 1. cbv beta iota. rewrite bind_eq.
  rewrite forEach_asap. cbv beta iota.
  assert (Hs : set_asapQueue
            (asapQueue (after_success_reset w) ++
             map TSyncOk (syncListenCallbacks (after_success_reset w)))
            (after_success_reset w) = batch_start w).
  { unfold batch_start, after_success_reset, set_asapQueue. simpl.
    by rewrite <- app_assoc. }
  rewrite Hs. by destruct batch.
Qed.

(** C4, amended. The records of a batch are handled one after the other in
    the order of the response. For each record, the handlers of the
    expectation it matches are called before that event is delivered to any
    listener, and every delivery of an event that matched an expectation
    carries [expected = true]; the deliveries of a record come before the
    resolution for the records after it. *)
Theorem C4_resolution_before_delivery_per_event (w : World)
    (batch : list EventData) :
  obj_wf (expectedEventSpecs w) →
  wait_then (listeningTime w) (Some batch) w =
    try_catch (forEach handleServerEvent batch) (λ _, mret tt)
              (batch_start w) ∧
  batch_trace (batch_start w) batch
    (new_effects (wait_then (listeningTime w) (Some batch)) w).
Proof.
  intros Hwf. split; [apply wait_then_batch|].
  destruct (batch_trace_forEach batch (batch_start w) Hwf) as (tr & Htr & Hb).
  rewrite (new_effects_eq _ _ tr); [done|].
  unfold exec in *. by rewrite wait_then_batch, try_catch_swallow_world.
Qed.

(** ** Waiters and the queue of deferred callbacks *)

Section Queue.

Variable K : APIConstants.

Lemma run_next_cons t q w :
  asapQueue w = t :: q →
  run_next K w = run_task K t (set_asapQueue q w).
Proof. intros Hq. unfold run_next. mred. by rewrite Hq. Qed.

Lemma run_next_nil w : asapQueue w = [] → run_next K w = (Ok tt, w).
Proof. intros Hq. unfold run_next. mred. by rewrite Hq. Qed.

Lemma asapQueue_after_expiry xs w :
  asapQueue (after_expiry xs w) =
    asapQueue w ++
    concat (map (λ hs : Handle * EventSpec,
                   map (λ p, TSettle 1 p (HError ERR_TIMEOUT))
                       (es_handlers hs.2)) xs).
Proof.
  revert w. induction xs as [|hs xs IH]; intros w; simpl.
  - by rewrite app_nil_r.
  - rewrite IH. simpl. by rewrite <- app_assoc.
Qed.

Lemma heap_after_expiry xs w : heap (after_expiry xs w) = heap w.
Proof.
  revert w. induction xs as [|hs xs IH]; intros w; simpl; [done|].
  by rewrite IH.
Qed.

Lemma promises_after_expiry xs w :
  promises (after_expiry xs w) = promises w.
Proof.
  revert w. induction xs as [|hs xs IH]; intros w; simpl; [done|].
  by rewrite IH.
Qed.

(** A deferred callback returns; it only adds to the queue, leaves the
    event objects alone, registers nothing, and the settling it defers is
    its own or that of handlers of registered expectations. *)
Lemma run_task_total t w :
  ∃ added w1,
    run_task K t w = (Ok tt, w1) ∧
    asapQueue w1 = asapQueue w ++ added ∧
    heap w1 = heap w ∧
    (∀ kv, kv ∈ expectedEventSpecs w1 → kv ∈ expectedEventSpecs w) ∧
    (∀ n p a, TSettle n p a ∈ added →
       t = TSettle (S n) p a ∨ registered_handler w p) ∧
    match t with
    | TSettle O p a => w1 = exec (settle p a) w
    | _ => promises w1 = promises w
    end.
Proof.
  destruct t as [| |n p a|c|c seconds]; simpl.
  - exists [], (after_wait K false w). rewrite wait_eq. simpl.
    rewrite app_nil_r. split_and!; try done.
    intros n p a Hin. by apply elem_of_nil in Hin.
  - eexists _, _. rewrite cleanupExpectedEvents_eq.
    split; [reflexivity|]. rewrite asapQueue_after_expiry.
    rewrite heap_after_expiry, specs_after_expiry, promises_after_expiry.
    simpl. split_and!; try done.
    + intros [h s] Hin. by apply elem_of_kept_specs in Hin as [Hin _].
    + intros n p a Hin. right.
      apply list_elem_of_In, in_concat in Hin as (l & Hl & Hin).
      apply list_elem_of_In in Hl, Hin.
      apply list_elem_of_fmap in Hl as ([h s] & -> & Hs).
      apply list_elem_of_fmap in Hin as (p' & [= -> -> ->] & Hp').
      apply elem_of_expired_specs in Hs as [Hs _]. by exists h, s.
  - destruct n as [|n].
    + exists [], (exec (settle p a) w). split; [done|].
      rewrite app_nil_r. unfold exec, settle, modify. simpl.
      split_and!; try done.
      * by destruct (promises w !! p) as [[]|].
      * by destruct (promises w !! p) as [[]|].
      * by destruct (promises w !! p) as [[]|].
      * intros n p' a' Hin. by apply elem_of_nil in Hin.
    + exists [TSettle n p a]. eexists. split; [reflexivity|]. simpl.
      split_and!; try done.
      intros n' p' a' Hin. apply list_elem_of_singleton in Hin.
      injection Hin as -> -> ->. by left.
  - exists []. eexists. split; [reflexivity|]. simpl. rewrite app_nil_r.
    split_and!; try done.
    intros n p a Hin. by apply elem_of_nil in Hin.
  - exists []. eexists. split; [reflexivity|]. simpl. rewrite app_nil_r.
    split_and!; try done.
    intros n p a Hin. by apply elem_of_nil in Hin.
Qed.

End Queue.

Section Delivery.

Variable K : APIConstants.

Lemma settle_fields p a w :
  asapQueue (exec (settle p a) w) = asapQueue w ∧
  heap (exec (settle p a) w) = heap w ∧
  expectedEventSpecs (exec (settle p a) w) = expectedEventSpecs w.
Proof.
  unfold exec, settle, modify. simpl.
  by destruct (promises w !! p) as [[]|].
Qed.

Lemma settle_other p a w p' :
  p ≠ p' → promises (exec (settle p a) w) !! p' = promises w !! p'.
Proof.
  intros Hne. unfold exec, settle, modify. simpl.
  destruct (promises w !! p) as [[]|]; simpl; try done.
  by rewrite list_lookup_insert_ne.
Qed.

Lemma settle_pending p r w :
  promises w !! p = Some Pending →
  promises (exec (settle p (HEvent r)) w) !! p = Some (Fulfilled r).
Proof.
  intros Hp. unfold exec, settle, modify. simpl. rewrite Hp. simpl.
  apply list_lookup_insert_eq. by eapply lookup_lt_Some.
Qed.

Lemma settle_settled p a w p' st :
  promises w !! p' = Some st → st ≠ Pending →
  promises (exec (settle p a) w) !! p' = Some st.
Proof.
  intros Hp' Hst. destruct (decide (p = p')) as [->|Hne].
  - unfold exec, settle, modify. simpl. rewrite Hp'. by destruct st.
  - by rewrite settle_other.
Qed.

Lemma run_next_total w :
  ∃ w1, run_next K w = (Ok tt, w1).
Proof.
  destruct (asapQueue w) as [|t q] eqn:Hq.
  - exists w. by apply run_next_nil.
  - rewrite (run_next_cons K t q) by done.
    destruct (run_task_total K t (set_asapQueue q w)) as (? & w1 & H & _).
    eauto.
Qed.

(** A promise that is settled stays as it is. *)
Lemma run_next_settled w p st :
  promises w !! p = Some st → st ≠ Pending →
  promises (exec (run_next K) w) !! p = Some st.
Proof.
  intros Hp Hst. unfold exec.
  destruct (asapQueue w) as [|t q] eqn:Hq.
  - by rewrite run_next_nil.
  - rewrite (run_next_cons K t q) by done.
    destruct (run_task_total K t (set_asapQueue q w))
      as (added & w1 & -> & _ & _ & _ & _ & Hpr). simpl.
    destruct t as [| |[|n] p' a'|c|c s]; try by rewrite Hpr.
    subst w1. by apply settle_settled.
Qed.

Lemma in_delivery_run_next p r e w :
  in_delivery p r e w → in_delivery p r e (exec (run_next K) w).
Proof.
  intros (Hpr & Hq & Hnr & Hheap). unfold exec.
  destruct (asapQueue w) as [|t q] eqn:Hw.
  { rewrite run_next_nil by done. simpl. unfold in_delivery.
    rewrite Hw. by split_and!. }
  rewrite (run_next_cons K t q) by done.
  destruct (run_task_total K t (set_asapQueue q w))
    as (added & w1 & -> & Hq1 & Hh1 & Hs1 & Hadd & Hpr1).
  cbn [fst snd]. simpl in Hq1, Hh1, Hs1.
  assert (Hnr0 : ¬ registered_handler (set_asapQueue q w) p) by done.
  unfold in_delivery. split_and!.
  - destruct t as [| |[|n] p' a'|c|c s]; try by rewrite Hpr1.
    subst w1. destruct (decide (p' = p)) as [->|Hne].
    + rewrite (Hq 0%nat a') by apply list_elem_of_here.
      destruct Hpr as [Hpr|Hpr].
      * right. by apply settle_pending.
      * right. by apply settle_settled.
    + by rewrite settle_other.
  - intros n a Hin. rewrite Hq1 in Hin.
    apply elem_of_app in Hin as [Hin|Hin].
    + apply (Hq n). by apply list_elem_of_further.
    + apply Hadd in Hin as [->|Hreg]; [|done].
      apply (Hq (S n)). apply list_elem_of_here.
  - intros (h & s & Hin & Hp). apply Hnr. exists h, s.
    split; [|done]. by apply Hs1 in Hin.
  - by rewrite Hh1.
Qed.

Lemma run_queue_S n w :
  run_queue K (S n) w = run_queue K n (exec (run_next K) w).
Proof.
  cbn [run_queue]. rewrite bind_eq. unfold exec.
  by destruct (run_next_total w) as [w1 ->].
Qed.

Lemma run_queue_1 w : exec (run_queue K 1) w = exec (run_next K) w.
Proof. unfold exec at 1. by rewrite run_queue_S. Qed.

Lemma run_queue_add n m w :
  exec (run_queue K (n + m)) w =
  exec (run_queue K m) (exec (run_queue K n) w).
Proof.
  revert w. induction n as [|n IH]; intros w; [done|].
  unfold exec in *. cbn [Nat.add]. rewrite !run_queue_S. apply IH.
Qed.

Lemma in_delivery_run_queue n p r e w :
  in_delivery p r e w → in_delivery p r e (exec (run_queue K n) w).
Proof.
  revert w. induction n as [|n IH]; intros w H; [done|].
  unfold exec. rewrite run_queue_S. apply IH.
  by apply in_delivery_run_next.
Qed.

Lemma run_queue_settled n w p st :
  promises w !! p = Some st → st ≠ Pending →
  promises (exec (run_queue K n) w) !! p = Some st.
Proof.
  revert w. induction n as [|n IH]; intros w Hp Hst; [done|].
  unfold exec. rewrite run_queue_S. apply IH; [|done].
  by apply run_next_settled.
Qed.

(** The queue is served in order: what is queued behind [length q]
    callbacks is at the head after as many turns. *)
Lemma queue_progress q t q' w :
  asapQueue w = q ++ t :: q' →
  ∃ added,
    asapQueue (exec (run_queue K (length q)) w) = t :: q' ++ added.
Proof.
  revert q' w. induction q as [|t0 q IH]; intros q' w Hq.
  - exists []. by rewrite app_nil_r.
  - cbn [length]. unfold exec. rewrite run_queue_S.
    unfold exec. rewrite (run_next_cons K t0 (q ++ t :: q')) by done.
    destruct (run_task_total K t0 (set_asapQueue (q ++ t :: q') w))
      as (added & w1 & -> & Hq1 & _). cbn [fst snd]. simpl in Hq1.
    destruct (IH (q' ++ added) w1) as [added' Hq'].
    { by rewrite Hq1, <- app_assoc. }
    exists (added ++ added'). unfold exec in Hq'. rewrite Hq'.
    by rewrite <- app_assoc.
Qed.

(** A promise in delivery whose handler has been called is fulfilled with
    the event after finitely many turns of the queue, and stays so. *)
Lemma delivery_completes p r e w :
  in_delivery p r e w →
  TSettle 1 p (HEvent r) ∈ asapQueue w →
  ∃ n, ∀ m, (n ≤ m)%nat →
    promises (exec (run_queue K m) w) !! p = Some (Fulfilled r) ∧
    heap (exec (run_queue K m) w) !! r = Some e.
Proof.
  intros Hd Hin.
  apply list_elem_of_split in Hin as (q & q' & Hq).
  destruct (queue_progress q _ q' w Hq) as [added Hq1].
  set (w1 := exec (run_queue K (length q)) w) in *.
  assert (Hd1 : in_delivery p r e w1) by by apply in_delivery_run_queue.
  (* the handler's first deferred callback runs *)
  set (w2 := exec (run_next K) w1).
  assert (Hq2 : asapQueue w2 = (q' ++ added) ++ [TSettle 0 p (HEvent r)]).
  { subst w2. unfold exec. by rewrite (run_next_cons K _ _ w1 Hq1). }
  assert (Hd2 : in_delivery p r e w2) by by apply in_delivery_run_next.
  destruct (queue_progress (q' ++ added) _ [] w2 Hq2) as [added' Hq3].
  set (w3 := exec (run_queue K (length (q' ++ added))) w2) in *.
  assert (Hd3 : in_delivery p r e w3) by by apply in_delivery_run_queue.
  (* the second one runs and settles the promise *)
  set (w4 := exec (run_next K) w3).
  assert (Hp4 : promises w4 !! p = Some (Fulfilled r)).
  { subst w4. unfold exec. rewrite (run_next_cons K _ _ w3 Hq3).
    cbn [run_task]. destruct Hd3 as ([Hp|Hp] & _).
    - apply (settle_pending p r (set_asapQueue _ w3)). exact Hp.
    - apply (settle_settled p _ (set_asapQueue _ w3)); [exact Hp|done]. }
  exists (length q + (1 + (length (q' ++ added) + 1)))%nat.
  intros m Hm.
  assert (Hk : ∃ k,
    m = (length q + (1 + (length (q' ++ added) + (1 + k))))%nat).
  { exists (m - (length q + (1 + (length (q' ++ added) + 1))))%nat. lia. }
  destruct Hk as [k ->].
  rewrite !run_queue_add. fold w1.
  rewrite (run_queue_1 w1). fold w2 w3.
  rewrite (run_queue_1 w3). fold w4.
  split.
  - by apply run_queue_settled.
  - assert (Hd4 : in_delivery p r e w4) by by apply in_delivery_run_next.
    by apply (in_delivery_run_queue k p r e w4) in Hd4 as (_ & _ & _ & ?).
Qed.

End Delivery.

(** ** Fake events *)

Lemma asapQueue_after_match fake type params h ps specs w :
  asapQueue (after_match fake type params h ps specs w) =
    asapQueue w ++ map (λ p, TSettle 1 p (HEvent (length (heap w)))) ps.
Proof. done. Qed.

Lemma in_delivery_after_match fake type params w h s before after p :
  obj_wf (expectedEventSpecs w) → waiters_ok w →
  first_match type params (expectedEventSpecs w) h s before after →
  p ∈ es_handlers s →
  in_delivery p (length (heap w)) (new_Event type params true fake)
    (after_match fake type params h (es_handlers s) (before ++ after) w).
Proof.
  intros Hwf [Hw1 Hw2] (Ho & _) Hp.
  assert (Hin : (h, s) ∈ expectedEventSpecs w).
  { rewrite Ho. apply elem_of_app. right. apply list_elem_of_here. }
  destruct (Hw1 p) as [Hpend Hnone]; [by exists h, s|].
  unfold in_delivery. split_and!.
  - by left.
  - intros n a Hq. rewrite asapQueue_after_match in Hq.
    apply elem_of_app in Hq as [Hq|Hq]; [by apply Hnone in Hq|].
    by apply list_elem_of_fmap in Hq as (p' & [= _ _ ->] & _).
  - intros (h' & s' & Hin' & Hp').
    change (expectedEventSpecs (after_match fake type params h
      (es_handlers s) (before ++ after) w)) with (before ++ after) in Hin'.
    assert (Hin'' : (h', s') ∈ expectedEventSpecs w).
    { rewrite Ho. apply elem_of_app in Hin' as [?|?]; apply elem_of_app;
        [by left|right; by apply list_elem_of_further]. }
    rewrite (Hw2 h s h' s' p Hin Hin'' Hp Hp') in Ho.
    rewrite Ho in Hwf. apply obj_wf_middle_fresh in Hwf.
    apply Hwf, elem_of_keys. eauto.
  - rewrite heap_after_match. by rewrite lookup_app_r, Nat.sub_diag.
Qed.


(** ** The registry in every reachable world *)

Lemma registry_ok_initial now digest : registry_ok (initial now digest).
Proof.
  split_and!.
  - apply obj_wf_nil.
  - constructor.
  - split.
    + intros p (h & s & Hin & _). by apply elem_of_nil in Hin.
    + intros h s h' s' p Hin. by apply elem_of_nil in Hin.
  - intros n p a Hin. by apply elem_of_nil in Hin.
Qed.

(** A step that registers nothing new and queues the settling of promises
    that exist and are no longer attached to the registry keeps the
    registry in order. *)
Lemma registry_ok_intro w w' :
  registry_ok w →
  obj_wf (expectedEventSpecs w') →
  (∀ kv, kv ∈ expectedEventSpecs w' → kv ∈ expectedEventSpecs w) →
  (expectedEventLastHandle w ≤ expectedEventLastHandle w')%N →
  (length (promises w) ≤ length (promises w'))%nat →
  (∀ p, registered_handler w' p → promises w' !! p = promises w !! p) →
  (∀ t, t ∈ asapQueue w' →
        t ∈ asapQueue w ∨
        ∀ n p a, t = TSettle n p a →
                 (p < length (promises w))%nat ∧ ¬ registered_handler w' p) →
  registry_ok w'.
Proof.
  intros (Hwf & Hle & [Hw1 Hw2] & Hq) Hwf' Hsub Hlast Hlen Hpr Hqueue.
  assert (Hreg : ∀ p, registered_handler w' p → registered_handler w p).
  { intros p (h & s & Hin & Hp). exists h, s. split; [auto|done]. }
  split_and!.
  - done.
  - rewrite Forall_forall in Hle |- *. intros kv Hin.
    apply Hsub, Hle in Hin. lia.
  - split.
    + intros p Hp. split.
      * rewrite (Hpr p Hp). by apply Hw1, Hreg.
      * intros n a Hin. destruct (Hqueue _ Hin) as [Hold|Hnew].
        -- by apply (Hw1 p (Hreg p Hp)) in Hold.
        -- by destruct (Hnew n p a eq_refl).
    + intros h s h' s' p Hin Hin'. apply Hw2; auto.
  - intros n p a Hin. destruct (Hqueue _ Hin) as [Hold|Hnew].
    + apply Hq in Hold. lia.
    + destruct (Hnew n p a eq_refl). lia.
Qed.

(** A step that leaves the registry, the promises and the queue alone. *)
Lemma registry_ok_same w w' :
  expectedEventSpecs w' = expectedEventSpecs w →
  expectedEventLastHandle w' = expectedEventLastHandle w →
  promises w' = promises w →
  asapQueue w' = asapQueue w →
  registry_ok w → registry_ok w'.
Proof.
  intros Hs Hl Hp Hq Hok. apply (registry_ok_intro w w' Hok).
  - rewrite Hs. apply Hok.
  - by rewrite Hs.
  - by rewrite Hl.
  - by rewrite Hp.
  - intros p _. by rewrite Hp.
  - intros t Hin. left. by rewrite <- Hq.
Qed.

(** The handlers of an entry that leaves the registry are no longer
    attached to it. *)
Lemma resolved_not_registered w w' h s before after p :
  registry_ok w →
  expectedEventSpecs w = before ++ (h, s) :: after →
  expectedEventSpecs w' = before ++ after →
  p ∈ es_handlers s →
  (p < length (promises w))%nat ∧ ¬ registered_handler w' p.
Proof.
  intros (Hwf & _ & [Hw1 Hw2] & _) Ho Ho' Hp.
  assert (Hin : (h, s) ∈ expectedEventSpecs w).
  { rewrite Ho. apply elem_of_app. right. apply list_elem_of_here. }
  split.
  - destruct (Hw1 p) as [Hpend _]; [by exists h, s|].
    by eapply lookup_lt_Some.
  - intros (h' & s' & Hin' & Hp'). rewrite Ho' in Hin'.
    assert (Hin'' : (h', s') ∈ expectedEventSpecs w).
    { rewrite Ho. apply elem_of_app in Hin' as [?|?]; apply elem_of_app;
        [by left|right; by apply list_elem_of_further]. }
    rewrite (Hw2 h s h' s' p Hin Hin'' Hp Hp') in Ho.
    rewrite Ho in Hwf. apply obj_wf_middle_fresh in Hwf.
    apply Hwf, elem_of_keys. eauto.
Qed.

Lemma elem_of_middle_removed {A} (before after : list A) (x y : A) :
  y ∈ before ++ after → y ∈ before ++ x :: after.
Proof.
  intros H. apply elem_of_app in H as [?|?]; apply elem_of_app;
    [by left|right; by apply list_elem_of_further].
Qed.

(** The world after an expectation has been resolved: its entry has left
    the registry, its handlers have been called, and nothing else that the
    registry depends on has changed. *)
Lemma registry_ok_resolved w w' h s before after a :
  registry_ok w →
  expectedEventSpecs w = before ++ (h, s) :: after →
  expectedEventSpecs w' = before ++ after →
  expectedEventLastHandle w' = expectedEventLastHandle w →
  promises w' = promises w →
  asapQueue w' = asapQueue w ++ map (λ p, TSettle 1 p a) (es_handlers s) →
  registry_ok w'.
Proof.
  intros Hok Ho Ho' Hl Hp Hq. apply (registry_ok_intro w w' Hok).
  - rewrite Ho'. destruct Hok as (Hwf & _). rewrite Ho in Hwf.
    rewrite <- (obj_delete_middle before h s after) by done.
    by apply obj_delete_wf.
  - intros kv Hin. rewrite Ho. rewrite Ho' in Hin.
    by apply elem_of_middle_removed.
  - by rewrite Hl.
  - by rewrite Hp.
  - intros p _. by rewrite Hp.
  - intros t Hin. rewrite Hq in Hin.
    apply elem_of_app in Hin as [Hin|Hin]; [by left|right].
    intros n p a' ->.
    apply list_elem_of_fmap in Hin as (p' & [= -> -> ->] & Hp').
    by apply (resolved_not_registered w w' h s before after).
Qed.

Lemma registry_ok_unexpectEvent h w :
  registry_ok w → registry_ok (exec (unexpectEvent h) w).
Proof.
  intros Hok. unfold exec.
  destruct (obj_get h (expectedEventSpecs w)) as [s|] eqn:Hg.
  - rewrite (unexpectEvent_pending h s) by done. cbn [snd].
    destruct (obj_get_Some_middle _ _ _ Hg) as (before & after & Ho).
    apply (registry_ok_resolved w _ h s before after
             (HError ERR_UNEXPECTED) Hok Ho); try done.
    simpl. rewrite Ho. apply obj_delete_middle. rewrite <- Ho. apply Hok.
  - by rewrite unexpectEvent_absent.
Qed.

Lemma registry_ok_dispatch fake type params w :
  registry_ok w → registry_ok (exec (dispatch fake type params) w).
Proof.
  intros Hok. unfold exec.
  destruct (dispatch_spec fake type params w) as
    [(h & s & before & after & (Ho & _) & ->)|[_ ->]]; [apply Hok| |];
    cbn [snd].
  - by apply (registry_ok_resolved w _ h s before after
                (HEvent (length (heap w))) Hok Ho).
  - by apply (registry_ok_same w).
Qed.

Lemma registry_ok_handleServerEvent ed w :
  registry_ok w → registry_ok (exec (handleServerEvent ed) w).
Proof.
  apply (registry_ok_dispatch false (ed_type ed) (default ∅ (ed_params ed))).
Qed.

Lemma registry_ok_fakeServerEvent type params w :
  registry_ok w → registry_ok (exec (fakeServerEvent type params) w).
Proof. apply (registry_ok_dispatch true). Qed.

Lemma kept_specs_wf now (o : list (Handle * EventSpec)) :
  obj_wf o → obj_wf (kept_specs now o).
Proof.
  unfold kept_specs, ObjectUtils_filter_specs.
  induction o as [|[k v] o IH]; simpl; [done|]. intros Hwf.
  apply obj_wf_cons_inv in Hwf as [Hwf Hk].
  destruct (not_expired now k v); [|auto].
  apply obj_wf_cons; [auto|].
  rewrite Forall_forall in Hk |- *. intros kv Hin. apply Hk.
  apply list_elem_of_In, filter_In in Hin as [Hin _].
  by apply list_elem_of_In.
Qed.

Lemma lastHandle_after_expiry xs w :
  expectedEventLastHandle (after_expiry xs w) = expectedEventLastHandle w.
Proof.
  revert w. induction xs as [|hs xs IH]; intros w; simpl; [done|].
  by rewrite IH.
Qed.

Lemma registry_ok_cleanup w :
  registry_ok w → registry_ok (exec cleanupExpectedEvents w).
Proof.
  intros Hok. unfold exec. rewrite cleanupExpectedEvents_eq. cbn [snd].
  pose proof Hok as (Hwf & _ & [Hw1 Hw2] & _).
  apply (registry_ok_intro w _ Hok).
  - rewrite specs_after_expiry. simpl. by apply kept_specs_wf.
  - rewrite specs_after_expiry. simpl. intros [h s] Hin.
    by apply elem_of_kept_specs in Hin as [Hin _].
  - by rewrite lastHandle_after_expiry.
  - by rewrite promises_after_expiry.
  - intros p _. by rewrite promises_after_expiry.
  - intros t Hin. rewrite asapQueue_after_expiry in Hin. simpl in Hin.
    apply elem_of_app in Hin as [Hin|Hin]; [by left|right].
    intros n p a ->.
    apply list_elem_of_In, in_concat in Hin as (l & Hl & Hin).
    apply list_elem_of_In in Hl, Hin.
    apply list_elem_of_fmap in Hl as ([h s] & -> & Hs).
    apply list_elem_of_fmap in Hin as (q & [= -> -> ->] & Hp).
    apply elem_of_expired_specs in Hs as [Hs Hx]. simpl in Hp. split.
    + destruct (Hw1 q) as [Hpend _]; [by exists h, s|].
      by eapply lookup_lt_Some.
    + intros (h' & s' & Hin' & Hp'). rewrite specs_after_expiry in Hin'.
      simpl in Hin'. apply elem_of_kept_specs in Hin' as [Hin' Hnx].
      pose proof (Hw2 h s h' s' q Hs Hin' Hp Hp') as <-.
      by rewrite (obj_wf_unique _ _ _ _ Hwf Hin' Hs) in Hnx.
Qed.

Lemma registry_ok_wait K firstQuick w :
  registry_ok w → registry_ok (exec (wait K firstQuick) w).
Proof.
  unfold exec. rewrite wait_eq. by apply (registry_ok_same w).
Qed.

(** Queueing callbacks that settle nothing. *)
Lemma registry_ok_queue w tasks :
  (∀ n p a, TSettle n p a ∉ tasks) →
  registry_ok w → registry_ok (set_asapQueue (asapQueue w ++ tasks) w).
Proof.
  intros Hno Hok. apply (registry_ok_intro w _ Hok); try done.
  - apply Hok.
  - intros t Hin. simpl in Hin.
    apply elem_of_app in Hin as [Hin|Hin]; [by left|right].
    intros n p a ->. by apply Hno in Hin.
Qed.

Lemma registry_ok_wait_catch K stamp error w :
  registry_ok w → registry_ok (exec (wait_catch K stamp error) w).
Proof.
  intros Hok. unfold exec.
  destruct (decide (listeningTime w = stamp)) as [<-|Hne];
    [|by rewrite wait_catch_stale].
  destruct (ignoreListenErrors w) eqn:Hign.
  - rewrite wait_catch_suppressed by done. by apply (registry_ok_same w).
  - rewrite wait_catch_failure by done. cbn [snd].
    apply (registry_ok_same
             (set_asapQueue
                (asapQueue w ++
                 map (λ c, TSyncErr c
                             (reconnect_seconds K (listenErrorCount w + 1)))
                     (syncListenCallbacks w)) w)); try done.
    apply registry_ok_queue; [|done].
    intros n p a Hin. by apply list_elem_of_fmap in Hin as (? & [=] & _).
Qed.

Lemma exec_discard {A} (m : M A) (w : World) :
  exec (m ;; mret tt) w = exec m w.
Proof. unfold exec. rewrite bind_eq. by destruct (m w) as [[a|e] w']. Qed.

Lemma obj_wf_snoc {V} (o : list (Handle * V)) k v :
  obj_wf o → Forall (λ kv, (kv.1 < k)%N) o → obj_wf (o ++ [(k, v)]).
Proof.
  induction o as [|[k' v'] o IH]; simpl; intros Hwf Hk.
  - apply obj_wf_cons; [apply obj_wf_nil|constructor].
  - apply obj_wf_cons_inv in Hwf as [Hwf Hk'].
    apply Forall_cons in Hk as [Hlt Hk]. simpl in Hlt.
    apply obj_wf_cons; [auto|]. apply Forall_app. split; [done|].
    by constructor.
Qed.

Lemma expectEvent_eq type params timeout w :
  expectEvent type params timeout w =
    (Ok (expectedEventLastHandle w + 1)%N,
     set_expectedEventSpecs
       (obj_set (expectedEventLastHandle w + 1)%N
          {| es_type := type; es_params := params; es_added := clock w;
             es_timeout := default DEFAULT_EXPECT_TIMEOUT timeout;
             es_handlers := [] |}
          (expectedEventSpecs w))
       (set_expectedEventLastHandle (expectedEventLastHandle w + 1)%N w)).
Proof. done. Qed.

Lemma registry_ok_expectEvent type params timeout w :
  registry_ok w → registry_ok (exec (expectEvent type params timeout) w).
Proof.
  intros (Hwf & Hle & [Hw1 Hw2] & Hq). unfold exec.
  rewrite expectEvent_eq. cbn [snd].
  assert (Hlt : Forall (λ kv : Handle * EventSpec,
                          (kv.1 < expectedEventLastHandle w + 1)%N)
                       (expectedEventSpecs w)).
  { eapply Forall_impl; [exact Hle|]. simpl. intros; lia. }
  set (s0 := {| es_type := type; es_params := params; es_added := clock w;
                es_timeout := default DEFAULT_EXPECT_TIMEOUT timeout;
                es_handlers := [] |}).
  assert (Hold : ∀ k s p,
    (k, s) ∈ expectedEventSpecs w ++
             [((expectedEventLastHandle w + 1)%N, s0)]
    → p ∈ es_handlers s → (k, s) ∈ expectedEventSpecs w).
  { intros k s p Hin Hp. apply elem_of_app in Hin as [Hin|Hin]; [done|].
    apply list_elem_of_singleton in Hin. injection Hin as -> ->.
    by apply elem_of_nil in Hp. }
  unfold registry_ok. simpl. rewrite obj_set_above by done. split_and!.
  - by apply obj_wf_snoc.
  - apply Forall_app. split.
    + eapply Forall_impl; [exact Hle|]. simpl. intros; lia.
    + by constructor.
  - split.
    + intros p (h & s & Hin & Hp). simpl in Hin.
      apply Hw1. exists h, s. split; [by eapply Hold|done].
    + intros h s h' s' p Hin Hin' Hp Hp'. simpl in Hin, Hin'.
      eapply Hw2; [by eapply Hold|by eapply Hold|done|done].
  - done.
Qed.

Lemma findKey_elem {V} (func : V → Res bool) (o : list (Handle * V)) k :
  ObjectUtils_findKey func o = Ok (Some k) → ∃ v, (k, v) ∈ o.
Proof.
  induction o as [|[k' v'] o IH]; simpl; [done|].
  destruct (func v') as [[]|]; [| |done].
  - intros [= <-]. exists v'. apply list_elem_of_here.
  - intros H. apply IH in H as [v Hv]. exists v.
    by apply list_elem_of_further.
Qed.

Lemma elem_of_middle {A} (before after : list A) (x y : A) :
  y ∈ before ++ x :: after ↔ y = x ∨ y ∈ before ++ after.
Proof.
  rewrite !elem_of_app, elem_of_cons. tauto.
Qed.

Lemma registry_ok_waitExpectedEvent type params w :
  registry_ok w → registry_ok (exec (waitExpectedEvent type params) w).
Proof.
  intros Hok. pose proof Hok as (Hwf & Hle & [Hw1 Hw2] & Hq).
  unfold exec, waitExpectedEvent, lookupExpectedEventHandle.
  rewrite !bind_eq. unfold gets at 1, lift at 1. cbv beta iota.
  destruct (ObjectUtils_findKey (spec_matches type params)
                                (expectedEventSpecs w))
    as [[h|]|err] eqn:Hfind; cbv beta iota; [| |done].
  - (* a continuation is attached to the entry found *)
    apply findKey_elem in Hfind as [s Hs].
    apply list_elem_of_split in Hs as (before & after & Ho).
    rewrite bind_eq. unfold new_promise at 1. cbv beta iota.
    rewrite bind_eq. unfold gets at 1. cbv beta iota.
    cbn [expectedEventSpecs set_promises].
    rewrite Ho in Hwf |- *. rewrite obj_get_middle by done.
    rewrite bind_eq. unfold modify at 1. cbv beta iota. cbn [snd].
    cbn [expectedEventSpecs set_promises]. rewrite Ho.
    rewrite obj_set_middle by done.
    set (p := length (promises w)).
    assert (Hfresh : ¬ registered_handler w p).
    { intros Hp. apply Hw1 in Hp as [Hp _].
      apply lookup_lt_Some in Hp. subst p. lia. }
    assert (Hcases : ∀ k s' q,
      (k, s') ∈ before ++ (h, add_handler p s) :: after → q ∈ es_handlers s' →
      (q = p ∧ k = h) ∨
      (q ≠ p ∧ ∃ s'', (k, s'') ∈ expectedEventSpecs w ∧ q ∈ es_handlers s'')).
    { intros k s' q Hin Hq'. apply elem_of_middle in Hin as [[= -> ->]|Hin].
      - simpl in Hq'. apply elem_of_app in Hq' as [Hq'|Hq'].
        + right. split.
          * intros ->. apply Hfresh. exists h, s. split; [|done].
            rewrite Ho. apply elem_of_middle. by left.
          * exists s. split; [|done]. rewrite Ho. apply elem_of_middle.
            by left.
        + apply list_elem_of_singleton in Hq' as ->. by left.
      - right. split.
        + intros ->. apply Hfresh. exists k, s'. split; [|done].
          rewrite Ho. apply elem_of_middle. by right.
        + exists s'. split; [|done]. rewrite Ho. apply elem_of_middle.
          by right. }
    unfold registry_ok. simpl. split_and!.
    + unfold obj_wf in *. by rewrite fmap_app in *.
    + rewrite Ho in Hle. apply Forall_app in Hle as [H1 H2].
      apply Forall_cons in H2 as [H2 H3]. apply Forall_app. split; [done|].
      by constructor.
    + split.
      * intros q (k & s' & Hin & Hq'). simpl in Hin.
        destruct (Hcases k s' q Hin Hq') as [[-> ->]|(Hne & s'' & Hin' & Hq'')].
        -- split.
           ++ simpl. subst p. by rewrite lookup_app_r, Nat.sub_diag.
           ++ simpl. intros n a Hin'. apply Hq in Hin'. subst p. lia.
        -- destruct (Hw1 q) as [Hpend Hnone]; [by exists k, s''|].
           split; [|done]. simpl. by apply lookup_app_l_Some.
      * intros k1 s1 k2 s2 q Hin1 Hin2 Hq1 Hq2. simpl in Hin1, Hin2.
        destruct (Hcases k1 s1 q Hin1 Hq1)
          as [[E1 K1]|(Hne & s1' & Hin1' & Hq1')];
        destruct (Hcases k2 s2 q Hin2 Hq2)
          as [[E2 K2]|(Hne' & s2' & Hin2' & Hq2')]; try done.
        -- congruence.
        -- by apply (Hw2 k1 s1' k2 s2' q).
    + simpl. intros n q a Hin. apply Hq in Hin. rewrite length_app. lia.
  - (* nothing matches: a rejected promise *)
    unfold new_promise. cbn [snd].
    apply (registry_ok_intro w _ Hok); simpl; try done.
    + rewrite length_app. lia.
    + intros q Hq'. destruct (Hw1 q Hq') as [Hpend _].
      rewrite Hpend. by apply lookup_app_l_Some.
    + intros t Hin. by left.
Qed.

Lemma keeps_registry_refl w : keeps_registry w w.
Proof. by intros H. Qed.

Lemma keeps_registry_trans w1 w2 w3 :
  keeps_registry w1 w2 → keeps_registry w2 w3 → keeps_registry w1 w3.
Proof. unfold keeps_registry. auto. Qed.

Lemma keeps_registry_forEach {A} (f : A → M unit) (l : list A) :
  (∀ x, preserves keeps_registry (f x)) →
  preserves keeps_registry (forEach f l).
Proof.
  apply (preserves_forEach _ keeps_registry_refl keeps_registry_trans).
Qed.

Lemma keeps_registry_asap t :
  (∀ n p a, t ≠ TSettle n p a) → preserves keeps_registry (asap t).
Proof.
  intros Ht w Hok. apply registry_ok_queue; [|done].
  intros n p a Hin. apply list_elem_of_singleton in Hin.
  by apply (Ht n p a).
Qed.

Lemma keeps_registry_wait_then stamp result :
  preserves keeps_registry (wait_then stamp result).
Proof.
  unfold wait_then.
  apply (preserves_bind _ keeps_registry_trans);
    [apply (preserves_gets _ keeps_registry_refl)|intros current].
  destruct (negb _); [apply (preserves_ret _ keeps_registry_refl)|].
  apply (preserves_bind _ keeps_registry_trans);
    [by apply keeps_registry_asap|intros _].
  apply (preserves_bind _ keeps_registry_trans).
  { apply preserves_modify. intros w Hok. by apply (registry_ok_same w). }
  intros _. apply (preserves_bind _ keeps_registry_trans).
  { apply preserves_modify. intros w Hok. by apply (registry_ok_same w). }
  intros _. apply (preserves_try_catch _ keeps_registry_trans);
    [|intros ?; apply (preserves_ret _ keeps_registry_refl)].
  apply (preserves_bind _ keeps_registry_trans);
    [apply (preserves_gets _ keeps_registry_refl)|intros callbacks].
  apply (preserves_bind _ keeps_registry_trans).
  { apply keeps_registry_forEach. intros c. by apply keeps_registry_asap. }
  intros _. destruct result as [[|ed batch]|];
    try apply (preserves_ret _ keeps_registry_refl).
  apply keeps_registry_forEach. intros x w Hok.
  by apply registry_ok_handleServerEvent.
Qed.

Lemma registry_ok_listen_settled K stamp outcome w :
  registry_ok w → registry_ok (exec (listen_settled K stamp outcome) w).
Proof.
  destruct outcome as [result|error]; simpl.
  - apply (preserves_try_catch _ keeps_registry_trans).
    + apply keeps_registry_wait_then.
    + intros e w' Hok. by apply registry_ok_wait_catch.
  - apply registry_ok_wait_catch.
Qed.

Lemma registry_ok_startListening K w :
  registry_ok w → registry_ok (exec (startListening K) w).
Proof.
  intros Hok. unfold exec, startListening. rewrite bind_eq.
  unfold gets at 1. cbv beta iota.
  destruct (truthy_number (listeningTime w)); [done|].
  rewrite bind_eq. unfold getTime, gets. cbv beta iota.
  rewrite bind_eq. unfold modify. cbv beta iota.
  apply registry_ok_wait. by apply (registry_ok_same w).
Qed.

Lemma registry_ok_run_next K w :
  registry_ok w → registry_ok (exec (run_next K) w).
Proof.
  intros Hok.
  unfold exec. destruct (asapQueue w) as [|t q] eqn:Hqueue.
  { by rewrite run_next_nil. }
  rewrite (run_next_cons K t q) by done.
  pose proof Hok as (Hwf & Hle & [Hw1 Hw2] & Hq).
  assert (Hpop : registry_ok (set_asapQueue q w)).
  { apply (registry_ok_intro w _ Hok); try done.
    intros t' Hin. left. rewrite Hqueue. by apply list_elem_of_further. }
  assert (Hhead : ∀ n p a, t = TSettle n p a →
            (p < length (promises w))%nat ∧ ¬ registered_handler w p).
  { intros n p a ->. split.
    - apply (Hq n p a). rewrite Hqueue. apply list_elem_of_here.
    - intros Hp. apply Hw1 in Hp as [_ Hp]. apply (Hp n a).
      rewrite Hqueue. apply list_elem_of_here. }
  destruct t as [| |[|n] p a|c|c seconds]; cbn [run_task].
  - by apply registry_ok_wait.
  - by apply registry_ok_cleanup.
  - destruct (Hhead _ _ _ eq_refl) as [Hlt Hnr].
    destruct (settle_fields p a (set_asapQueue q w)) as (Hq' & _ & Hs').
    apply (registry_ok_intro w _ Hok).
    + unfold exec in Hs'. by rewrite Hs'.
    + unfold exec in Hs'. by rewrite Hs'.
    + unfold settle, modify. simpl. by destruct (promises w !! p) as [[]|].
    + unfold settle, modify. simpl.
      destruct (promises w !! p) as [[]|]; simpl; try done.
      by rewrite length_insert.
    + intros p' Hp'. destruct (decide (p = p')) as [<-|Hne].
      * exfalso. apply Hnr. destruct Hp' as (h & s & Hin & Hp').
        exists h, s. split; [|done]. unfold exec in Hs'.
        by rewrite Hs' in Hin.
      * apply (settle_other p a (set_asapQueue q w) p' Hne).
    + intros t Hin. left. unfold exec in Hq'. rewrite Hq' in Hin.
      simpl in Hin. rewrite Hqueue. by apply list_elem_of_further.
  - destruct (Hhead _ _ _ eq_refl) as [Hlt Hnr].
    apply (registry_ok_intro w _ Hok); try done.
    intros t Hin. simpl in Hin. apply elem_of_app in Hin as [Hin|Hin].
    + left. rewrite Hqueue. by apply list_elem_of_further.
    + right. intros n' p' a' ->. apply list_elem_of_singleton in Hin.
      by injection Hin as -> -> ->.
  - by apply (registry_ok_same (set_asapQueue q w)).
  - by apply (registry_ok_same (set_asapQueue q w)).
Qed.

Lemma registry_ok_act K a w :
  registry_ok w → registry_ok (exec (act K a) w).
Proof.
  intros Hok. destruct a; cbn [act].
  - rewrite exec_discard. by apply registry_ok_expectEvent.
  - by apply registry_ok_unexpectEvent.
  - rewrite exec_discard. by apply registry_ok_waitExpectedEvent.
  - by apply registry_ok_fakeServerEvent.
  - by apply (registry_ok_same w).
  - by apply (registry_ok_same w).
  - by apply registry_ok_startListening.
  - by apply (registry_ok_same w).
  - by apply (registry_ok_same w).
  - by apply (registry_ok_same w).
  - by apply (registry_ok_same w).
  - by apply registry_ok_listen_settled.
  - by apply registry_ok_run_next.
  - by apply registry_ok_cleanup.
  - by apply registry_ok_wait.
  - by apply (registry_ok_same w).
Qed.

(** In every world that the module reaches from its initial state, the
    registry is in order: the hypotheses of the theorems above on the keys
    of [expectedEventSpecs] and on the waiters hold there. *)
Theorem registry_ok_reachable K actions now digest :
  let w := run K actions (initial now digest) in
  registry_ok w ∧ obj_wf (expectedEventSpecs w) ∧ waiters_ok w.
Proof.
  cbv zeta.
  assert (H : ∀ w, registry_ok w → registry_ok (run K actions w)).
  { induction actions as [|a actions IH]; intros w Hok; [done|].
    simpl. apply IH. by apply registry_ok_act. }
  specialize (H _ (registry_ok_initial now digest)).
  split; [done|]. split; apply H.
Qed.

(** ** Properties that every part of the module keeps

    A property of the world that each step of a computation keeps is kept
    by the computation; the steps are found by walking its definition. *)

Lemma keeps_refl P w : keeps P w w.
Proof. by intros H. Qed.

Lemma keeps_trans P w1 w2 w3 :
  keeps P w1 w2 → keeps P w2 w3 → keeps P w1 w3.
Proof. unfold keeps. auto. Qed.

Lemma preserves_fun {A} (R : World → World → Prop) (m : M A) :
  (∀ w, R w (m w).2) → preserves R m.
Proof. done. Qed.

(** The functions of the module and of the run time give way to the steps
    they are made of; [wait], for which [wait_eq] gives the world it
    leaves, can be kept as one step. *)
Ltac unfold_module_but_wait :=
  unfold act, expectEvent, unexpectEvent, waitExpectedEvent,
    lookupExpectedEventHandle, fakeServerEvent, handleServerEvent,
    tryMatchExpectedEvent, cleanupExpectedEvents, callEventListeners,
    call_handler, call_listener, addEventListener, removeEventListener,
    stopListening, isListening, addSyncListenCallback, setIgnoreListenErrors,
    init, listen_settled, wait_then, wait_catch, startListening, run_next,
    run_task, PromiseUtils_asap_then, asap, emit, setTimeout,
    setInterval, getTime, update_event, settle.

Ltac unfold_module := unfold_module_but_wait; try unfold wait.

(** The walk: [tac] proves that a single step keeps the property. *)
Ltac keeps_walk tac :=
  repeat first
    [ progress cbv beta zeta
    | match goal with
      | |- preserves _ (wait _ _) => apply preserves_fun; intros ?; tac
      end
    | apply (preserves_bind _ (keeps_trans _)); [|intros ?]
    | apply (preserves_forEach _ (keeps_refl _) (keeps_trans _)); intros ?
    | apply (preserves_try_catch _ (keeps_trans _)); [|intros ?]
    | apply (preserves_ret _ (keeps_refl _))
    | apply (preserves_gets _ (keeps_refl _))
    | apply (preserves_throw _ (keeps_refl _))
    | apply (preserves_lift _ (keeps_refl _))
    | apply preserves_modify; intros ?; tac
    | match goal with
      | |- preserves _ (match ?x with _ => _ end) => destruct x
      end
    | apply preserves_fun; intros ?; tac ].

Lemma keeps_run P K :
  (∀ a, preserves (keeps P) (act K a)) →
  ∀ actions w, P w → P (run K actions w).
Proof.
  intros Hact actions. induction actions as [|a actions IH]; intros w Hw;
    [done|].
  simpl. apply IH. by apply (Hact a w).
Qed.

(** ** Handles and the life of an expectation *)

Ltac floor_tac :=
  unfold keeps, handle_floor, alloc_event, read_event, new_promise;
  repeat case_match; simpl; lia.

Lemma handle_floor_act K n a : preserves (keeps (handle_floor n)) (act K a).
Proof.
  destruct a; unfold_module; keeps_walk floor_tac.
Qed.

Lemma handles_bounded_below w :
  handles_bounded w →
  Forall (λ kv, (kv.1 < expectedEventLastHandle w + 1)%N)
         (expectedEventSpecs w).
Proof.
  intros Hb. eapply Forall_impl; [exact Hb|]. intros kv H. simpl in H. lia.
Qed.

Lemma expectEvent_appends type params timeout w :
  handles_bounded w →
  expectEvent type params timeout w =
    (Ok (expectedEventLastHandle w + 1)%N,
     set_expectedEventSpecs
       (expectedEventSpecs w ++
        [((expectedEventLastHandle w + 1)%N,
          new_spec type params timeout w)])
       (set_expectedEventLastHandle (expectedEventLastHandle w + 1)%N w)).
Proof.
  intros Hb. rewrite expectEvent_eq.
  by rewrite (obj_set_above _ _ _ (handles_bounded_below w Hb)).
Qed.

Lemma obj_get_snoc_ne {V} (o : list (Handle * V)) k h v :
  k ≠ h → obj_get k (o ++ [(h, v)]) = obj_get k o.
Proof.
  intros Hne. induction o as [|[k' v'] o IH]; simpl.
  - destruct (N.eqb_spec h k); [congruence|done].
  - by rewrite IH.
Qed.

Lemma obj_get_snoc_fresh {V} (o : list (Handle * V)) h v :
  Forall (λ kv, (kv.1 < h)%N) o → obj_get h (o ++ [(h, v)]) = Some v.
Proof.
  induction o as [|[k' v'] o IH]; simpl; intros Hf.
  - by rewrite N.eqb_refl.
  - apply Forall_cons in Hf as [Hlt Hf]. simpl in Hlt.
    destruct (N.eqb_spec k' h); [lia|]. by apply IH.
Qed.

(** X1. [expectEvent(type, params, timeout)] returns the handle that follows
    the last one given out, which no entry of the registry has. The new
    entry comes after the existing ones, which are left as they are; it
    holds the time of the call, the timeout given, or 60000 ms when there
    is none, and no waiter. No handler is called and nothing is
    deferred. *)
Theorem X1_expectEvent_registers (type : option string)
    (params : option Params) (timeout : option Z) (w : World) :
  handles_bounded w →
  let h := (expectedEventLastHandle w + 1)%N in
  let w' := exec (expectEvent type params timeout) w in
  result (expectEvent type params timeout) w = Ok h ∧
  (h ∉ (expectedEventSpecs w).*1) ∧
  expectedEventSpecs w' =
    expectedEventSpecs w ++
    [(h, {| es_type := type; es_params := params; es_added := clock w;
            es_timeout := default 60000 timeout; es_handlers := [] |})] ∧
  obj_get h (expectedEventSpecs w') =
    Some {| es_type := type; es_params := params; es_added := clock w;
            es_timeout := default 60000 timeout; es_handlers := [] |} ∧
  (∀ k, k ≠ h →
     obj_get k (expectedEventSpecs w') = obj_get k (expectedEventSpecs w)) ∧
  handles_bounded w' ∧
  new_effects (expectEvent type params timeout) w = [] ∧
  promises w' = promises w ∧ asapQueue w' = asapQueue w.
Proof.
  intros Hb h w'. subst h w'. unfold exec, result, new_effects, exec.
  rewrite (expectEvent_appends _ _ _ _ Hb). cbn [fst snd].
  pose proof (handles_bounded_below w Hb) as Hlt.
  split_and!; try done.
  - intros Hin. apply list_elem_of_fmap in Hin as ([k v] & Hk & Hin).
    rewrite Forall_forall in Hlt. apply Hlt in Hin. simpl in *. lia.
  - simpl. by apply obj_get_snoc_fresh.
  - intros k Hk. simpl. by apply obj_get_snoc_ne.
  - unfold handles_bounded. simpl. apply Forall_app. split.
    + eapply Forall_impl; [exact Hb|]. intros kv H. simpl in H. lia.
    + apply Forall_singleton. simpl. lia.
  - simpl. by rewrite drop_all.
Qed.

(** X2. The handles that [expectEvent] returns increase strictly, whatever
    the module does between two calls: a handle is never given out twice,
    also after its entry has been resolved, cancelled or expired. *)
Theorem X2_expectEvent_handles_increase (K : APIConstants) (w : World)
    (actions : list Action)
    (type type' : option string) (params params' : option Params)
    (timeout timeout' : option Z) :
  ∃ h h',
    result (expectEvent type params timeout) w = Ok h ∧
    result (expectEvent type' params' timeout')
           (run K actions (exec (expectEvent type params timeout) w))
      = Ok h' ∧
    (h < h')%N.
Proof.
  unfold result, exec. rewrite !expectEvent_eq. cbn [fst snd].
  eexists _, _. split; [reflexivity|]. split; [reflexivity|].
  match goal with
  | |- (_ < expectedEventLastHandle (run K actions ?w1) + 1)%N =>
      assert (H : handle_floor (expectedEventLastHandle w + 1)%N
                    (run K actions w1))
  end.
  { apply keeps_run; [apply handle_floor_act|].
    unfold handle_floor. simpl. lia. }
  unfold handle_floor in H. lia.
Qed.

(** X3. [unexpectEvent] of the handle that [expectEvent] has just returned
    undoes the registration: no handler is called, nothing is deferred, and
    the world is the one before the two calls but for the counter of
    handles, which has moved on. *)
Theorem X3_expect_unexpect_round_trip (type : option string)
    (params : option Params) (timeout : option Z) (w : World) :
  handles_bounded w →
  let m := h ← expectEvent type params timeout; unexpectEvent h in
  result m w = Ok tt ∧
  exec m w =
    set_expectedEventLastHandle (expectedEventLastHandle w + 1)%N w.
Proof.
  intros Hb m. subst m. unfold result, exec. rewrite bind_eq.
  rewrite (expectEvent_appends _ _ _ _ Hb). cbv beta iota.
  pose proof (handles_bounded_below w Hb) as Hlt.
  erewrite unexpectEvent_pending.
  2:{ simpl. by apply obj_get_snoc_fresh. }
  cbn [fst snd]. split; [done|].
  simpl. rewrite after_handlers_nil.
  unfold set_expectedEventSpecs, set_expectedEventLastHandle. simpl.
  f_equal.
  assert (E : ∀ (o : list (Handle * EventSpec)) h v,
            Forall (λ kv, (kv.1 < h)%N) o → obj_delete h (o ++ [(h, v)]) = o).
  { intros o h v. induction o as [|[k' v'] o IH]; simpl; intros Hf.
    - by rewrite N.eqb_refl.
    - apply Forall_cons in Hf as [Hk Hf]. simpl in Hk.
      destruct (N.eqb_spec k' h); [lia|]. by rewrite IH. }
  by apply E.
Qed.

(** X4. An expectation registered with the timeout [T], 60000 ms when the
    timeout is omitted, is still registered after a sweep that runs [d] ms
    after the registration exactly when [d <= T]: the entry expires when
    its age exceeds the timeout, not when it reaches it. As long as nobody
    waits for it, the sweep calls no handler on its behalf. *)
Theorem X4_expectation_lifetime (type : option string)
    (params : option Params) (timeout : option Z) (w : World) (d : Z) :
  handles_bounded w →
  let h := (expectedEventLastHandle w + 1)%N in
  let w1 := exec (expectEvent type params timeout) w in
  let w2 := exec cleanupExpectedEvents (set_clock (clock w + d) w1) in
  (h ∈ (expectedEventSpecs w2).*1 ↔ d ≤ default 60000 timeout) ∧
  (∀ p a, EHandler h p a ∉
          new_effects cleanupExpectedEvents (set_clock (clock w + d) w1)).
Proof.
  intros Hb h w1 w2.
  pose proof (handles_bounded_below w Hb) as Hlt.
  assert (Hs1 : expectedEventSpecs w1 =
            expectedEventSpecs w ++ [(h, new_spec type params timeout w)]).
  { subst w1. unfold exec. by rewrite (expectEvent_appends _ _ _ _ Hb). }
  clearbody w1.
  assert (Hin : ∀ v, (h, v) ∈ expectedEventSpecs w1 →
                     v = new_spec type params timeout w).
  { intros v. rewrite Hs1. intros Hv. apply elem_of_app in Hv as [Hv|Hv].
    - rewrite Forall_forall in Hlt. apply Hlt in Hv. simpl in Hv. lia.
    - apply list_elem_of_singleton in Hv. congruence. }
  split.
  - subst w2. rewrite specs_after_cleanup. simpl.
    rewrite elem_of_keys. split.
    + intros (v & Hv). apply elem_of_kept_specs in Hv as [Hv Hne].
      apply Hin in Hv as ->. unfold Expired, new_spec in Hne. simpl in Hne.
      unfold DEFAULT_EXPECT_TIMEOUT in Hne. lia.
    + intros Hd. exists (new_spec type params timeout w).
      apply elem_of_kept_specs. split.
      * rewrite Hs1. apply elem_of_app. right. apply list_elem_of_here.
      * unfold Expired, new_spec. simpl. unfold DEFAULT_EXPECT_TIMEOUT. lia.
  - intros p a Hc. apply cleanup_calls in Hc as (_ & s & Hs & _ & Hp).
    simpl in Hs. apply Hin in Hs as ->. by apply elem_of_nil in Hp.
Qed.

(** ** Waiters *)

Lemma registry_ok_run K actions w :
  registry_ok w → registry_ok (run K actions w).
Proof.
  revert w. induction actions as [|a actions IH]; intros w Hok; [done|].
  simpl. apply IH. by apply registry_ok_act.
Qed.

(** X5. [waitExpectedEvent(type, params)] with a params object returns a new
    promise, calls nothing and defers nothing. When no entry matches, the
    promise is rejected with "No such expected event" and the registry is
    unchanged. Otherwise the promise is pending and its handler is the last
    of the handlers of the first entry that matches; no entry is added and
    the other entries are as they were. *)
Theorem X5_waitExpectedEvent_joins (type : string) (params : Params)
    (w : World) :
  obj_wf (expectedEventSpecs w) →
  let m := waitExpectedEvent type (Some params) in
  let p := length (promises w) in
  result m w = Ok p ∧
  new_effects m w = [] ∧ asapQueue (exec m w) = asapQueue w ∧
  (Forall (λ kv, ¬ Matches type params kv.2) (expectedEventSpecs w) →
   promises (exec m w) =
     promises w ++ [Rejected (Error "No such expected event")] ∧
   expectedEventSpecs (exec m w) = expectedEventSpecs w) ∧
  (∀ h s before after,
     first_match type params (expectedEventSpecs w) h s before after →
     promises (exec m w) = promises w ++ [Pending] ∧
     expectedEventSpecs (exec m w) =
       before ++
       (h, {| es_type := es_type s; es_params := es_params s;
              es_added := es_added s; es_timeout := es_timeout s;
              es_handlers := es_handlers s ++ [p] |}) :: after).
Proof.
  intros Hwf m p. subst m p. unfold result, new_effects, exec.
  destruct (lookup_object type params w)
    as [(h & s & before & after & _ & Hfm)|[_ Hnone]].
  - rewrite (waitExpectedEvent_match _ _ _ _ _ _ _ Hwf Hfm). cbn [fst snd].
    split_and!; try done.
    + simpl. by rewrite drop_all.
    + intros Hnone. exfalso. destruct Hfm as (Ho & Hm & _).
      rewrite Ho in Hnone. apply Forall_app in Hnone as [_ Hnone].
      by apply Forall_cons in Hnone as [Hnone _].
    + intros h' s' before' after' Hfm'.
      destruct (first_match_unique _ _ _ _ _ _ _ _ _ _ _ Hwf Hfm Hfm')
        as [<- <-].
      split; [done|]. simpl.
      destruct Hfm as (Ho & _), Hfm' as (Ho' & _).
      rewrite <- (obj_set_middle before h s _ after) by by rewrite <- Ho.
      rewrite <- (obj_set_middle before' h s _ after') by by rewrite <- Ho'.
      by rewrite <- Ho, <- Ho'.
  - rewrite (waitExpectedEvent_no_match _ _ _ Hnone). cbn [fst snd].
    split_and!; try done.
    + simpl. by rewrite drop_all.
    + intros h s before after (Ho & Hm & _). exfalso.
      rewrite Ho in Hnone. apply Forall_app in Hnone as [_ Hnone].
      by apply Forall_cons in Hnone as [Hnone _].
Qed.

(** X6. A waiter that has joined an expectation by [waitExpectedEvent(type,
    params)] gets the event: when an event with that type and those params
    arrives from the server, the promise, pending until then, is fulfilled
    after finitely many turns of the queue of deferred callbacks with the
    event object, which is marked expected and not fake, and stays so,
    whether or not a listener throws when the event is delivered. *)
Theorem X6_waiter_fulfilled_by_event (K : APIConstants) (w : World)
    (type : string) (params : Params) :
  registry_ok w →
  (∃ kv, kv ∈ expectedEventSpecs w ∧ Matches type params kv.2) →
  let p := length (promises w) in
  let event := length (heap w) in
  let w1 := exec (waitExpectedEvent type (Some params)) w in
  let w2 := exec (handleServerEvent
                    {| ed_type := type; ed_params := Some params |}) w1 in
  result (waitExpectedEvent type (Some params)) w = Ok p ∧
  promises w1 !! p = Some Pending ∧
  ∃ n, ∀ m, (n ≤ m)%nat →
    promises (exec (run_queue K m) w2) !! p = Some (Fulfilled event) ∧
    heap (exec (run_queue K m) w2) !! event =
      Some {| ev_type := type; ev_params := params;
              ev_expected := true; ev_fake := false |}.
Proof.
  intros Hok Hex p event w1 w2.
  pose proof Hok as (Hwf & _).
  destruct (lookup_object type params w)
    as [(h & s & before & after & _ & Hfm)|[_ Hnone]];
    [|by apply first_match_exists in Hex].
  pose proof (registry_ok_waitExpectedEvent type (Some params) w Hok) as Hok1.
  fold w1 in Hok1.
  assert (Hw1 : w1 = set_expectedEventSpecs
                       (before ++ (h, add_handler p s) :: after)
                       (set_promises (promises w ++ [Pending]) w)).
  { subst w1. unfold exec.
    by rewrite (waitExpectedEvent_match _ _ _ _ _ _ _ Hwf Hfm). }
  assert (Hres : result (waitExpectedEvent type (Some params)) w = Ok p).
  { unfold result.
    by rewrite (waitExpectedEvent_match _ _ _ _ _ _ _ Hwf Hfm). }
  assert (Hfm1 : first_match type params (expectedEventSpecs w1)
                   h (add_handler p s) before after).
  { rewrite Hw1. destruct Hfm as (Ho & Hm & Hb). by split_and!. }
  assert (Hheap : heap w1 = heap w) by by rewrite Hw1.
  assert (Hp1 : promises w1 !! p = Some Pending).
  { rewrite Hw1. simpl. subst p. by rewrite lookup_app_r, Nat.sub_diag. }
  clearbody w1.
  pose proof Hok1 as (Hwf1 & _ & Hwait1 & _).
  destruct (dispatch_spec false type params w1 Hwf1)
    as [(h' & s' & before' & after' & Hfm' & Heq)|[Hnone _]].
  2:{ exfalso. destruct Hfm1 as (Ho & Hm & _). rewrite Ho in Hnone.
      apply Forall_app in Hnone as [_ Hnone].
      by apply Forall_cons in Hnone as [Hnone _]. }
  destruct (first_match_unique _ _ _ _ _ _ _ _ _ _ _ Hwf1 Hfm1 Hfm')
    as [<- <-].
  assert (Hw2 : w2 = after_match false type params h
                       (es_handlers (add_handler p s))
                       (before' ++ after') w1).
  { subst w2. unfold exec. rewrite handleServerEvent_dispatch. simpl.
    by rewrite Heq. }
  clearbody w2. subst w2. split; [done|]. split; [done|].
  assert (Hin : p ∈ es_handlers (add_handler p s)).
  { simpl. apply elem_of_app. right. apply list_elem_of_here. }
  subst event. rewrite <- Hheap.
  apply (delivery_completes K p (length (heap w1))
           (new_Event type params true false)).
  - by apply in_delivery_after_match.
  - rewrite asapQueue_after_match. apply elem_of_app. right.
    apply list_elem_of_fmap. by exists p.
Qed.

(** X7. Waiting comes too late once the event has arrived: when an
    expectation is registered, the event it expects is handled and only
    then [waitExpectedEvent] is called for it, the expectation has left the
    registry and, no other entry matching, the promise returned is rejected
    at once with "No such expected event". *)
Theorem X7_late_waiter_rejected (type : string) (params sparams : Params)
    (timeout : option Z) (w : World) :
  obj_wf (expectedEventSpecs w) → handles_bounded w →
  Forall (λ kv, ¬ Matches type params kv.2) (expectedEventSpecs w) →
  (∀ key value, sparams !! key = Some value → js_get params key = value) →
  let w1 := exec (expectEvent (Some type) (Some sparams) timeout) w in
  let w2 := exec (handleServerEvent
                    {| ed_type := type; ed_params := Some params |}) w1 in
  expectedEventSpecs w2 = expectedEventSpecs w ∧
  result (waitExpectedEvent type (Some params)) w2
    = Ok (length (promises w)) ∧
  promises (exec (waitExpectedEvent type (Some params)) w2) =
    promises w ++ [Rejected (Error "No such expected event")].
Proof.
  intros Hwf Hb Hnone Hsub w1 w2.
  set (h := (expectedEventLastHandle w + 1)%N).
  set (s := new_spec (Some type) (Some sparams) timeout w).
  assert (Hs1 : expectedEventSpecs w1 = expectedEventSpecs w ++ [(h, s)]).
  { subst w1. unfold exec. by rewrite (expectEvent_appends _ _ _ _ Hb). }
  assert (Hp1 : promises w1 = promises w).
  { subst w1. unfold exec. by rewrite (expectEvent_appends _ _ _ _ Hb). }
  clearbody w1.
  assert (Hwf1 : obj_wf (expectedEventSpecs w1)).
  { rewrite Hs1. apply obj_wf_snoc; [done|].
    by apply handles_bounded_below. }
  assert (Hfm : first_match type params (expectedEventSpecs w1) h s
                  (expectedEventSpecs w) []).
  { split; [done|]. split; [|done]. split.
    - intros _. done.
    - intros sp [= <-]. exact Hsub. }
  destruct (dispatch_spec false type params w1 Hwf1)
    as [(h' & s' & before' & after' & Hfm' & Heq)|[Hnone1 _]].
  2:{ exfalso. rewrite Hs1 in Hnone1. apply Forall_app in Hnone1 as [_ H1].
      rewrite Forall_singleton in H1. apply H1.
      by destruct Hfm as (_ & Hm & _). }
  destruct (first_match_unique _ _ _ _ _ _ _ _ _ _ _ Hwf1 Hfm Hfm')
    as [<- <-].
  assert (Hba : before' ++ after' = expectedEventSpecs w).
  { destruct Hfm' as (Ho' & _).
    rewrite <- (obj_delete_middle before' h s after') by by rewrite <- Ho'.
    rewrite <- Ho', Hs1.
    rewrite (obj_delete_middle (expectedEventSpecs w) h s [])
      by by rewrite <- Hs1.
    by rewrite app_nil_r. }
  assert (Hw2 : w2 = after_match false type params h (es_handlers s)
                       (expectedEventSpecs w) w1).
  { subst w2. unfold exec. rewrite handleServerEvent_dispatch. simpl.
    by rewrite Heq, Hba. }
  clearbody w2. subst w2.
  assert (Hnone2 : Forall (λ kv, ¬ Matches type params kv.2)
            (expectedEventSpecs
               (after_match false type params h (es_handlers s)
                            (expectedEventSpecs w) w1))) by exact Hnone.
  unfold result, exec. rewrite (waitExpectedEvent_no_match _ _ _ Hnone2).
  cbn [fst snd]. split; [done|]. simpl. by rewrite Hp1.
Qed.

Section Settlement.

Variable K : APIConstants.

Lemma settle_pending_as p a w :
  promises w !! p = Some Pending →
  promises (exec (settle p a) w) !! p = Some (settled_as a).
Proof.
  intros Hp. unfold exec, settle, modify. simpl. rewrite Hp. simpl.
  rewrite list_lookup_insert_eq by by eapply lookup_lt_Some.
  by destruct a.
Qed.

Lemma settled_as_not_pending a : settled_as a ≠ Pending.
Proof. by destruct a. Qed.

Lemma in_settlement_run_next p a w :
  in_settlement p a w → in_settlement p a (exec (run_next K) w).
Proof.
  intros (Hpr & Hq & Hnr). unfold exec.
  destruct (asapQueue w) as [|t q] eqn:Hw.
  { rewrite run_next_nil by done. simpl. unfold in_settlement.
    rewrite Hw. by split_and!. }
  rewrite (run_next_cons K t q) by done.
  destruct (run_task_total K t (set_asapQueue q w))
    as (added & w1 & -> & Hq1 & Hh1 & Hs1 & Hadd & Hpr1).
  cbn [fst snd]. simpl in Hq1, Hh1, Hs1.
  assert (Hnr0 : ¬ registered_handler (set_asapQueue q w) p) by done.
  unfold in_settlement. split_and!.
  - destruct t as [| |[|n] p' a'|c|c s]; try by rewrite Hpr1.
    subst w1. destruct (decide (p' = p)) as [->|Hne].
    + rewrite (Hq 0%nat a') by apply list_elem_of_here.
      destruct Hpr as [Hpr|Hpr].
      * right. by apply settle_pending_as.
      * right. apply settle_settled; [done|apply settled_as_not_pending].
    + by rewrite settle_other.
  - intros n a' Hin. rewrite Hq1 in Hin.
    apply elem_of_app in Hin as [Hin|Hin].
    + apply (Hq n). by apply list_elem_of_further.
    + apply Hadd in Hin as [->|Hreg]; [|done].
      apply (Hq (S n)). apply list_elem_of_here.
  - intros (h & s & Hin & Hp). apply Hnr. exists h, s.
    split; [|done]. by apply Hs1 in Hin.
Qed.

Lemma in_settlement_run_queue n p a w :
  in_settlement p a w → in_settlement p a (exec (run_queue K n) w).
Proof.
  revert w. induction n as [|n IH]; intros w H; [done|].
  unfold exec. rewrite run_queue_S. apply IH.
  by apply in_settlement_run_next.
Qed.

(** A promise in settlement whose handler has been called is settled after
    finitely many turns of the queue, and stays so. *)
Lemma settlement_completes p a w :
  in_settlement p a w →
  TSettle 1 p a ∈ asapQueue w →
  ∃ n, ∀ m, (n ≤ m)%nat →
    promises (exec (run_queue K m) w) !! p = Some (settled_as a).
Proof.
  intros Hd Hin.
  apply list_elem_of_split in Hin as (q & q' & Hq).
  destruct (queue_progress K q _ q' w Hq) as [added Hq1].
  set (w1 := exec (run_queue K (length q)) w) in *.
  assert (Hd1 : in_settlement p a w1) by by apply in_settlement_run_queue.
  set (w2 := exec (run_next K) w1).
  assert (Hq2 : asapQueue w2 = (q' ++ added) ++ [TSettle 0 p a]).
  { subst w2. unfold exec. by rewrite (run_next_cons K _ _ w1 Hq1). }
  assert (Hd2 : in_settlement p a w2) by by apply in_settlement_run_next.
  destruct (queue_progress K (q' ++ added) _ [] w2 Hq2) as [added' Hq3].
  set (w3 := exec (run_queue K (length (q' ++ added))) w2) in *.
  assert (Hd3 : in_settlement p a w3) by by apply in_settlement_run_queue.
  set (w4 := exec (run_next K) w3).
  assert (Hp4 : promises w4 !! p = Some (settled_as a)).
  { subst w4. unfold exec. rewrite (run_next_cons K _ _ w3 Hq3).
    cbn [run_task]. destruct Hd3 as ([Hp|Hp] & _).
    - apply (settle_pending_as p a (set_asapQueue _ w3)). exact Hp.
    - apply (settle_settled p _ (set_asapQueue _ w3)); [exact Hp|].
      apply settled_as_not_pending. }
  exists (length q + (1 + (length (q' ++ added) + 1)))%nat.
  intros m Hm.
  assert (Hk : ∃ k,
    m = (length q + (1 + (length (q' ++ added) + (1 + k))))%nat).
  { exists (m - (length q + (1 + (length (q' ++ added) + 1))))%nat. lia. }
  destruct Hk as [k ->].
  rewrite !run_queue_add. fold w1.
  rewrite (run_queue_1 K w1). fold w2 w3.
  rewrite (run_queue_1 K w3). fold w4.
  apply run_queue_settled; [done|apply settled_as_not_pending].
Qed.

End Settlement.

(** X8. [unexpectEvent(handle)] fails the waiters of the expectation: the
    promise of each of them, pending until then, is rejected with the error
    "Event no longer expected" after finitely many turns of the queue of
    deferred callbacks, and stays so. *)
Theorem X8_cancelled_waiter_rejected (K : APIConstants) (w : World)
    (handle : Handle) (s : EventSpec) (p : PromiseId) :
  waiters_ok w →
  obj_get handle (expectedEventSpecs w) = Some s →
  p ∈ es_handlers s →
  promises w !! p = Some Pending ∧
  ∃ n, ∀ m, (n ≤ m)%nat →
    promises (exec (run_queue K m) (exec (unexpectEvent handle) w)) !! p
      = Some (Rejected (Error "Event no longer expected")).
Proof.
  intros [Hw1 Hw2] Hget Hp.
  pose proof (obj_get_elem_of _ _ _ Hget) as Hin.
  assert (Hreg : registered_handler w p) by by exists handle, s.
  destruct (Hw1 p Hreg) as [Hpend Hnq]. split; [done|].
  unfold exec at 2. rewrite (unexpectEvent_pending handle s w Hget).
  cbn [snd].
  apply (settlement_completes K p (HError ERR_UNEXPECTED)).
  - split_and!.
    + by left.
    + intros n a' Hq. simpl in Hq. apply elem_of_app in Hq as [Hq|Hq].
      * by apply Hnq in Hq.
      * apply list_elem_of_fmap in Hq as (p' & [= _ _ ->] & _). done.
    + intros (h' & s' & Hin' & Hp'). simpl in Hin'.
      apply elem_of_obj_delete in Hin' as [Hin' Hne].
      apply Hne. symmetry. by apply (Hw2 handle s h' s' p).
  - simpl. apply elem_of_app. right.
    apply list_elem_of_fmap. by exists p.
Qed.

(** X9. The sweep fails the waiters of an expectation whose age exceeds its
    timeout: the promise of each of them, pending until then, is rejected
    with the error "Timeout waiting for expected event" after finitely many
    turns of the queue of deferred callbacks, and stays so. *)
Theorem X9_expired_waiter_rejected (K : APIConstants) (w : World)
    (handle : Handle) (s : EventSpec) (p : PromiseId) :
  obj_wf (expectedEventSpecs w) → waiters_ok w →
  (handle, s) ∈ expectedEventSpecs w →
  clock w - es_added s > es_timeout s →
  p ∈ es_handlers s →
  promises w !! p = Some Pending ∧
  ∃ n, ∀ m, (n ≤ m)%nat →
    promises (exec (run_queue K m) (exec cleanupExpectedEvents w)) !! p
      = Some (Rejected (Error "Timeout waiting for expected event")).
Proof.
  intros Hwf [Hw1 Hw2] Hin Hexp Hp.
  assert (Hreg : registered_handler w p) by by exists handle, s.
  destruct (Hw1 p Hreg) as [Hpend Hnq]. split; [done|].
  unfold exec at 2. rewrite cleanupExpectedEvents_eq. cbn [snd].
  apply (settlement_completes K p (HError ERR_TIMEOUT)).
  - split_and!.
    + left. by rewrite promises_after_expiry.
    + intros n a' Hq. rewrite asapQueue_after_expiry in Hq. simpl in Hq.
      apply elem_of_app in Hq as [Hq|Hq].
      * by apply Hnq in Hq.
      * apply list_elem_of_In, in_concat in Hq as (l & Hl & Hq).
        apply list_elem_of_In in Hl, Hq.
        apply list_elem_of_fmap in Hl as ([h' s'] & -> & _).
        apply list_elem_of_fmap in Hq as (p' & [= _ _ ->] & _). done.
    + intros (h' & s' & Hin' & Hp'). rewrite specs_after_expiry in Hin'.
      simpl in Hin'. apply elem_of_kept_specs in Hin' as [Hin' Hne].
      assert (handle = h') as <- by by apply (Hw2 handle s h' s' p).
      assert (s = s') as <- by by apply (obj_wf_unique _ handle s s' Hwf).
      by apply Hne.
  - rewrite asapQueue_after_expiry. simpl. apply elem_of_app. right.
    apply list_elem_of_In, in_concat.
    exists (map (λ p, TSettle 1 p (HError ERR_TIMEOUT)) (es_handlers s)).
    split; apply list_elem_of_In.
    + apply list_elem_of_fmap. exists (handle, s). split; [done|].
      by apply elem_of_expired_specs.
    + apply list_elem_of_fmap. by exists p.
Qed.

(** ** Which expectation an event resolves *)

(** X10. Of the pending expectations that match an event from the server,
    the one with the least handle, which is the one registered first, is
    resolved: it alone leaves the registry, and the handlers called are
    its own. *)
Theorem X10_oldest_match_wins (w : World) (ed : EventData) :
  obj_wf (expectedEventSpecs w) →
  (∃ kv, kv ∈ expectedEventSpecs w ∧
         Matches (ed_type ed) (default ∅ (ed_params ed)) kv.2) →
  ∃ h s,
    (h, s) ∈ expectedEventSpecs w ∧
    Matches (ed_type ed) (default ∅ (ed_params ed)) s ∧
    (∀ h' s', (h', s') ∈ expectedEventSpecs w →
              Matches (ed_type ed) (default ∅ (ed_params ed)) s' →
              (h ≤ h')%N) ∧
    (∀ k v, (k, v) ∈ expectedEventSpecs (exec (handleServerEvent ed) w) ↔
            (k, v) ∈ expectedEventSpecs w ∧ k ≠ h) ∧
    (∀ h' p a, EHandler h' p a ∈ new_effects (handleServerEvent ed) w →
               h' = h).
Proof.
  intros Hwf Hex.
  set (type := ed_type ed) in *.
  set (params := default ∅ (ed_params ed)) in *.
  destruct (dispatch_spec false type params w Hwf)
    as [(h & s & before & after & Hfm & Heq)|[Hnone _]];
    [|by apply first_match_exists in Hex].
  pose proof Hfm as (Ho & Hm & Hb).
  assert (Hw : exec (handleServerEvent ed) w =
            after_match false type params h (es_handlers s)
                        (before ++ after) w).
  { unfold exec. rewrite handleServerEvent_dispatch. fold type params.
    by rewrite Heq. }
  pose proof Hwf as Hwf'. rewrite Ho in Hwf'.
  pose proof (obj_wf_middle _ _ _ _ Hwf') as [Hlt Hgt].
  exists h, s. split_and!.
  - rewrite Ho. apply elem_of_app. right. apply list_elem_of_here.
  - done.
  - intros h' s' Hin Hm'. rewrite Ho in Hin.
    apply elem_of_app in Hin as [Hin|Hin].
    + exfalso. rewrite Forall_forall in Hb. by apply (Hb _ Hin).
    + apply elem_of_cons in Hin as [[= -> ->]|Hin]; [lia|].
      rewrite Forall_forall in Hgt. apply Hgt in Hin. simpl in Hin. lia.
  - intros k v. rewrite Hw.
    change (expectedEventSpecs (after_match false type params h
              (es_handlers s) (before ++ after) w)) with (before ++ after).
    rewrite <- (obj_delete_middle before h s after Hwf'), <- Ho.
    apply elem_of_obj_delete.
  - intros h' p a Hin.
    assert (Htr : new_effects (handleServerEvent ed) w =
      handler_calls h (HEvent (length (heap w))) (es_handlers s) ++
      listener_calls (S (length (heap w)))
        (reached (new_Event type params true false) (eventListeners w)).1).
    { apply new_effects_eq. rewrite Hw. apply trace_after_match. }
    rewrite Htr in Hin. apply elem_of_app in Hin as [Hin|Hin].
    + by apply list_elem_of_fmap in Hin as (? & [= -> _ _] & _).
    + by apply handler_not_listener_call in Hin.
Qed.


(** X12. The look-up ignores the params that an expectation does not
    mention: an entry none of whose params is [undefined] and that matches
    a candidate matches every candidate with the same type that has these
    params and more. *)
Theorem X12_matching_ignores_extra_params (type : string)
    (params params' : Params) (s : EventSpec) :
  params ⊆ params' →
  (∀ sparams key, es_params s = Some sparams →
                  sparams !! key ≠ Some VUndef) →
  spec_matches type (Some params) s = Ok true →
  spec_matches type (Some params') s = Ok true.
Proof.
  intros Hsub Hdef. rewrite !spec_matches_matchesb.
  intros [= Hm]. f_equal. apply matchesb_Matches.
  apply matchesb_Matches in Hm as [Ht Hp]. split; [done|].
  intros sparams Hs key value Hk. specialize (Hp sparams Hs key value Hk).
  unfold js_get in *. destruct (params !! key) as [v|] eqn:E.
  - simpl in Hp. subst v.
    by rewrite (lookup_weaken params params' key value E Hsub).
  - simpl in Hp. subst value. by apply Hdef in Hk.
Qed.

(** X13. Whatever happens to the module from its initial state on, the keys
    of the registry are distinct, ascending and at most the last handle
    given out; every waiter of a registered expectation has a pending
    promise that nothing queued will settle, and waits for that
    expectation only; and what is queued settles promises that exist. *)
Theorem X13_waiters_pending_when_reachable (K : APIConstants)
    (actions : list Action) (now : Z) (digest : string) :
  let w := run K actions (initial now digest) in
  obj_wf (expectedEventSpecs w) ∧
  Forall (λ kv, (kv.1 ≤ expectedEventLastHandle w)%N)
         (expectedEventSpecs w) ∧
  (∀ h s p, (h, s) ∈ expectedEventSpecs w → p ∈ es_handlers s →
     promises w !! p = Some Pending ∧
     (∀ n a, TSettle n p a ∉ asapQueue w) ∧
     (∀ h' s', (h', s') ∈ expectedEventSpecs w → p ∈ es_handlers s' →
               h' = h)) ∧
  (∀ n p a, TSettle n p a ∈ asapQueue w → (p < length (promises w))%nat).
Proof.
  intros w.
  destruct (registry_ok_run K actions _ (registry_ok_initial now digest))
    as (Hwf & Hle & [Hw1 Hw2] & Hq).
  fold w in Hwf, Hle, Hw1, Hw2, Hq. split_and!; try done.
  intros h s p Hin Hp.
  destruct (Hw1 p) as [Hpend Hnone]; [by exists h, s|].
  split_and!; try done.
  intros h' s' Hin' Hp'. by apply (Hw2 h' s' h s p).
Qed.

(** ** Removing a listener *)

Lemma set_eventListeners_same w :
  set_eventListeners (eventListeners w) w = w.
Proof. by destruct w. Qed.

Lemma remove_first_absent cb ls :
  cb ∉ callbacks_of ls → remove_first cb ls = ls.
Proof.
  induction ls as [|l ls IH]; simpl; [done|]. intros Hn.
  apply not_elem_of_cons in Hn as [Hne Hn].
  destruct (N.eqb_spec (cb_id (l_callback l)) cb); [congruence|].
  by rewrite IH.
Qed.

Lemma remove_first_middle cb before l after :
  cb_id (l_callback l) = cb → cb ∉ callbacks_of before →
  remove_first cb (before ++ l :: after) = before ++ after.
Proof.
  intros Hl. induction before as [|x before IH]; simpl; intros Hn.
  - by rewrite Hl, N.eqb_refl.
  - apply not_elem_of_cons in Hn as [Hne Hn].
    destruct (N.eqb_spec (cb_id (l_callback x)) cb); [congruence|].
    by rewrite IH.
Qed.

(** X14. [removeEventListener(eventCallback)] removes the first listener
    registered with that callback and no other; the remaining listeners
    keep their order. With no such listener the world is unchanged, and
    removing a callback right after it was added, when it was not
    registered before, gives back the world before the two calls. *)
Theorem X14_removeEventListener_first (eventCallback : Callback)
    (rest : list JsVal) (w : World) :
  (cb_id eventCallback ∉ callbacks_of (eventListeners w) →
   removeEventListener eventCallback w = (Ok tt, w)) ∧
  (∀ before l after,
     eventListeners w = before ++ l :: after →
     cb_id (l_callback l) = cb_id eventCallback →
     cb_id eventCallback ∉ callbacks_of before →
     removeEventListener eventCallback w =
       (Ok tt, set_eventListeners (before ++ after) w)) ∧
  (cb_id eventCallback ∉ callbacks_of (eventListeners w) →
   exec (addEventListener eventCallback rest ;;
         removeEventListener eventCallback) w = w).
Proof.
  split_and!.
  - intros Hn. unfold removeEventListener, modify.
    by rewrite remove_first_absent, set_eventListeners_same.
  - intros before l after Hw Hl Hn. unfold removeEventListener, modify.
    by rewrite Hw, remove_first_middle.
  - intros Hn. unfold exec. rewrite bind_eq.
    unfold addEventListener, removeEventListener, modify. cbv beta iota.
    cbn [snd]. unfold set_eventListeners at 1. simpl.
    rewrite (remove_first_middle _ _ _ []) by done.
    rewrite app_nil_r. apply world_eta.
Qed.

(** ** Starting and stopping *)

Section Listening.

Variable K : APIConstants.

Lemma startListening_eq w :
  truthy_number (listeningTime w) = false →
  startListening K w =
    (Ok tt, after_wait K true (set_listeningTime (Some (clock w)) w)).
Proof.
  intros Hl. unfold startListening. mred. rewrite Hl. mred.
  apply wait_eq.
Qed.

Lemma startListening_active w :
  truthy_number (listeningTime w) = true →
  startListening K w =
    (Throw (AssertionError "Listening mechanism already active"), w).
Proof. intros Hl. unfold startListening. mred. by rewrite Hl. Qed.

End Listening.

Lemma listen_settled_stale K stamp outcome w :
  listeningTime w ≠ stamp → listen_settled K stamp outcome w = (Ok tt, w).
Proof.
  intros Hne. destruct outcome as [result|error]; simpl.
  - unfold try_catch. by rewrite wait_then_stale.
  - by apply wait_catch_stale.
Qed.

(** X15. [startListening()] on a module that is not listening returns, sets
    the listening time to the time of the call and issues one [/listen]
    request, with a long-poll budget of 1 second and a request timeout of
    that plus the server timeout; [isListening()] is true from then on. A
    second [startListening()] throws the assertion error and changes
    nothing, so that no second request is made; after [stopListening()],
    [isListening()] is false and [startListening()] returns again. *)
Theorem X15_startListening_once (K : APIConstants) (w : World) :
  truthy_number (listeningTime w) = false → clock w ≠ 0 →
  let w1 := exec (startListening K) w in
  result (startListening K) w = Ok tt ∧
  listeningTime w1 = Some (clock w) ∧
  result isListening w1 = Ok true ∧
  new_effects (startListening K) w =
    [EApiCall (default "" (session_of w)) 1 (1 + DEFAULT_SERVER_TIMEOUT K)] ∧
  inFlight w1 = inFlight w ++ [Some (clock w)] ∧
  startListening K w1 =
    (Throw (AssertionError "Listening mechanism already active"), w1) ∧
  result isListening (exec stopListening w1) = Ok false ∧
  result (startListening K) (exec stopListening w1) = Ok tt.
Proof.
  intros Hl Hc w1. subst w1. unfold result, exec, new_effects, exec.
  rewrite startListening_eq by done. cbn [fst snd].
  assert (Ht : truthy_number (Some (clock w)) = true).
  { simpl. by rewrite bool_decide_eq_false_2. }
  split_and!; try done.
  - simpl. by rewrite bool_decide_eq_false_2.
  - simpl. rewrite drop_app_length.
    unfold listen_timeout. by rewrite orb_true_r.
  - by rewrite startListening_active.
  - by rewrite startListening_eq.
Qed.

(** ** The requests of the poll loop *)







(** ** Successes and failures of the poll *)

Ltac queue_tac :=
  unfold keeps, queue_extends, alloc_event, read_event, new_promise;
  repeat case_match; simpl; intros (l & Hq & Hl);
  first
    [ by exists l
    | eexists (l ++ [_]); rewrite Hq, app_assoc; split; [reflexivity|];
      apply Forall_app; split; [exact Hl|]; by apply Forall_singleton ].

Lemma queue_extends_handleServerEvent q0 ed :
  preserves (keeps (queue_extends q0)) (handleServerEvent ed).
Proof. unfold_module_but_wait; keeps_walk queue_tac. Qed.

Lemma queue_extends_batch q0 batch w :
  asapQueue w = q0 →
  queue_extends q0 (exec (forEach handleServerEvent batch) w).
Proof.
  intros Hq.
  apply (preserves_forEach _ (keeps_refl _) (keeps_trans _) handleServerEvent
           batch (queue_extends_handleServerEvent q0) w).
  exists []. by rewrite app_nil_r.
Qed.

Section Cycle.

Variable K : APIConstants.

Lemma listen_settled_success result w :
  listen_settled K (listeningTime w) (Ok result) w =
    (Ok tt, exec (process_result result) (after_success_reset w)).
Proof.
  simpl. unfold try_catch at 1. rewrite wait_then_current_eq.
  unfold try_catch, exec.
  by destruct (process_result result (after_success_reset w))
    as [[[]|e] w1].
Qed.

Lemma process_result_eq result w :
  exec (process_result result) w =
    exec (forEach handleServerEvent (default [] result))
         (set_asapQueue
            (asapQueue w ++ map TSyncOk (syncListenCallbacks w)) w).
Proof.
  unfold exec, process_result. rewrite bind_eq. unfold gets at 1.
  cbv beta iota. rewrite bind_eq, forEach_asap. cbv beta iota.
  by destruct result as [[|ed batch]|].
Qed.

Lemma failure_cycle_suppressed error w :
  ignoreListenErrors w = true →
  failure_cycle K error w =
    (Ok tt,
     after_wait K false
       (set_timers (timers w ++ [retry_timer (SERVER_RETRY_INTERVAL K)]) w)).
Proof.
  intros Hign. unfold failure_cycle. mred.
  rewrite wait_catch_suppressed by done. mred. apply wait_eq.
Qed.

End Cycle.

Ltac error_state_tac :=
  unfold keeps, error_state_ok, alloc_event, read_event, new_promise;
  repeat case_match; simpl; done.

Lemma error_state_ok_listen_settled K stamp outcome :
  preserves (keeps error_state_ok) (listen_settled K stamp outcome).
Proof.
  intros w [Hge Hiff].
  destruct (decide (listeningTime w = stamp)) as [<-|Hne];
    [|by rewrite listen_settled_stale].
  destruct outcome as [result|error].
  - rewrite listen_settled_success. cbn [snd].
    pose proof (process_result_poll_state result (after_success_reset w))
      as (_ & H2 & _ & H4 & _).
    unfold exec, error_state_ok. rewrite H2, H4. simpl. done.
  - cbn [listen_settled]. destruct (ignoreListenErrors w) eqn:Hign.
    + by rewrite wait_catch_suppressed.
    + rewrite wait_catch_failure by done. split; simpl; [lia|].
      split; [done|lia].
Qed.

Lemma error_state_ok_act K a : preserves (keeps error_state_ok) (act K a).
Proof.
  destruct a;
    try (unfold_module; keeps_walk error_state_tac; fail).
  apply error_state_ok_listen_settled.
Qed.

(** X17. Whatever happens to the module from its initial state on, the
    count of consecutive failures is not negative and an error is recorded
    exactly when the count is positive. So the request of the next [wait]
    that a timer or the queue starts has the long-poll budget of 60 seconds
    exactly when no failure is outstanding, and of 1 second otherwise. *)
Theorem X17_error_state_consistent (K : APIConstants) (actions : list Action)
    (now : Z) (digest : string) :
  let w := run K actions (initial now digest) in
  0 ≤ listenErrorCount w ∧
  (syncListenError w = None ↔ listenErrorCount w = 0) ∧
  (∃ sid, new_effects (wait K false) w =
     [EApiCall sid (if bool_decide (listenErrorCount w = 0) then 60 else 1)
        ((if bool_decide (listenErrorCount w = 0) then 60 else 1)
         + DEFAULT_SERVER_TIMEOUT K)]).
Proof.
  intros w.
  assert (H : error_state_ok w).
  { apply keeps_run; [apply error_state_ok_act|]. by split. }
  destruct H as [Hge Hiff]. split; [done|]. split; [done|].
  unfold new_effects, exec. rewrite wait_eq. cbn [snd]. simpl.
  rewrite drop_app_length. eexists. unfold listen_timeout.
  rewrite orb_false_r.
  destruct (syncListenError w) as [e|] eqn:E.
  - rewrite (bool_decide_eq_true_2 (is_Some (Some e))) by by eexists.
    rewrite bool_decide_eq_false_2; [done|].
    intros H0. apply Hiff in H0. done.
  - rewrite (bool_decide_eq_false_2 (is_Some None)) by by intros [? ?].
    rewrite bool_decide_eq_true_2; [done|]. by apply Hiff.
Qed.

(** X18. While the errors are suppressed ([setIgnoreListenErrors(true)]), a
    run of failures, each followed by the retry it has scheduled, changes
    neither the count of failures nor the recorded error and defers no
    call of a sync callback; each failure arms a timer of
    [SERVER_RETRY_INTERVAL] seconds, never the fast one of 1 second, and
    each retry issues one request. *)
Theorem X18_suppressed_failures (K : APIConstants) (w : World)
    (errors : list JsError) :
  ignoreListenErrors w = true →
  let w' := exec (forEach (failure_cycle K) errors) w in
  result (forEach (failure_cycle K) errors) w = Ok tt ∧
  listenErrorCount w' = listenErrorCount w ∧
  syncListenError w' = syncListenError w ∧
  asapQueue w' = asapQueue w ∧
  timers w' =
    timers w ++
    replicate (length errors)
      {| t_millis := SERVER_RETRY_INTERVAL K * 1000; t_repeat := false;
         t_task := TWait |} ∧
  length (inFlight w') = (length (inFlight w) + length errors)%nat.
Proof.
  intros Hign w'. subst w'. revert w Hign.
  induction errors as [|e errors IH]; intros w Hign.
  - simpl. rewrite app_nil_r. split_and!; try done; lia.
  - unfold result, exec in *. cbn [forEach]. rewrite bind_eq.
    rewrite failure_cycle_suppressed by done. cbv beta iota.
    specialize (IH (after_wait K false
      (set_timers (timers w ++ [retry_timer (SERVER_RETRY_INTERVAL K)]) w))
      Hign).
    destruct IH as (H1 & H2 & H3 & H4 & H5 & H6).
    rewrite H1, H2, H3, H4, H5, H6. simpl.
    split_and!; try done.
    + by rewrite <- app_assoc.
    + rewrite length_app. simpl. lia.
Qed.

(** X19. A success that is not stale returns normally whatever the
    listeners do with the events, so that the catch continuation of the
    request does not run: no timer is armed and no request is issued at
    once. What it defers is the next [wait], once, then one call for each
    sync callback, then settlings of promises only. The failure state is
    reset. *)
Theorem X19_success_schedules_one_wait (K : APIConstants) (w : World)
    (response : option (list EventData)) :
  let m := listen_settled K (listeningTime w) (Ok response) in
  let w' := exec m w in
  result m w = Ok tt ∧
  timers w' = timers w ∧ inFlight w' = inFlight w ∧
  listenErrorCount w' = 0 ∧ syncListenError w' = None ∧
  listeningTime w' = listeningTime w ∧
  ∃ settles,
    asapQueue w' =
      asapQueue w ++ TWait :: map TSyncOk (syncListenCallbacks w) ++ settles ∧
    Forall is_settle settles.
Proof.
  intros m w'. subst m w'. unfold result, exec at 1 2 3 4 5 6.
  rewrite listen_settled_success. cbn [fst snd].
  pose proof (process_result_poll_state response (after_success_reset w))
    as (H1 & H2 & _ & H4 & H5 & _ & _ & H8 & H9 & _).
  fold (exec (process_result response) (after_success_reset w)) in *.
  rewrite H1, H2, H4, H8, H9. split_and!; try done.
  rewrite process_result_eq.
  match goal with
  | |- context [exec (forEach handleServerEvent ?b) ?w1] =>
      destruct (queue_extends_batch (asapQueue w1) b w1 eq_refl)
        as (settles & Hq & Hs)
  end.
  exists settles. split; [|done]. rewrite Hq. simpl.
  by rewrite <- !app_assoc.
Qed.

Lemma forEach_app_throw {A} (f : A → M unit) (pre post : list A) (x : A)
    (err : JsError) (w : World) :
  result (forEach f pre) w = Ok tt →
  result (f x) (exec (forEach f pre) w) = Throw err →
  forEach f (pre ++ x :: post) w =
    (Throw err, exec (f x) (exec (forEach f pre) w)).
Proof.
  revert w. induction pre as [|y pre IH]; intros w Hpre Hx.
  - cbn [app forEach]. rewrite bind_eq. unfold result, exec in *.
    simpl in *. destruct (f x w) as [[[]|e] w1]; simpl in *; [done|].
    by injection Hx as ->.
  - cbn [app forEach] in *. unfold result, exec in *.
    destruct (f y w) as [[[]|e] w1] eqn:E.
    + assert (Hb : ∀ l, (f y ;; forEach f l) w = forEach f l w1)
        by (intros l; by rewrite bind_eq, E).
      rewrite !Hb in *. by apply IH.
    + rewrite bind_eq, E in Hpre. done.
Qed.

(** X20. A listener that throws while an event of a batch is handled ends the
    batch: the continuation still returns normally, and the world it leaves
    is the one in which that event was the last of the batch, so that the
    events after it are neither matched against the expectations nor
    delivered to any listener. *)
Theorem X20_batch_abandoned_on_throw (w : World)
    (pre post : list EventData) (ed : EventData) (err : JsError) :
  let handled := exec (forEach handleServerEvent pre) (batch_start w) in
  result (forEach handleServerEvent pre) (batch_start w) = Ok tt →
  result (handleServerEvent ed) handled = Throw err →
  let m := wait_then (listeningTime w) (Some (pre ++ ed :: post)) in
  result m w = Ok tt ∧
  exec m w = exec (handleServerEvent ed) handled ∧
  exec m w = exec (wait_then (listeningTime w) (Some (pre ++ [ed]))) w.
Proof.
  intros handled Hpre Hed m. subst m. unfold result at 1, exec at 1 3 4.
  rewrite !wait_then_batch. unfold try_catch.
  rewrite !(forEach_app_throw _ pre _ ed err (batch_start w) Hpre Hed).
  done.
Qed.

(** X21. [stopListening()] does not cancel a [wait] that is already
    scheduled. When that [wait] runs after the stop, it issues a request
    stamped with the listening time [null] while [isListening()] is false;
    the response to it is not stale, since the listening time is still
    [null]: the events of the batch are handled one after the other as for
    a module that listens, and the next [wait] is deferred again. *)
Theorem X21_scheduled_wait_survives_stop (K : APIConstants) (w : World)
    (batch : list EventData) :
  let w1 := exec (stopListening ;; wait K false) w in
  let m := listen_settled K None (Ok (Some batch)) in
  result isListening w1 = Ok false ∧
  inFlight w1 = inFlight w ++ [None] ∧
  result m w1 = Ok tt ∧
  exec m w1 = exec (forEach handleServerEvent batch) (batch_start w1) ∧
  TWait ∈ asapQueue (exec m w1).
Proof.
  intros w1 m.
  assert (Hw1 : w1 = after_wait K false (set_listeningTime None w)).
  { subst w1. unfold exec. rewrite bind_eq. unfold stopListening, modify.
    cbv beta iota. by rewrite wait_eq. }
  assert (Hl : listeningTime w1 = None) by by rewrite Hw1.
  assert (Hm : m w1 =
            (Ok tt, exec (forEach handleServerEvent batch) (batch_start w1))).
  { subst m. rewrite <- Hl at 1. rewrite listen_settled_success.
    f_equal. unfold exec.
    rewrite <- (try_catch_swallow_world _ (batch_start w1)).
    rewrite <- wait_then_batch, wait_then_current_eq.
    by rewrite try_catch_swallow_world. }
  clearbody w1. subst w1.
  unfold result, exec at 1 2 3. rewrite Hm. cbn [fst snd].
  split_and!; try done.
  match goal with
  | |- context [exec (forEach handleServerEvent ?b) ?w1] =>
      destruct (queue_extends_batch (asapQueue w1) b w1 eq_refl)
        as (settles & Hq & Hs)
  end.
  rewrite Hq. simpl. apply elem_of_app. left. apply elem_of_app. right.
  apply list_elem_of_here.
Qed.

(** X22. [stopListening()] does not cancel the timer that a failure has
    armed. After a failure, a restart ([stopListening()] and
    [startListening()], as on a change of visibility) at the time [now]
    and the firing of the timer, two requests are in flight that both
    carry the current listening time; a success of each of them is
    accepted, and each defers a next [wait] of its own. *)
Theorem X22_restart_during_backoff (K : APIConstants) (w : World)
    (error : JsError) (now : Z) :
  let w1 := exec (wait_catch K (listeningTime w) error) w in
  let w2 := exec (stopListening ;; startListening K) (set_clock now w1) in
  let w3 := exec (wait K false) w2 in
  let m := listen_settled K (Some now) (Ok None) in
  (∃ seconds,
     timers w1 =
       timers w ++ [{| t_millis := seconds * 1000; t_repeat := false;
                       t_task := TWait |}]) ∧
  timers w3 = timers w1 ∧
  listeningTime w3 = Some now ∧
  inFlight w3 = inFlight w ++ [Some now; Some now] ∧
  asapQueue (exec (m ;; m) w3) =
    asapQueue w3 ++
    (TWait :: map TSyncOk (syncListenCallbacks w)) ++
    (TWait :: map TSyncOk (syncListenCallbacks w)).
Proof.
  intros w1 w2 w3 m.
  assert (H1 : ∃ seconds q,
    w1 = set_syncListenError (syncListenError w1)
           (set_listenErrorCount (listenErrorCount w1)
             (set_asapQueue q
               (set_timers (timers w ++ [retry_timer seconds]) w)))).
  { subst w1. unfold exec.
    destruct (ignoreListenErrors w) eqn:Hign.
    - rewrite wait_catch_suppressed by done. by eexists _, _.
    - rewrite wait_catch_failure by done. by eexists _, _. }
  destruct H1 as (seconds & q & H1).
  assert (H3 : w3 = after_wait K false
                 (after_wait K true
                    (set_listeningTime (Some now) (set_clock now w1)))).
  { subst w3 w2. unfold exec. rewrite bind_eq.
    unfold stopListening, modify. cbv beta iota.
    rewrite startListening_eq by done. by rewrite wait_eq. }
  assert (Hcb : syncListenCallbacks w3 = syncListenCallbacks w).
  { rewrite H3. simpl. by rewrite H1. }
  assert (Hl : listeningTime w3 = Some now) by by rewrite H3.
  assert (Hm : ∀ w', listeningTime w' = Some now →
    m w' = (Ok tt, set_asapQueue
                     (asapQueue w' ++ TWait :: map TSyncOk
                                                 (syncListenCallbacks w'))
                     (set_listenErrorCount 0
                        (set_syncListenError None w')))).
  { intros w' Hw'. subst m. rewrite <- Hw'. rewrite listen_settled_success.
    f_equal. rewrite process_result_eq. simpl. unfold exec. simpl.
    unfold set_asapQueue. simpl. by rewrite <- app_assoc. }
  clearbody w3 w1. split_and!.
  - exists seconds. by rewrite H1.
  - by rewrite H3.
  - done.
  - rewrite H3. simpl. rewrite H1. simpl. by rewrite <- app_assoc.
  - unfold exec. rewrite bind_eq, (Hm w3 Hl). cbv beta iota.
    rewrite Hm by done. simpl. rewrite Hcb. by rewrite <- !app_assoc.
Qed.

(** ** The application becoming visible *)

Lemma onVisibilityChange_eq K debug visible w :
  onVisibilityChange K debug visible w =
    if visible && truthy_number (listeningTime w) && negb debug
    then (Ok tt, after_wait K true (set_listeningTime (Some (clock w)) w))
    else (Ok tt, w).
Proof.
  unfold onVisibilityChange. destruct visible; simpl; [|done].
  rewrite bind_eq. unfold isListening, gets. cbv beta iota.
  destruct (truthy_number (listeningTime w)) eqn:Hl; simpl; [|done].
  destruct debug; simpl; [done|].
  rewrite bind_eq. unfold stopListening, modify. cbv beta iota.
  by rewrite startListening_eq.
Qed.

(** X23. The function that [main] connects to the visibility signal never
    throws: [startListening] is reached after [stopListening] only, which
    clears the way for it. It leaves the world as it is when the window is
    not visible, in debug mode, or when the module is not listening;
    otherwise the listening time becomes the time of the call, one quick
    [/listen] request is issued, and the response to a request stamped with
    any other time is discarded from then on. *)
Theorem X23_onVisibilityChange_restarts (K : APIConstants)
    (debug visible : bool) (w : World) :
  clock w ≠ 0 →
  let m := onVisibilityChange K debug visible in
  result m w = Ok tt ∧
  (visible = false ∨ debug = true ∨ result isListening w = Ok false →
   exec m w = w) ∧
  (visible = true → debug = false → result isListening w = Ok true →
   listeningTime (exec m w) = Some (clock w) ∧
   result isListening (exec m w) = Ok true ∧
   inFlight (exec m w) = inFlight w ++ [Some (clock w)] ∧
   new_effects m w =
     [EApiCall (default "" (session_of w)) 1
               (1 + DEFAULT_SERVER_TIMEOUT K)] ∧
   ∀ t outcome, t ≠ clock w →
     listen_settled K (Some t) outcome (exec m w) = (Ok tt, exec m w)).
Proof.
  intros Hc m. subst m.
  unfold result, exec, new_effects, exec.
  rewrite onVisibilityChange_eq.
  unfold isListening, gets. cbn [fst snd].
  split_and!.
  - by destruct (_ && _ && _).
  - intros [->|[->|[= ->]]]; simpl; try done.
    + by rewrite andb_false_r.
    + by rewrite andb_false_r.
  - intros -> -> [= ->]. cbn [andb negb fst snd]. split_and!; try done.
    + simpl. by rewrite bool_decide_eq_false_2.
    + simpl. rewrite drop_app_length.
      unfold listen_timeout. by rewrite orb_true_r.
    + intros t outcome Ht. apply listen_settled_stale. simpl. congruence.
Qed.

(** ** The datasets of a bar chart *)

Section BarChartFacts.

Variable Colors_alpha : option string → Z → string.

Lemma map_datasets_rows colors i (rows : list (list ChartValue)) :
  map_datasets Colors_alpha colors i (map CArr rows) =
    Ok (imap (λ k row, row_dataset Colors_alpha colors (i + k) row) rows).
Proof.
  revert i. induction rows as [|row rows IH]; intros i; [done|].
  cbn [map map_datasets]. unfold adapt_dataset at 1. cbn [dataset_points].
  rewrite IH. cbn [imap]. rewrite Nat.add_0_r. do 2 f_equal.
  apply imap_ext. intros k row' _. simpl. f_equal. lia.
Qed.

Lemma map_datasets_throws colors i (rows : list (list ChartValue)) x rest :
  ∃ msg, map_datasets Colors_alpha colors i (map CArr rows ++ CVal x :: rest)
         = Throw (TypeError msg).
Proof.
  revert i. induction rows as [|row rows IH]; intros i.
  - cbn [map app map_datasets]. unfold adapt_dataset. cbn [dataset_points].
    destruct x; eauto.
  - cbn [map app map_datasets]. unfold adapt_dataset at 1.
    cbn [dataset_points]. destruct (IH (S i)) as [msg ->]. eauto.
Qed.

End BarChartFacts.

(** X24. [_adaptDatasets] on an array of rows the first of which is not
    empty gives one dataset for each row, in order: its colour is taken
    from [colors] cyclically, and its points are the values of the row in
    order, each with its index as abscissa. An array whose first element
    is not an array is one row. When the first row is empty there is no
    dataset at all, whatever the other rows hold; an element that is not
    an array among the rows that follow makes the function throw a
    [TypeError]. *)
Theorem X24_adaptDatasets_rows (Colors_alpha : option string → Z → string)
    (colors : list string) (v : ChartValue) (vs : list ChartValue)
    (rest : list (list ChartValue)) :
  let rows := (v :: vs) :: rest in
  _adaptDatasets Colors_alpha (CArr (map CArr rows)) colors =
    Ok (imap (λ i row,
                let color := colors !! (i mod length colors)%nat in
                {| hoverBackgroundColor := Colors_alpha color 75;
                   backgroundColor := color; borderColor := color;
                   borderWidth := 0;
                   ds_data := imap (λ j y, {| pt_x := j; pt_y := y |}) row |})
             rows) ∧
  (∀ x xs,
     _adaptDatasets Colors_alpha (CArr (CVal x :: xs)) colors =
     _adaptDatasets Colors_alpha (CArr [CArr (CVal x :: xs)]) colors) ∧
  (∀ data, _adaptDatasets Colors_alpha (CArr (CArr [] :: data)) colors
           = Ok []) ∧
  (∀ x data,
     ∃ msg, _adaptDatasets Colors_alpha
              (CArr (map CArr rows ++ CVal x :: data)) colors
            = Throw (TypeError msg)).
Proof.
  intros rows. subst rows. split_and!.
  - unfold _adaptDatasets. cbn [map]. cbv beta iota zeta.
    change (CArr (v :: vs) :: map CArr rest)
      with (map CArr ((v :: vs) :: rest)).
    by rewrite map_datasets_rows.
  - done.
  - done.
  - intros x data. unfold _adaptDatasets. cbn [map app]. cbv beta iota zeta.
    change (CArr (v :: vs) :: map CArr rest ++ CVal x :: data)
      with (map CArr ((v :: vs) :: rest) ++ CVal x :: data).
    apply map_datasets_throws.
Qed.

(** ** The theorems at concrete worlds *)

Lemma w_batch_specs : expectedEventSpecs w_batch = [(1%N, spec_b)].
Proof. reflexivity. Qed.

Lemma w_batch_wf : obj_wf (expectedEventSpecs w_batch).
Proof.
  rewrite w_batch_specs. unfold obj_wf. simpl. repeat constructor.
Qed.

Lemma w_batch_matches :
  ∃ kv, kv ∈ expectedEventSpecs w_batch ∧ Matches "b" ∅ kv.2.
Proof.
  exists (1%N, spec_b). split.
  - rewrite w_batch_specs. apply list_elem_of_here.
  - split; [done|]. intros sparams [=].
Qed.

Lemma w_batch_waiters : waiters_ok w_batch.
Proof.
  split.
  - intros p (h & s & Hin & Hp). rewrite w_batch_specs in Hin.
    apply list_elem_of_singleton in Hin. injection Hin as -> ->.
    apply list_elem_of_singleton in Hp as ->. split; [reflexivity|].
    intros n a Hq. by apply elem_of_nil in Hq.
  - intros h s h' s' p Hin Hin' _ _. rewrite w_batch_specs in Hin, Hin'.
    apply list_elem_of_singleton in Hin, Hin'. congruence.
Qed.

Lemma C1_witness :
  obj_wf (expectedEventSpecs w_batch) ∧
  (∃ kv, kv ∈ expectedEventSpecs w_batch ∧ Matches "b" ∅ kv.2) ∧
  resolves_first_match (handleServerEvent event_b) "b" ∅ w_batch ∧
  resolves_first_match (fakeServerEvent "b" ∅) "b" ∅ w_batch.
Proof.
  split; [exact w_batch_wf|]. split; [exact w_batch_matches|].
  exact (C1_dispatch_resolves_first_match w_batch event_b
           w_batch_wf w_batch_matches).
Defined.

Lemma C2_witness :
  obj_wf (expectedEventSpecs (set_clock 100000 w_batch)) ∧
  new_effects cleanupExpectedEvents (set_clock 100000 w_batch) =
    [EHandler 1 0%nat (HError ERR_TIMEOUT)] ∧
  expectedEventSpecs (exec cleanupExpectedEvents (set_clock 100000 w_batch))
    = [].
Proof.
  split; [exact w_batch_wf|].
  destruct (C2_sweep_expires K0 (set_clock 100000 w_batch) event_b
              w_batch_wf) as (_ & _ & Hcalls & _).
  split; [by rewrite Hcalls|reflexivity].
Defined.

Lemma C3_witness :
  listeningTime w0 ≠ Some 5 ∧
  ∀ outcome, listen_settled K0 (Some 5) outcome w0 = (Ok tt, w0).
Proof.
  assert (H : listeningTime w0 ≠ Some 5) by done.
  split; [exact H|].
  by destruct (C3_stale_response_discarded K0 w0 (Some 5) H)
    as (_ & _ & Hall & _).
Defined.

Lemma C4_witness :
  obj_wf (expectedEventSpecs w_batch) ∧
  batch_trace (batch_start w_batch) batch_ab
    (new_effects (wait_then (listeningTime w_batch) (Some batch_ab))
                 w_batch).
Proof.
  split; [exact w_batch_wf|].
  by destruct (C4_resolution_before_delivery_per_event w_batch batch_ab
                 w_batch_wf).
Defined.

Lemma C5_witness :
  heap w_listeners_mid !! 0%nat = Some (new_Event "x" ∅ false false) ∧
  eventListeners w_listeners_mid =
    [quiet_listener; throwing_listener; quiet_listener] ∧
  result (callEventListeners 0%nat) w_listeners_mid
    = Throw (Error "listener failed") ∧
  new_effects (callEventListeners 0%nat) w_listeners_mid =
    [EListener 2 VUndef [AEvent 1%nat; AArguments (l_args quiet_listener)];
     EListener 1 VUndef
       [AEvent 2%nat; AArguments (l_args throwing_listener)]].
Proof.
  assert (H : heap w_listeners_mid !! 0%nat
              = Some (new_Event "x" ∅ false false)) by reflexivity.
  assert (Hls : eventListeners w_listeners_mid =
                [quiet_listener] ++ throwing_listener :: [quiet_listener])
    by reflexivity.
  split; [exact H|]. split; [exact Hls|].
  destruct (C5_dispatch_until_first_throw w_listeners_mid 0%nat _ H)
    as (_ & _ & _ & _ & _ & Hfirst & _).
  destruct (Hfirst [quiet_listener] throwing_listener [quiet_listener]
              (Error "listener failed") Hls)
    as (_ & Hres & Hcalls).
  - by apply Forall_singleton.
  - reflexivity.
  - split; [exact Hres|exact Hcalls].
Defined.


Lemma C9_witness :
  ignoreListenErrors w0 = false ∧
  timers (exec (wait_catch K0 (listeningTime w0) (Error "offline")) w0) =
    [{| t_millis := 1000; t_repeat := false; t_task := TWait |}].
Proof.
  assert (H : ignoreListenErrors w0 = false) by reflexivity.
  split; [exact H|].
  destruct (C9_reconnect_delay K0 w0 None (Error "offline") [] H)
    as [(_ & _ & Ht & _) _].
  by rewrite Ht.
Defined.

Lemma C10_witness :
  obj_wf (expectedEventSpecs w_batch) ∧
  ∃ e, heap (exec (handleServerEvent event_b) w_batch) !! 0%nat = Some e ∧
       ev_params e = ∅ ∧ ev_expected e = true.
Proof.
  split; [exact w_batch_wf|].
  destruct (C10_missing_params_are_empty w_batch "b" w_batch_wf)
    as (_ & _ & _ & _ & H).
  destruct (H 1%N spec_b) as (e & He & Hx).
  - rewrite w_batch_specs. apply list_elem_of_here.
  - by left.
  - done.
  - exists e. split; [exact He|]. split; [|exact Hx].
    assert (E : Some e = Some (new_Event "b" ∅ true false))
      by (rewrite <- He; reflexivity).
    by injection E as ->.
Defined.

(** ** The further properties at concrete worlds *)

Lemma w0_handles_bounded : handles_bounded w0.
Proof. constructor. Qed.

Lemma w0_wf : obj_wf (expectedEventSpecs w0).
Proof. constructor. Qed.

Lemma w_expect_b_ok : registry_ok w_expect_b.
Proof.
  apply (registry_ok_expectEvent (Some "b") None None w0).
  apply registry_ok_initial.
Qed.

Lemma w_expect_b_matches :
  ∃ kv, kv ∈ expectedEventSpecs w_expect_b ∧ Matches "b" ∅ kv.2.
Proof.
  exists (1%N, new_spec (Some "b") None None w0). split.
  - apply list_elem_of_here.
  - split; [done|]. intros sparams [=].
Qed.

Lemma w_batch_later_waiters : waiters_ok (set_clock 100000 w_batch).
Proof. exact w_batch_waiters. Qed.

Lemma p1_subseteq_p1v : p1 ⊆ p1v.
Proof.
  apply map_subseteq_spec. intros key value Hk. unfold p1 in Hk.
  apply lookup_singleton_Some in Hk as [<- <-]. reflexivity.
Qed.

Lemma spec_p1_defined sparams key :
  es_params spec_p1 = Some sparams → sparams !! key ≠ Some VUndef.
Proof.
  intros [= <-] Hk. unfold p1 in Hk.
  by apply lookup_singleton_Some in Hk as [_ [=]].
Qed.

Lemma spec_p1_matches : spec_matches "port-update" (Some p1) spec_p1 = Ok true.
Proof. reflexivity. Qed.

Lemma X1_witness :
  handles_bounded w0 ∧
  result (expectEvent (Some "b") None None) w0 = Ok 1%N ∧
  expectedEventSpecs (exec (expectEvent (Some "b") None None) w0) =
    [(1%N, {| es_type := Some "b"; es_params := None; es_added := 1000;
              es_timeout := 60000; es_handlers := [] |})].
Proof.
  split; [exact w0_handles_bounded|].
  destruct (X1_expectEvent_registers (Some "b") None None w0
              w0_handles_bounded) as (Hres & _ & Hspecs & _).
  split; [exact Hres|exact Hspecs].
Defined.

Lemma X3_witness :
  handles_bounded w0 ∧
  exec (h ← expectEvent (Some "b") None None; unexpectEvent h) w0 =
    set_expectedEventLastHandle 1 w0.
Proof.
  split; [exact w0_handles_bounded|].
  exact (proj2 (X3_expect_unexpect_round_trip (Some "b") None None w0
                  w0_handles_bounded)).
Defined.

Lemma X4_witness :
  handles_bounded w0 ∧
  (1%N ∈ (expectedEventSpecs
            (exec cleanupExpectedEvents
               (set_clock (1000 + 60000)
                  (exec (expectEvent (Some "b") None None) w0)))).*1 ↔
   60000 ≤ 60000).
Proof.
  split; [exact w0_handles_bounded|].
  exact (proj1 (X4_expectation_lifetime (Some "b") None None w0 60000
                  w0_handles_bounded)).
Defined.

Lemma X5_witness :
  obj_wf (expectedEventSpecs w_batch) ∧
  result (waitExpectedEvent "b" (Some ∅)) w_batch = Ok 1%nat.
Proof.
  split; [exact w_batch_wf|].
  exact (proj1 (X5_waitExpectedEvent_joins "b" ∅ w_batch w_batch_wf)).
Defined.

Lemma X6_witness :
  registry_ok w_expect_b ∧
  (∃ kv, kv ∈ expectedEventSpecs w_expect_b ∧ Matches "b" ∅ kv.2) ∧
  ∃ n, ∀ m, (n ≤ m)%nat →
    promises
      (exec (run_queue K0 m)
         (exec (handleServerEvent {| ed_type := "b"; ed_params := Some ∅ |})
            (exec (waitExpectedEvent "b" (Some ∅)) w_expect_b)))
      !! 0%nat = Some (Fulfilled 0%nat).
Proof.
  split; [exact w_expect_b_ok|]. split; [exact w_expect_b_matches|].
  destruct (X6_waiter_fulfilled_by_event K0 w_expect_b "b" ∅
              w_expect_b_ok w_expect_b_matches) as (_ & _ & n & Hn).
  exists n. intros m Hm. exact (proj1 (Hn m Hm)).
Defined.

Lemma X8_witness :
  waiters_ok w_batch ∧
  ∃ n, ∀ m, (n ≤ m)%nat →
    promises (exec (run_queue K0 m) (exec (unexpectEvent 1) w_batch))
      !! 0%nat = Some (Rejected (Error "Event no longer expected")).
Proof.
  split; [exact w_batch_waiters|].
  refine (proj2 (X8_cancelled_waiter_rejected K0 w_batch 1 spec_b 0%nat
                   w_batch_waiters eq_refl _)).
  apply list_elem_of_here.
Defined.

Lemma X9_witness :
  obj_wf (expectedEventSpecs (set_clock 100000 w_batch)) ∧
  waiters_ok (set_clock 100000 w_batch) ∧
  ∃ n, ∀ m, (n ≤ m)%nat →
    promises
      (exec (run_queue K0 m)
         (exec cleanupExpectedEvents (set_clock 100000 w_batch)))
      !! 0%nat = Some (Rejected (Error "Timeout waiting for expected event")).
Proof.
  split; [exact w_batch_wf|]. split; [exact w_batch_later_waiters|].
  refine (proj2 (X9_expired_waiter_rejected K0 (set_clock 100000 w_batch)
                   1 spec_b 0%nat w_batch_wf w_batch_later_waiters _ _ _)).
  - apply list_elem_of_here.
  - reflexivity.
  - apply list_elem_of_here.
Defined.

Lemma w_three_specs :
  expectedEventSpecs w_three = [(1%N, spec_b1); (2%N, spec_any); (3%N, spec_b3)].
Proof. reflexivity. Qed.

Lemma w_three_wf : obj_wf (expectedEventSpecs w_three).
Proof.
  rewrite w_three_specs. unfold obj_wf. simpl.
  repeat constructor; simpl; lia.
Qed.

Lemma w_three_matches h s :
  (h, s) ∈ expectedEventSpecs w_three → Matches "b" ∅ s ∧ (1 ≤ h)%N.
Proof.
  rewrite w_three_specs. intros Hin.
  repeat (apply elem_of_cons in Hin as [[= -> ->]|Hin]);
    [| |
     |by apply elem_of_nil in Hin].
  - split; [|lia]. split; [done|]. intros sparams [=].
  - split; [|lia]. split; [done|]. intros sparams [=].
  - split; [|lia]. split; [done|]. intros sparams [= <-] key value.
    by rewrite lookup_empty.
Qed.

Lemma X10_witness :
  obj_wf (expectedEventSpecs w_three) ∧
  expectedEventSpecs w_three =
    [(1%N, spec_b1); (2%N, spec_any); (3%N, spec_b3)] ∧
  Matches "b" ∅ spec_b1 ∧ Matches "b" ∅ spec_any ∧ Matches "b" ∅ spec_b3 ∧
  (∀ k v, (k, v) ∈ expectedEventSpecs
                     (exec (handleServerEvent event_b) w_three) ↔
          (k, v) ∈ expectedEventSpecs w_three ∧ k ≠ 1%N) ∧
  (∀ h' p a, EHandler h' p a ∈ new_effects (handleServerEvent event_b)
                                           w_three → h' = 1%N).
Proof.
  assert (Hin1 : (1%N, spec_b1) ∈ expectedEventSpecs w_three)
    by (rewrite w_three_specs; apply list_elem_of_here).
  assert (Hin2 : (2%N, spec_any) ∈ expectedEventSpecs w_three)
    by (rewrite w_three_specs; apply list_elem_of_further,
          list_elem_of_here).
  assert (Hin3 : (3%N, spec_b3) ∈ expectedEventSpecs w_three)
    by (rewrite w_three_specs;
        apply list_elem_of_further, list_elem_of_further,
          list_elem_of_here).
  split; [exact w_three_wf|]. split; [exact w_three_specs|].
  split; [exact (proj1 (w_three_matches _ _ Hin1))|].
  split; [exact (proj1 (w_three_matches _ _ Hin2))|].
  split; [exact (proj1 (w_three_matches _ _ Hin3))|].
  destruct (X10_oldest_match_wins w_three event_b w_three_wf)
    as (h & s & Hin & _ & Hleast & Hrest & Hcalls).
  { exists (2%N, spec_any). split; [exact Hin2|].
    exact (proj1 (w_three_matches _ _ Hin2)). }
  assert (Hh : h = 1%N).
  { pose proof (proj2 (w_three_matches _ _ Hin)) as Hge.
    pose proof (Hleast 1%N spec_b1 Hin1
                  (proj1 (w_three_matches _ _ Hin1))) as Hle.
    lia. }
  subst h. split; [exact Hrest|exact Hcalls].
Defined.



Lemma X12_witness :
  p1 ⊆ p1v ∧
  spec_matches "port-update" (Some p1) spec_p1 = Ok true ∧
  spec_matches "port-update" (Some p1v) spec_p1 = Ok true.
Proof.
  split; [exact p1_subseteq_p1v|]. split; [exact spec_p1_matches|].
  exact (X12_matching_ignores_extra_params "port-update" p1 p1v spec_p1
           p1_subseteq_p1v spec_p1_defined spec_p1_matches).
Defined.

Lemma X15_witness :
  truthy_number (listeningTime w0) = false ∧ clock w0 ≠ 0 ∧
  listeningTime (exec (startListening K0) w0) = Some 1000 ∧
  startListening K0 (exec (startListening K0) w0) =
    (Throw (AssertionError "Listening mechanism already active"),
     exec (startListening K0) w0).
Proof.
  assert (Hl : truthy_number (listeningTime w0) = false) by reflexivity.
  assert (Hc : clock w0 ≠ 0) by done.
  split; [exact Hl|]. split; [exact Hc|].
  destruct (X15_startListening_once K0 w0 Hl Hc)
    as (_ & Ht & _ & _ & _ & Hthrow & _).
  split; [exact Ht|exact Hthrow].
Defined.

Lemma X18_witness :
  ignoreListenErrors w_ignoring = true ∧
  timers (exec (forEach (failure_cycle K0)
                        [Error "offline"; Error "offline"; Error "offline"])
               w_ignoring) =
    replicate 3 {| t_millis := 5000; t_repeat := false; t_task := TWait |}.
Proof.
  assert (H : ignoreListenErrors w_ignoring = true) by reflexivity.
  split; [exact H|].
  destruct (X18_suppressed_failures K0 w_ignoring
              [Error "offline"; Error "offline"; Error "offline"] H)
    as (_ & _ & _ & _ & Ht & _).
  exact Ht.
Defined.

Lemma X23_witness :
  clock w_batch_later ≠ 0 ∧
  result (onVisibilityChange K0 false true) w_batch_later = Ok tt ∧
  listeningTime (exec (onVisibilityChange K0 false true) w_batch_later)
    = Some 2000.
Proof.
  assert (Hc : clock w_batch_later ≠ 0) by done.
  split; [exact Hc|].
  destruct (X23_onVisibilityChange_restarts K0 false true w_batch_later Hc)
    as (Hres & _ & Hact).
  split; [exact Hres|].
  by destruct (Hact eq_refl eq_refl eq_refl) as (Ht & _).
Defined.

Lemma empty_params_defined (key : string) (value : JsVal) :
  (∅ : Params) !! key = Some value → js_get (∅ : Params) key = value.
Proof. by rewrite lookup_empty. Qed.

Lemma X7_witness :
  obj_wf (expectedEventSpecs w0) ∧ handles_bounded w0 ∧
  promises
    (exec (expectEvent (Some "b") (Some ∅) None ;;
           handleServerEvent {| ed_type := "b"; ed_params := Some ∅ |} ;;
           waitExpectedEvent "b" (Some ∅)) w0) =
    [Rejected (Error "No such expected event")].
Proof.
  split; [exact w0_wf|]. split; [exact w0_handles_bounded|].
  assert (H : Forall (λ kv : Handle * EventSpec, ¬ Matches "b" ∅ kv.2)
                     (expectedEventSpecs w0)) by constructor.
  exact (proj2 (proj2 (X7_late_waiter_rejected "b" ∅ ∅ None w0 w0_wf
                         w0_handles_bounded H empty_params_defined))).
Defined.

Lemma w_listeners_throws :
  result (handleServerEvent {| ed_type := "a"; ed_params := None |})
         (exec (forEach handleServerEvent []) (batch_start w_listeners))
    = Throw (Error "listener failed").
Proof. reflexivity. Qed.

Lemma X20_witness :
  result (handleServerEvent {| ed_type := "a"; ed_params := None |})
         (exec (forEach handleServerEvent []) (batch_start w_listeners))
    = Throw (Error "listener failed") ∧
  exec (wait_then (listeningTime w_listeners) (Some batch_ab)) w_listeners =
    exec (wait_then (listeningTime w_listeners)
                    (Some [{| ed_type := "a"; ed_params := None |}]))
         w_listeners.
Proof.
  split; [exact w_listeners_throws|].
  exact (proj2 (proj2 (X20_batch_abandoned_on_throw w_listeners [] [event_b]
                         {| ed_type := "a"; ed_params := None |}
                         (Error "listener failed") eq_refl
                         w_listeners_throws))).
Defined.
